(** * Pulser [Simulation]: a shallow embedding of pulser/simulation/simulation.py

    The Python class [Simulation] turns a pulse [Sequence] into a
    time-dependent Hamiltonian (a QuTiP [QobjEvo]), and runs QuTiP's solvers on
    it, once or many times depending on the noise that is configured.

    Conventions of the embedding.
    - Python exceptions are values of [PyError]; a method that can raise
      returns an [Outcome].  Methods that mutate [self] are functions from the
      object to an outcome and the mutated object ([Sim]): a raise keeps the
      mutations made before it, as in Python.
    - Floats that steer control flow (sampling rate, evaluation times, SPAM
      probability, uniform draws) are exact rationals [Q]; physical quantities
      (amplitudes, detunings, phases, positions, matrix entries) are real
      numbers [R].  Rounding is not modelled.
    - numpy, QuTiP, [Sequence], [SimConfig] and the result classes are not part
      of the file under study; they are modelled by what the file uses of them.
    - Random draws come from two streams ([uniform] and [std_normal]) read at a
      cursor kept in the object ([rng_pos]). *)

From Stdlib Require Import ZArith QArith Qround Reals Lra Lia.
From stdpp Require Import gmap gmultiset strings list fin_maps sorting functions.

(* ================================================================= *)
(** ** Python exceptions and the two monads *)

Inductive PyError :=
  | TypeError | ValueError | KeyError | IndexError | AttributeError
  | NotImplementedError | RecursionError | ZeroDivisionError.

Inductive Outcome (A : Type) :=
  | Ok (a : A)
  | Raise (e : PyError).
Arguments Ok {A} a.
Arguments Raise {A} e.

Definition is_ok {A} (o : Outcome A) : bool :=
  match o with Ok _ => true | Raise _ => false end.

#[global] Instance Outcome_ret : MRet Outcome := fun A a => Ok a.
#[global] Instance Outcome_bind : MBind Outcome := fun A B f m =>
  match m with Ok a => f a | Raise e => Raise e end.

(** [d[k]] on a dict: [KeyError] when the key is missing. *)
Definition getitem {A} (o : option A) : Outcome A :=
  match o with Some a => Ok a | None => Raise KeyError end.

(** A loop with an accumulator whose body may raise. *)
Fixpoint foldM {A B} (f : B -> A -> Outcome B) (l : list A) (b : B) : Outcome B :=
  match l with
  | [] => Ok b
  | a :: l' => b' ← f b a; foldM f l' b'
  end.

(** [[f(x) for x in l]] where [f] may raise. *)
Fixpoint mapM_ok {A B} (f : A -> Outcome B) (l : list A) : Outcome (list B) :=
  match l with
  | [] => Ok []
  | a :: l' => b ← f a; bs ← mapM_ok f l'; Ok (b :: bs)
  end.

(* ================================================================= *)
(** ** numpy *)

Open Scope Z_scope.

(** [int(x)] of a float: truncation towards zero. *)
Definition py_int (q : Q) : Z :=
  if Qle_bool 0 q then Qfloor q else Qceiling q.

(** [np.arange(n)] *)
Definition arange (n : Z) : list Z := Z.of_nat <$> seq 0 (Z.to_nat n).

(** [np.linspace(start, stop, num, dtype=int)] with integer bounds: the
    points [start + i * step] for [step = (stop - start) / (num - 1)], the
    last one set to [stop], each rounded down.  The quotient and the
    products are exact here; numpy rounds them to doubles, so an index can
    be one off where [i * step] is within rounding of an integer. *)
Definition linspace_int (start stop num : Z) : Outcome (list Z) :=
  if num <? 0 then Raise ValueError
  else
    let div := num - 1 in
    let delta := inject_Z (stop - start) in
    let y (i : Z) : Q :=
      ((if 0 <? div then inject_Z i * (delta / inject_Z div)
        else inject_Z i * delta) + inject_Z start)%Q in
    Ok ((fun i => if (1 <? num) && (i =? num - 1) then stop else Qfloor (y i))
          <$> arange num).

(** [a[i]] for an integer [i]: negative indices count from the end. *)
Definition np_item {A} (a : list A) (i : Z) : Outcome A :=
  let len := Z.of_nat (length a) in
  if (0 <=? i) && (i <? len) then
    match a !! Z.to_nat i with Some x => Ok x | None => Raise IndexError end
  else if (- len <=? i) && (i <? 0) then
    match a !! Z.to_nat (len + i) with Some x => Ok x | None => Raise IndexError end
  else Raise IndexError.

(** [a[indices]] for an integer array [indices]. *)
Definition np_take {A} (a : list A) (indices : list Z) : Outcome (list A) :=
  mapM_ok (np_item a) indices.

(** [a[ti:tf] += rhs] where [rhs] has the length of the slice. *)
Definition slice_add (ti tf : nat) (rhs : list R) (a : list R) : list R :=
  imap (fun t x => if bool_decide (ti ≤ t < tf)%nat
                   then (x + nth (t - ti) rhs 0)%R else x) a.

(** [a[ti:tf] += c] for a scalar [c]. *)
Definition slice_add_scalar (ti tf : nat) (c : R) (a : list R) : list R :=
  imap (fun t x => if bool_decide (ti ≤ t < tf)%nat then (x + c)%R else x) a.

(** [a[0:tf] = 0] *)
Definition slice_zero (tf : nat) (a : list R) : list R :=
  imap (fun t x => if bool_decide (t < tf)%nat then 0%R else x) a.

(** [np.zeros(n)] *)
Definition np_zeros (n : nat) : list R := replicate n 0%R.

Close Scope Z_scope.

(* ================================================================= *)
(** ** Complex numbers *)

Definition C : Type := R * R.

Definition RtoC (x : R) : C := (x, 0%R).
Definition C0 : C := RtoC 0.
Definition C1 : C := RtoC 1.
Definition Cadd (a b : C) : C := ((a.1 + b.1)%R, (a.2 + b.2)%R).
Definition Cmul (a b : C) : C :=
  ((a.1 * b.1 - a.2 * b.2)%R, (a.1 * b.2 + a.2 * b.1)%R).
Definition Cconj (a : C) : C := (a.1, (- a.2)%R).
(** [np.exp(-1j * phi)] *)
Definition Cexp_mi (phi : R) : C := (cos phi, (- sin phi)%R).

Definition Ceq_dec (a b : C) : {a = b} + {a <> b}.
Proof.
  destruct a as [a1 a2], b as [b1 b2].
  destruct (Req_dec_T a1 b1) as [->|n1]; [|right; congruence].
  destruct (Req_dec_T a2 b2) as [->|n2]; [left; reflexivity|right; congruence].
Defined.

(** [np.any(coeff != 0)] *)
Definition np_any_nonzero (coeff : list C) : bool :=
  existsb (fun c => if Ceq_dec c C0 then false else true) coeff.

(* ================================================================= *)
(** ** QuTiP: [Qobj] *)

(** A quantum object: its shape and its entries.  Kets are columns
    (shape [(d, 1)]), operators are square. *)
Record Qobj := mkQobj { shape : nat * nat; data : nat -> nat -> C }.

(** Equality of quantum objects: same shape, same entries. *)
Definition Qobj_eq (A B : Qobj) : Prop :=
  shape A = shape B /\ forall i j, data A i j = data B i j.

(** [qutip.qeye(d)] *)
Definition qeye (d : nat) : Qobj :=
  mkQobj (d, d) (fun i j => if bool_decide (i = j) then C1 else C0).

(** [qutip.basis(d, i)]: the ket number [i] of dimension [d]. *)
Definition qbasis (d i : nat) : Qobj :=
  mkQobj (d, 1) (fun r c => if bool_decide (r = i /\ c = 0) then C1 else C0).

(** The zero object of a given shape. *)
Definition qzero (sh : nat * nat) : Qobj := mkQobj sh (fun _ _ => C0).

(** [A.dag()] *)
Definition dag (A : Qobj) : Qobj :=
  mkQobj ((shape A).2, (shape A).1) (fun i j => Cconj (data A j i)).

(** [A + B] *)
Definition Qadd (A B : Qobj) : Qobj :=
  mkQobj (shape A) (fun i j => Cadd (data A i j) (data B i j)).

(** [A - B] *)
Definition Qsub (A B : Qobj) : Qobj :=
  mkQobj (shape A) (fun i j => Cadd (data A i j) (Cmul (RtoC (-1)) (data B i j))).

(** [c * A] *)
Definition Qscale (c : C) (A : Qobj) : Qobj :=
  mkQobj (shape A) (fun i j => Cmul c (data A i j)).

Fixpoint Csum (f : nat -> C) (n : nat) : C :=
  match n with
  | O => C0
  | S n' => Cadd (Csum f n') (f n')
  end.

(** [A * B]: the matrix product. *)
Definition Qmul (A B : Qobj) : Qobj :=
  mkQobj ((shape A).1, (shape B).2)
         (fun i j => Csum (fun k => Cmul (data A i k) (data B k j)) (shape A).2).

(** The Kronecker product of two objects. *)
Definition kron (A B : Qobj) : Qobj :=
  let '(rb, cb) := shape B in
  mkQobj ((shape A).1 * rb, (shape A).2 * cb)
         (fun i j => Cmul (data A (i / rb) (j / cb)) (data B (i mod rb) (j mod cb))).

(** [qutip.tensor(l)]: the Kronecker product of the list, from the left.  A
    register has at least one qubit, so the list is never empty in the code;
    the empty product is the 1x1 identity. *)
Definition tensor (l : list Qobj) : Qobj :=
  match l with
  | [] => qeye 1
  | A :: l' => fold_left kron l' A
  end.

(** The Python integer [0], as QuTiP reads it: a 1x1 zero. *)
Definition py_zero : Qobj := qzero (1, 1).

(** [sum(l)], that is [0 + l[0] + l[1] + ...]: QuTiP returns the operator
    itself when the scalar [0] is added to it, so the sum of a non-empty list
    starts from its first element. *)
Definition Qsum (l : list Qobj) : Qobj :=
  match l with
  | [] => py_zero
  | A :: l' => fold_left Qadd l' A
  end.

(* ================================================================= *)
(** ** QuTiP: [QobjEvo] *)

(** An element of the list given to [QobjEvo]: a constant operator, or an
    operator with its array of coefficients on the time list. *)
Inductive EvoElem :=
  | EvoCte (q : Qobj)
  | EvoArr (q : Qobj) (coeff : list C).

Record QobjEvo := mkQobjEvo {
  evo_cte : Qobj;
  evo_ops : list (Qobj * list C);
  evo_tlist : list Q }.

Definition evo_ctes (l : list EvoElem) : list Qobj :=
  omap (fun e => match e with EvoCte q => Some q | EvoArr _ _ => None end) l.

Definition evo_arrs (l : list EvoElem) : list (Qobj * list C) :=
  omap (fun e => match e with EvoCte _ => None | EvoArr q c => Some (q, c) end) l.

(** [qutip.QobjEvo(l, tlist=tlist)]: the constants are summed into the
    constant part; without any constant the constant part is the zero
    operator of the dimensions of the terms. *)
Definition QobjEvo_of (l : list EvoElem) (tlist : list Q) : QobjEvo :=
  let cte := match evo_ctes l with
             | [] => Qscale C0 (Qsum (fst <$> evo_arrs l))
             | ctes => Qsum ctes
             end in
  mkQobjEvo cte (evo_arrs l) tlist.

(** [h.dag()] *)
Definition evo_dag (h : QobjEvo) : QobjEvo :=
  mkQobjEvo (dag (evo_cte h))
            ((fun oc : Qobj * list C => (dag oc.1, Cconj <$> oc.2)) <$> evo_ops h)
            (evo_tlist h).

(** [h1 + h2]: QuTiP refuses operands of different dimensions. *)
Definition evo_add (h1 h2 : QobjEvo) : Outcome QobjEvo :=
  if bool_decide (shape (evo_cte h1) = shape (evo_cte h2)) then
    Ok (mkQobjEvo (Qadd (evo_cte h1) (evo_cte h2))
                  (evo_ops h1 ++ evo_ops h2) (evo_tlist h1))
  else Raise TypeError.

(** [h.compress()] merges the terms that share their coefficients; the
    operator that [h] denotes at each time is unchanged, and the embedding
    keeps the list of terms as it is. *)
Definition compress (h : QobjEvo) : QobjEvo := h.

(** The value of [h] at the point number [k] of its time list: the constant
    part plus each operator times its coefficient there. *)
Definition evo_at (h : QobjEvo) (k : nat) : Qobj :=
  fold_left (fun acc (oc : Qobj * list C) => Qadd acc (Qscale (nth k oc.2 C0) oc.1))
            (evo_ops h) (evo_cte h).

(* ================================================================= *)
(** ** The sequence, as the simulation reads it *)

Definition QubitId := string.
Definition Position := list R.

Inductive Addressing := Global | Local.
(** The basis of a channel: ["ground-rydberg"], ["digital"] or ["XY"]. *)
Inductive Basis := ground_rydberg | digital | XY.
(** [basis_name]: a channel basis or ["all"]. *)
Inductive BasisName := bn_ground_rydberg | bn_digital | bn_all | bn_XY.
(** [_interaction]: ["ising"] or ["XY"]. *)
Inductive Interaction := ising | XY_mode.

#[global] Instance Addressing_eq_dec : EqDecision Addressing.
Proof. solve_decision. Defined.
#[global] Instance Basis_eq_dec : EqDecision Basis.
Proof. solve_decision. Defined.
#[global] Instance BasisName_eq_dec : EqDecision BasisName.
Proof. solve_decision. Defined.
#[global] Instance Interaction_eq_dec : EqDecision Interaction.
Proof. solve_decision. Defined.

(** A pulse: the samples of its amplitude and detuning waveforms (one per
    nanosecond) and its phase. *)
Record Pulse := mkPulse {
  amplitude : list R;
  detuning : list R;
  phase : R }.

(** [slot.type] is a [Pulse], or a string (["delay"], ["target"]). *)
Inductive SlotType :=
  | IsPulse (p : Pulse)
  | NotPulse.

Record TimeSlot := mkTimeSlot {
  type_ : SlotType;
  ti : nat;
  tf : nat;
  targets : list QubitId }.

Record Channel := mkChannel {
  addressing : Addressing;
  basis : Basis }.

(** A [Sequence], by what [Simulation] reads of it.  [get_duration] and
    [_min_pulse_duration] are methods whose code is in another file: the
    record holds what they return, and [_min_pulse_duration()] may raise. *)
Record Sequence := mkSequence {
  qubit_info : list (QubitId * Position);
  declared_channels : list (string * Channel);
  _schedule : gmap string (list TimeSlot);
  _in_xy : bool;
  _slm_mask_targets : list QubitId;
  _slm_mask_time : list nat;
  interaction_coeff : R;
  interaction_coeff_xy : R;
  magnetic_field : list R;
  _measurement : option BasisName;
  get_duration : nat;
  _min_pulse_duration : Outcome nat }.

(* ================================================================= *)
(** ** The configuration *)

(** [SimConfig]: the tuple of noise types and the parameters of each. *)
Record SimConfig := mkSimConfig {
  noise : list string;
  runs : nat;
  samples_per_run : nat;
  eta : Q;
  epsilon : Q;
  epsilon_prime : Q;
  laser_waist : R;
  doppler_sigma : R;
  dephasing_prob : R }.

(** [SUPPORTED_NOISE] *)
Definition SUPPORTED_NOISE (i : Interaction) : list string :=
  match i with
  | ising => ["dephasing"; "doppler"; "amplitude"; "SPAM"]
  | XY_mode => ["SPAM"]
  end.

(** [set(a).issubset(b)] *)
Definition issubset (a b : list string) : bool :=
  forallb (fun x => bool_decide (x ∈ b)) a.

(** ["x" in noise] *)
Definition has_noise (x : string) (cfg : SimConfig) : bool :=
  bool_decide (x ∈ noise cfg).

(* ================================================================= *)
(** ** Samples, operator cache and results *)

(** [prepare_dict()]: the three arrays of a coefficient set. *)
Record SampleArrays := mkSampleArrays {
  amp : list R;
  det : list R;
  phase_arr : list R }.

(** [self.samples]: for each addressing and each basis of the interaction
    mode ([smp_keys]), the coefficients.  A ["Global"] entry is the empty dict
    ([None]) or one coefficient set; a ["Local"] entry is a dict from qubits to
    coefficient sets, in insertion order. *)
Record Samples := mkSamples {
  smp_keys : list Basis;
  smp_global : Basis -> option SampleArrays;
  smp_local : Basis -> list (QubitId * SampleArrays) }.

(** [self.operators]: the operators already built, by addressing and basis;
    for ["Global"] by operator name, for ["Local"] by qubit and operator
    name. *)
Record OperatorCache := mkOperatorCache {
  ops_global : Basis -> gmap string Qobj;
  ops_local : Basis -> gmap QubitId (gmap string Qobj) }.

(** Insertion-ordered dict: [k in d], [d[k]] and [d[k] = v]. *)
Definition dict_has {V} (d : list (QubitId * V)) (k : QubitId) : bool :=
  bool_decide (k ∈ d.*1).

Fixpoint dict_get {V} (d : list (QubitId * V)) (k : QubitId) : option V :=
  match d with
  | [] => None
  | (k', v) :: d' => if decide (k = k') then Some v else dict_get d' k
  end.

Fixpoint dict_set {V} (d : list (QubitId * V)) (k : QubitId) (v : V)
  : list (QubitId * V) :=
  match d with
  | [] => [(k, v)]
  | (k', v') :: d' =>
      if decide (k = k') then (k, v) :: d' else (k', v') :: dict_set d' k v
  end.

(** [dict(zip(keys, values))] *)
Definition dict_zip {V} (keys : list QubitId) (values : list V)
  : gmap QubitId V :=
  foldl (fun m kv => <[kv.1 := kv.2]> m) ∅ (zip keys values).

Record CoherentResults := mkCoherentResults {
  cr_states : list Qobj;
  cr_size : nat;
  cr_basis_name : option BasisName;
  cr_times : list Q;
  cr_meas_basis : BasisName;
  cr_meas_errors : option (Q * Q) }.

(** A [Counter] of measured bitstrings. *)
Abbreviation Counter := (gmultiset string).

Record NoisyResults := mkNoisyResults {
  nr_run_prob : list (list (string * Q));
  nr_size : nat;
  nr_basis_name : option BasisName;
  nr_times : list Q;
  nr_n_measures : nat }.

Inductive SimulationResults :=
  | Coherent (r : CoherentResults)
  | Noisy (r : NoisyResults).

(** [progress_bar] as [run] receives it: [True], [False], [None], or
    anything else. *)
Inductive ProgressBar := PbTrue | PbFalse | PbNone | PbOther.

(** [solv_ops] in [run]: the [qutip.Options] made of the keyword arguments
    [options], or of [max_step = auto_max_step] and [options], with
    [auto_max_step = 0.5 * (d / 1000)] for the shortest pulse duration [d].
    The keyword arguments are a map from their names. *)
Inductive SolverOptions :=
  | OptionsGiven (options : gmap string Q)
  | OptionsAuto (d : nat) (options : gmap string Q).

(** One call of a QuTiP solver: the arguments, and the preparation failures
    in force when it is called.  [sc_p_bar] is [progress_bar=True] when it
    holds and [progress_bar=None] otherwise. *)
Record SolverCall := mkSolverCall {
  sc_dephasing : bool;
  sc_hamiltonian : QobjEvo;
  sc_collapse_ops : list Qobj;
  sc_initial_state : Qobj;
  sc_times : list Q;
  sc_bad_atoms : gmap QubitId bool;
  sc_p_bar : bool;
  sc_options : SolverOptions }.

(** What a run does to the outside, in order. *)
Inductive Event :=
  | EvConstruct (update_and_extract : bool)
  | EvSolve (c : SolverCall).

Definition is_solve (e : Event) : bool :=
  match e with EvSolve _ => true | EvConstruct _ => false end.

(** The collaborators: the random streams, the default [SimConfig()], the
    solvers of QuTiP, the sampling of a result, QuTiP's [!=], the
    exception that [qutip.Options] raises on keyword arguments that it
    refuses, and the one that [qutip.Qobj] raises on data that does not fit
    the dimensions it is given. *)
Record External := mkExternal {
  uniform : nat -> Q;
  std_normal : nat -> R;
  SimConfig_default : SimConfig;
  sesolve : QobjEvo -> Qobj -> list Q -> bool -> SolverOptions -> list Qobj;
  mesolve : QobjEvo -> list Qobj -> Qobj -> list Q -> bool -> SolverOptions
            -> list Qobj;
  sample_state : CoherentResults -> Q -> nat -> nat -> Counter;
  Qobj_ne : Qobj -> Qobj -> bool;
  Options_error : SolverOptions -> option PyError;
  Qobj_dims_error : PyError }.

(* ================================================================= *)
(** ** The [Simulation] object *)

(** The attributes of [self].  [_interaction], [_qdict], [_size],
    [_tot_duration] and [_qid_index] are set once from the sequence and are
    functions of [_seq] here; [dim], [basis] and [op_matrix] are set together
    with [basis_name] and are functions of it.  An attribute tested with
    [hasattr] is an [option].  [rng_pos] and [trace] are not attributes: the
    position in the random streams and the events so far. *)
Record Simulation := mkSimulation {
  _seq : Sequence;
  _sampling_rate : Q;
  sampling_times : list Q;
  _eval_times_array : list Q;
  _config : option SimConfig;
  _bad_atoms : gmap QubitId bool;
  _doppler_detune : gmap QubitId R;
  samples : Samples;
  operators : option OperatorCache;
  basis_name : option BasisName;
  _collapse_ops : list Qobj;
  _hamiltonian : option QobjEvo;
  _meas_basis : BasisName;
  _initial_state : Qobj;
  rng_pos : nat;
  trace : list Event }.

Definition set_sampling_times (v : list Q) (s : Simulation) : Simulation :=
  mkSimulation (_seq s) (_sampling_rate s) v (_eval_times_array s)
    (_config s) (_bad_atoms s) (_doppler_detune s) (samples s) (operators s)
    (basis_name s) (_collapse_ops s) (_hamiltonian s) (_meas_basis s)
    (_initial_state s) (rng_pos s) (trace s).
Definition set_eval_times_array (v : list Q) (s : Simulation) : Simulation :=
  mkSimulation (_seq s) (_sampling_rate s) (sampling_times s) v
    (_config s) (_bad_atoms s) (_doppler_detune s) (samples s) (operators s)
    (basis_name s) (_collapse_ops s) (_hamiltonian s) (_meas_basis s)
    (_initial_state s) (rng_pos s) (trace s).
Definition set__config (v : option SimConfig) (s : Simulation) : Simulation :=
  mkSimulation (_seq s) (_sampling_rate s) (sampling_times s) (_eval_times_array s)
    v (_bad_atoms s) (_doppler_detune s) (samples s) (operators s)
    (basis_name s) (_collapse_ops s) (_hamiltonian s) (_meas_basis s)
    (_initial_state s) (rng_pos s) (trace s).
Definition set_bad_atoms (v : gmap QubitId bool) (s : Simulation) : Simulation :=
  mkSimulation (_seq s) (_sampling_rate s) (sampling_times s) (_eval_times_array s)
    (_config s) v (_doppler_detune s) (samples s) (operators s)
    (basis_name s) (_collapse_ops s) (_hamiltonian s) (_meas_basis s)
    (_initial_state s) (rng_pos s) (trace s).
Definition set_doppler_detune (v : gmap QubitId R) (s : Simulation) : Simulation :=
  mkSimulation (_seq s) (_sampling_rate s) (sampling_times s) (_eval_times_array s)
    (_config s) (_bad_atoms s) v (samples s) (operators s)
    (basis_name s) (_collapse_ops s) (_hamiltonian s) (_meas_basis s)
    (_initial_state s) (rng_pos s) (trace s).
Definition set_samples (v : Samples) (s : Simulation) : Simulation :=
  mkSimulation (_seq s) (_sampling_rate s) (sampling_times s) (_eval_times_array s)
    (_config s) (_bad_atoms s) (_doppler_detune s) v (operators s)
    (basis_name s) (_collapse_ops s) (_hamiltonian s) (_meas_basis s)
    (_initial_state s) (rng_pos s) (trace s).
Definition set_operators (v : option OperatorCache) (s : Simulation) : Simulation :=
  mkSimulation (_seq s) (_sampling_rate s) (sampling_times s) (_eval_times_array s)
    (_config s) (_bad_atoms s) (_doppler_detune s) (samples s) v
    (basis_name s) (_collapse_ops s) (_hamiltonian s) (_meas_basis s)
    (_initial_state s) (rng_pos s) (trace s).
Definition set_basis_name (v : option BasisName) (s : Simulation) : Simulation :=
  mkSimulation (_seq s) (_sampling_rate s) (sampling_times s) (_eval_times_array s)
    (_config s) (_bad_atoms s) (_doppler_detune s) (samples s) (operators s)
    v (_collapse_ops s) (_hamiltonian s) (_meas_basis s)
    (_initial_state s) (rng_pos s) (trace s).
Definition set_collapse_ops (v : list Qobj) (s : Simulation) : Simulation :=
  mkSimulation (_seq s) (_sampling_rate s) (sampling_times s) (_eval_times_array s)
    (_config s) (_bad_atoms s) (_doppler_detune s) (samples s) (operators s)
    (basis_name s) v (_hamiltonian s) (_meas_basis s)
    (_initial_state s) (rng_pos s) (trace s).
Definition set_hamiltonian (v : option QobjEvo) (s : Simulation) : Simulation :=
  mkSimulation (_seq s) (_sampling_rate s) (sampling_times s) (_eval_times_array s)
    (_config s) (_bad_atoms s) (_doppler_detune s) (samples s) (operators s)
    (basis_name s) (_collapse_ops s) v (_meas_basis s)
    (_initial_state s) (rng_pos s) (trace s).
Definition set_meas_basis (v : BasisName) (s : Simulation) : Simulation :=
  mkSimulation (_seq s) (_sampling_rate s) (sampling_times s) (_eval_times_array s)
    (_config s) (_bad_atoms s) (_doppler_detune s) (samples s) (operators s)
    (basis_name s) (_collapse_ops s) (_hamiltonian s) v
    (_initial_state s) (rng_pos s) (trace s).
Definition set_initial_state (v : Qobj) (s : Simulation) : Simulation :=
  mkSimulation (_seq s) (_sampling_rate s) (sampling_times s) (_eval_times_array s)
    (_config s) (_bad_atoms s) (_doppler_detune s) (samples s) (operators s)
    (basis_name s) (_collapse_ops s) (_hamiltonian s) (_meas_basis s)
    v (rng_pos s) (trace s).
Definition set_rng_pos (v : nat) (s : Simulation) : Simulation :=
  mkSimulation (_seq s) (_sampling_rate s) (sampling_times s) (_eval_times_array s)
    (_config s) (_bad_atoms s) (_doppler_detune s) (samples s) (operators s)
    (basis_name s) (_collapse_ops s) (_hamiltonian s) (_meas_basis s)
    (_initial_state s) v (trace s).
Definition log_event (e : Event) (s : Simulation) : Simulation :=
  mkSimulation (_seq s) (_sampling_rate s) (sampling_times s) (_eval_times_array s)
    (_config s) (_bad_atoms s) (_doppler_detune s) (samples s) (operators s)
    (basis_name s) (_collapse_ops s) (_hamiltonian s) (_meas_basis s)
    (_initial_state s) (rng_pos s) (trace s ++ [e]).

(** A method of the object: it returns or raises, and leaves the object in a
    new state either way. *)
Definition Sim (A : Type) : Type := Simulation -> Outcome A * Simulation.

Definition sim_ret {A} (a : A) : Sim A := fun s => (Ok a, s).
Definition sim_raise {A} (e : PyError) : Sim A := fun s => (Raise e, s).
Definition sim_bind {A B} (m : Sim A) (f : A -> Sim B) : Sim B :=
  fun s => match m s with
           | (Ok a, s') => f a s'
           | (Raise e, s') => (Raise e, s')
           end.
Definition sim_get : Sim Simulation := fun s => (Ok s, s).
Definition sim_modify (f : Simulation -> Simulation) : Sim unit :=
  fun s => (Ok tt, f s).
Definition sim_lift {A} (o : Outcome A) : Sim A := fun s => (o, s).

Notation "x <- c1 ;; c2" := (sim_bind c1 (fun x => c2))
  (at level 100, c1 at next level, right associativity).
Notation "c1 ;; c2" := (sim_bind c1 (fun _ => c2))
  (at level 100, right associativity).

(** A [for] loop over [l] whose body is a method. *)
Fixpoint sim_for {A} (l : list A) (body : A -> Sim unit) : Sim unit :=
  match l with
  | [] => sim_ret tt
  | a :: l' => body a ;; sim_for l' body
  end.

(** [self.config] (the default only stands for the attribute error of an
    object without [_config], which no method meets). *)
Definition config (E : External) (self : Simulation) : SimConfig :=
  default (SimConfig_default E) (_config self).

Definition _interaction (self : Simulation) : Interaction :=
  if _in_xy (_seq self) then XY_mode else ising.
Definition _qdict (self : Simulation) : list (QubitId * Position) :=
  qubit_info (_seq self).
Definition _size (self : Simulation) : nat := length (_qdict self).
Definition _tot_duration (self : Simulation) : nat := get_duration (_seq self).
(** The keys of [_qid_index], in order: [_qid_index[q]] is the position of
    [q] among them. *)
Definition qids (self : Simulation) : list QubitId := (_qdict self).*1.

Fixpoint index_of (q : QubitId) (l : list QubitId) : option nat :=
  match l with
  | [] => None
  | q' :: l' => if decide (q = q') then Some 0 else S <$> index_of q l'
  end.
Definition _qid_index (self : Simulation) (q : QubitId) : option nat :=
  index_of q (qids self).

(* ================================================================= *)
(** ** Sampling grid and evaluation times *)

(** [self._tot_duration / 1000] *)
Definition t_final (self : Simulation) : Q :=
  inject_Z (Z.of_nat (_tot_duration self)) / 1000.

(** [_adapt_to_sampling_rate].  The number of points is the integer part
    of an exact product here, of a product of doubles in the code. *)
Definition _adapt_to_sampling_rate {A} (self : Simulation) (full_array : list A)
  : Outcome (list A) :=
  indices ← linspace_int 0 (Z.of_nat (_tot_duration self) - 1)
              (py_int (_sampling_rate self
                       * inject_Z (Z.of_nat (_tot_duration self))));
  np_take full_array indices.

(** What the setter of [evaluation_times] accepts: a string, a float, an
    array of times, or anything else. *)
Inductive EvalTimesSpec :=
  | EvalStr (s : string)
  | EvalFloat (value : Q)
  | EvalArray (value : list Q)
  | EvalOther.

#[global] Instance Qle_dec_inst : RelDecision Qle.
Proof. intros x y. destruct (Qlt_le_dec y x); [right|left]; [apply Qlt_not_le|]; done. Defined.

Definition Qltb (x y : Q) : bool := negb (Qle_bool y x).

(** [np.max] and [np.min] of a non-empty array. *)
Definition np_max (l : list Q) : Outcome Q :=
  match l with
  | [] => Raise ValueError
  | x :: l' => Ok (foldl (fun m y => if Qltb m y then y else m) x l')
  end.
Definition np_min (l : list Q) : Outcome Q :=
  match l with
  | [] => Raise ValueError
  | x :: l' => Ok (foldl (fun m y => if Qltb y m then y else m) x l')
  end.

(** [np.sort] *)
Definition np_sort (l : list Q) : list Q := merge_sort Qle l.

(** The setter of [evaluation_times]: the new [_eval_times_array].  In
    the branch of a float, the number of points is the integer part of an
    exact product here, of a product of doubles in the code. *)
Definition evaluation_times_setter (self : Simulation) (value : EvalTimesSpec)
  : Outcome (list Q) :=
  match value with
  | EvalStr s =>
      if decide (s = "Full") then
        Ok (sampling_times self ++ [t_final self])
      else if decide (s = "Minimal") then
        match sampling_times self with
        | t0 :: _ => Ok [t0; t_final self]
        | [] => Raise IndexError
        end
      else Raise ValueError
  | EvalFloat value =>
      if Qltb 1 value || Qle_bool value 0 then Raise ValueError
      else
        let extended_times := sampling_times self ++ [t_final self] in
        let len := Z.of_nat (length extended_times) in
        indices ← linspace_int 0 (len - 1) (py_int (value * inject_Z len));
        np_take extended_times indices
  | EvalArray value =>
      t_max ← np_max value;
      t_min ← np_min value;
      if Qltb (t_final self) t_max then Raise ValueError
      else if Qltb t_min 0 then Raise ValueError
      else
        let eval_times := np_sort value in
        let eval_times := if Qltb 0 t_min then 0%Q :: eval_times else eval_times in
        let eval_times := if Qltb t_max (t_final self)
                          then eval_times ++ [t_final self] else eval_times in
        Ok eval_times
  | EvalOther => Raise ValueError
  end.

(* ================================================================= *)
(** ** Operator algebra *)

Definition dim_of (bn : BasisName) : nat :=
  match bn with bn_all => 3 | _ => 2 end.

(** The labels of the basis states and the projectors that
    [_build_basis_and_op_matrices] lists for each basis. *)
Definition basis_labels (bn : BasisName) : list string :=
  match bn with
  | bn_XY => ["u"; "d"]
  | bn_ground_rydberg => ["r"; "g"]
  | bn_digital => ["g"; "h"]
  | bn_all => ["r"; "g"; "h"]
  end.

Definition projectors (bn : BasisName) : list (string * string) :=
  match bn with
  | bn_XY => [("u", "u"); ("d", "u"); ("u", "d"); ("d", "d")]
  | bn_ground_rydberg => [("g", "r"); ("r", "r"); ("g", "g")]
  | bn_digital => [("h", "g"); ("h", "h"); ("g", "g")]
  | bn_all => [("g", "r"); ("h", "g"); ("r", "r"); ("g", "g"); ("h", "h")]
  end.

(** [self.basis]: [{b: qutip.basis(self.dim, i) for i, b in enumerate(basis)}] *)
Definition basis_of (bn : BasisName) : gmap string Qobj :=
  list_to_map (imap (fun i b => (b, qbasis (dim_of bn) i)) (basis_labels bn)).

(** [self.op_matrix]: ["I"] and one ["sigma_ab"] per projector. *)
Definition op_matrix_of (bn : BasisName) : gmap string Qobj :=
  foldl (fun m (proj : string * string) =>
           match basis_of bn !! proj.1, basis_of bn !! proj.2 with
           | Some ka, Some kb =>
               <[("sigma_" +:+ proj.1 +:+ proj.2) := Qmul ka (dag kb)]> m
           | _, _ => m
           end)
        {["I" := qeye (dim_of bn)]} (projectors bn).

(** [self.dim], [self.basis], [self.op_matrix]: attribute errors before
    [_build_basis_and_op_matrices] has run. *)
Definition dim (self : Simulation) : Outcome nat :=
  match basis_name self with Some bn => Ok (dim_of bn) | None => Raise AttributeError end.
Definition basis_get (self : Simulation) (b : string) : Outcome Qobj :=
  match basis_name self with
  | Some bn => getitem (basis_of bn !! b)
  | None => Raise AttributeError
  end.
Definition op_matrix (self : Simulation) : Outcome (gmap string Qobj) :=
  match basis_name self with
  | Some bn => Ok (op_matrix_of bn)
  | None => Raise AttributeError
  end.

(** An operator given to [build_operator]: a key of [op_matrix] or a
    [Qobj]; its target: a list of qubits or ["global"]. *)
Inductive Operator :=
  | OpName (name : string)
  | OpQobj (q : Qobj).
Inductive Target :=
  | TGlobal
  | TQubits (qubits : list QubitId).

(** [op_list[k] = operator] for each qubit of [qubits], in order. *)
Fixpoint place_operator (self : Simulation) (operator : Qobj)
  (qubits : list QubitId) (op_list : list Qobj) : Outcome (list Qobj) :=
  match qubits with
  | [] => Ok op_list
  | qubit :: rest =>
      k ← getitem (_qid_index self qubit);
      place_operator self operator rest (<[k := operator]> op_list)
  end.

(** The [for operator, qubits in operations] loop of [build_operator], then
    its last line; [self_call] is [self.build_operator] at the call inside
    the loop. *)
Fixpoint build_operator_loop (self : Simulation)
  (self_call : list (Operator * Target) -> Outcome Qobj)
  (operations : list (Operator * Target)) (op_list : list Qobj) : Outcome Qobj :=
  match operations with
  | [] => Ok (tensor op_list)
  | (operator, TGlobal) :: _ =>
      terms ← mapM_ok (fun q_id => self_call [(operator, TQubits [q_id])])
                      (qids self);
      Ok (Qsum terms)
  | (operator, TQubits qubits) :: rest =>
      if bool_decide (NoDup qubits) then
        if forallb (fun q => bool_decide (q ∈ qids self)) qubits then
          operator ← match operator with
                     | OpName name =>
                         m ← op_matrix self;
                         match m !! name with
                         | Some op => Ok op
                         | None => Raise ValueError
                         end
                     | OpQobj q => Ok q
                     end;
          op_list ← place_operator self operator qubits op_list;
          build_operator_loop self self_call rest op_list
        else Raise ValueError
      else Raise ValueError
  end.

(** The depth at which Python gives up a recursion. *)
Definition recursion_limit : nat := 1000.

(** [build_operator], at a given remaining depth of recursion. *)
Fixpoint build_operator_at (depth : nat) (self : Simulation)
  (operations : list (Operator * Target)) : Outcome Qobj :=
  match depth with
  | O => Raise RecursionError
  | S depth' =>
      m ← op_matrix self;
      I ← getitem (m !! "I");
      build_operator_loop self (build_operator_at depth' self) operations
        (replicate (_size self) I)
  end.

Definition build_operator (self : Simulation)
  (operations : list (Operator * Target)) : Outcome Qobj :=
  build_operator_at recursion_limit self operations.

(* ================================================================= *)
(** ** Vectors of coordinates *)

Open Scope R_scope.

(** [a - b], [np.dot(a, b)] and [np.linalg.norm(a)] *)
Definition vec_sub (a b : list R) : list R := zip_with Rminus a b.
Definition vec_dot (a b : list R) : R := foldr Rplus 0 (zip_with Rmult a b).
Definition vec_norm (a : list R) : R := sqrt (vec_dot a a).

Close Scope R_scope.

Section WithExternal.
Context (E : External).

(* ================================================================= *)
(** ** Noise *)

(** [np.random.uniform(size=n)]: the next [n] draws of the uniform stream. *)
Definition random_uniform (n : nat) : Sim (list Q) :=
  fun s => (Ok ((fun k => uniform E (rng_pos s + k)) <$> seq 0 n),
            set_rng_pos (rng_pos s + n) s).

(** [np.random.normal(mu, sigma, size=n)] *)
Definition random_normal (mu sigma : R) (n : nat) : Sim (list R) :=
  fun s => (Ok ((fun k => (mu + sigma * std_normal E (rng_pos s + k))%R) <$> seq 0 n),
            set_rng_pos (rng_pos s + n) s).

(** [np.random.normal(mu, sigma)] *)
Definition random_normal1 (mu sigma : R) : Sim R :=
  fun s => (Ok (mu + sigma * std_normal E (rng_pos s))%R,
            set_rng_pos (rng_pos s + 1) s).

(** [_update_noise] *)
Definition _update_noise : Sim unit :=
  self <- sim_get ;;
  (if has_noise "SPAM" (config E self) && Qltb 0 (eta (config E self)) then
     dist <- random_uniform (length (qids self)) ;;
     sim_modify (set_bad_atoms
       (dict_zip (qids self)
                 ((fun u => Qltb u (eta (config E self))) <$> dist)))
   else sim_ret tt) ;;
  self <- sim_get ;;
  (if has_noise "doppler" (config E self) then
     detune <- random_normal 0 (doppler_sigma (config E self))
                 (length (qids self)) ;;
     sim_modify (set_doppler_detune (dict_zip (qids self) detune))
   else sim_ret tt).

(* ================================================================= *)
(** ** Sample extraction *)

Definition prepare_dict (self : Simulation) : SampleArrays :=
  mkSampleArrays (np_zeros (_tot_duration self)) (np_zeros (_tot_duration self))
                 (np_zeros (_tot_duration self)).

(** [qid[0]] on the tuple of extra arguments of [write_samples]. *)
Definition first_qid (qid : list QubitId) : Outcome QubitId :=
  match qid with q :: _ => Ok q | [] => Raise IndexError end.

(** [write_samples]: the coefficient set after the pulse of [slot] is added
    to it. *)
Definition write_samples (slot : TimeSlot) (_pulse : Pulse)
  (samples_dict : SampleArrays) (is_global_pulse : bool) (qid : list QubitId)
  : Sim SampleArrays :=
  self <- sim_get ;;
  noise_det <-
    (if has_noise "doppler" (config E self) then
       q <- sim_lift (first_qid qid) ;;
       d <- sim_lift (getitem (_doppler_detune self !! q)) ;;
       sim_ret (0 + d)%R
     else sim_ret 0%R) ;;
  noise_amp <-
    (if has_noise "amplitude" (config E self) && is_global_pulse then
       q <- sim_lift (first_qid qid) ;;
       position <- sim_lift (getitem (dict_get (_qdict self) q)) ;;
       let r := vec_norm position in
       let w0 := laser_waist (config E self) in
       z <- random_normal1 1 (1 / 1000) ;;
       sim_ret (z * exp (- ((r / w0) ^ 2)))%R
     else sim_ret 1%R) ;;
  sim_ret (mkSampleArrays
    (slice_add (ti slot) (tf slot)
       ((fun a => a * noise_amp)%R <$> amplitude _pulse) (amp samples_dict))
    (slice_add (ti slot) (tf slot)
       ((fun d => d + noise_det)%R <$> detuning _pulse) (det samples_dict))
    (slice_add_scalar (ti slot) (tf slot) (phase _pulse) (phase_arr samples_dict))).

(** [self.samples["Local"][basis]] and [self.samples["Global"][basis]], read
    and written. *)
Definition get_local (basis : Basis) : Sim (list (QubitId * SampleArrays)) :=
  self <- sim_get ;;
  if bool_decide (basis ∈ smp_keys (samples self))
  then sim_ret (smp_local (samples self) basis)
  else sim_raise KeyError.

Definition put_local (basis : Basis) (d : list (QubitId * SampleArrays)) : Sim unit :=
  sim_modify (fun s => set_samples
    (mkSamples (smp_keys (samples s)) (smp_global (samples s))
               (<[basis := d]> (smp_local (samples s)))) s).

Definition get_global (basis : Basis) : Sim (option SampleArrays) :=
  self <- sim_get ;;
  if bool_decide (basis ∈ smp_keys (samples self))
  then sim_ret (smp_global (samples self) basis)
  else sim_raise KeyError.

Definition put_global (basis : Basis) (d : option SampleArrays) : Sim unit :=
  sim_modify (fun s => set_samples
    (mkSamples (smp_keys (samples s)) (<[basis := d]> (smp_global (samples s)))
               (smp_local (samples s))) s).

(** The body of [for qubit in slot.targets]: the entry of the qubit is
    created if missing, and the pulse written to it unless [skip_bad] holds
    and the qubit is badly prepared. *)
Definition write_local_qubit (slot : TimeSlot) (_pulse : Pulse) (basis : Basis)
  (is_global : bool) (skip_bad : bool) (qubit : QubitId) : Sim unit :=
  samples_dict <- get_local basis ;;
  self <- sim_get ;;
  (if dict_has samples_dict qubit then sim_ret tt
   else put_local basis (dict_set samples_dict qubit (prepare_dict self))) ;;
  bad <- (if skip_bad then sim_lift (getitem (_bad_atoms self !! qubit))
          else sim_ret false) ;;
  if bad then sim_ret tt
  else
    samples_dict <- get_local basis ;;
    arr <- sim_lift (getitem (dict_get samples_dict qubit)) ;;
    arr' <- write_samples slot _pulse arr is_global [qubit] ;;
    put_local basis (dict_set samples_dict qubit arr').

(** [self._seq._slm_mask_time[1]] *)
Definition slm_mask_end (self : Simulation) : Outcome nat :=
  match _slm_mask_time (_seq self) !! 1 with
  | Some t => Ok t
  | None => Raise IndexError
  end.

(** The slots of a global channel in a coherent simulation; [slm_on] is the
    local variable of that name. *)
Fixpoint extract_coherent_global (basis : Basis) (slots : list TimeSlot)
  (slm_on : bool) : Sim unit :=
  match slots with
  | [] => sim_ret tt
  | slot :: rest =>
      match type_ slot with
      | IsPulse _pulse =>
          self <- sim_get ;;
          in_mask <- (if slm_on then
                        t1 <- sim_lift (slm_mask_end self) ;;
                        sim_ret (bool_decide (ti slot < t1))
                      else sim_ret false) ;;
          if in_mask then
            sim_for (targets slot)
              (write_local_qubit slot _pulse basis true false) ;;
            extract_coherent_global basis rest slm_on
          else
            samples_dict <- get_global basis ;;
            arr <- write_samples slot _pulse
                     (default (prepare_dict self) samples_dict) true [] ;;
            put_global basis (Some arr) ;;
            extract_coherent_global basis rest false
      | NotPulse => extract_coherent_global basis rest slm_on
      end
  end.

(** The slots of a channel when some noise makes every pulse local. *)
Definition extract_noisy (basis : Basis) (is_global : bool)
  (slots : list TimeSlot) : Sim unit :=
  get_local basis ;;
  sim_for slots (fun slot =>
    match type_ slot with
    | IsPulse _pulse =>
        sim_for (targets slot)
          (write_local_qubit slot _pulse basis is_global true)
    | NotPulse => sim_ret tt
    end).

(** The SLM mask on the local samples of a basis. *)
Definition apply_slm_mask (basis : Basis) : Sim unit :=
  self <- sim_get ;;
  if bool_decide (_slm_mask_targets (_seq self) <> [])
     && bool_decide (_slm_mask_time (_seq self) <> []) then
    tf <- sim_lift (slm_mask_end self) ;;
    sim_for (_slm_mask_targets (_seq self)) (fun qubit =>
      samples_dict <- get_local basis ;;
      arr <- sim_lift (getitem (dict_get samples_dict qubit)) ;;
      put_local basis (dict_set samples_dict qubit
        (mkSampleArrays (slice_zero tf (amp arr)) (slice_zero tf (det arr))
                        (slice_zero tf (phase_arr arr)))))
  else sim_ret tt.

Definition empty_samples (i : Interaction) : Samples :=
  mkSamples (match i with ising => [ground_rydberg; digital] | XY_mode => [XY] end)
            (fun _ => None) (fun _ => []).

Definition empty_operators : OperatorCache :=
  mkOperatorCache (fun _ => ∅) (fun _ => ∅).

(** [_extract_samples] *)
Definition _extract_samples : Sim unit :=
  self <- sim_get ;;
  sim_modify (set_samples (empty_samples (_interaction self))) ;;
  (if operators self is None
   then sim_modify (set_operators (Some empty_operators))
   else sim_ret tt) ;;
  sim_for (declared_channels (_seq self)) (fun channel =>
    let addr := addressing channel.2 in
    let basis := basis channel.2 in
    slots <- sim_lift (getitem (_schedule (_seq self) !! channel.1)) ;;
    (if bool_decide (addr = Global)
        && issubset (noise (config E self)) ["dephasing"] then
       extract_coherent_global basis slots
         (bool_decide (_slm_mask_targets (_seq self) <> []))
     else
       extract_noisy basis (bool_decide (addr = Global)) slots) ;;
    apply_slm_mask basis).

(* ================================================================= *)
(** ** Basis and Hamiltonian *)

(** [not self.samples["Global"][b] and not self.samples["Local"][b]] *)
Definition no_samples (self : Simulation) (b : Basis) : bool :=
  bool_decide (smp_global (samples self) b = None)
  && bool_decide (smp_local (samples self) b = []).

(** [_build_basis_and_op_matrices]: the basis name it chooses; [dim],
    [basis] and [op_matrix] follow from it ([dim_of], [basis_of],
    [op_matrix_of]). *)
Definition _build_basis_and_op_matrices : Sim unit :=
  self <- sim_get ;;
  sim_modify (set_basis_name (Some
    (if decide (_interaction self = XY_mode) then bn_XY
     else if no_samples self digital then bn_ground_rydberg
     else if no_samples self ground_rydberg then bn_digital
     else bn_all))).

(** [make_vdw_term] *)
Definition make_vdw_term (self : Simulation) (q1 q2 : QubitId) : Outcome Qobj :=
  p1 ← getitem (dict_get (_qdict self) q1);
  p2 ← getitem (dict_get (_qdict self) q2);
  let dist := vec_norm (vec_sub p1 p2) in
  let U := (1 / 2 * interaction_coeff (_seq self) / dist ^ 6)%R in
  op ← build_operator self [(OpName "sigma_rr", TQubits [q1; q2])];
  Ok (Qscale (RtoC U) op).

(** [make_xy_term] *)
Definition make_xy_term (self : Simulation) (q1 q2 : QubitId) : Outcome Qobj :=
  p1 ← getitem (dict_get (_qdict self) q1);
  p2 ← getitem (dict_get (_qdict self) q2);
  let dist := vec_norm (vec_sub p1 p2) in
  let coords_dim := length p1 in
  let mag := take coords_dim (magnetic_field (_seq self)) in
  let mag_norm := vec_norm mag in
  let cosine := if Rlt_dec mag_norm (1 / 100000000) then 0%R
                else (vec_dot (vec_sub p1 p2) mag / (dist * mag_norm))%R in
  let U := (1 / 2 * interaction_coeff_xy (_seq self)
            * (1 - 3 * cosine ^ 2) / dist ^ 3)%R in
  op ← build_operator self
         [(OpName "sigma_du", TQubits [q1]); (OpName "sigma_ud", TQubits [q2])];
  Ok (Qscale (RtoC U) op).

(** [itertools.combinations(l, r=2)] *)
Fixpoint combinations2 {A} (l : list A) : list (A * A) :=
  match l with
  | [] => []
  | a :: l' => ((fun b => (a, b)) <$> l') ++ combinations2 l'
  end.

(** [sum(self._bad_atoms.values())] *)
Definition sum_bad (bad : gmap QubitId bool) : Z :=
  Z.of_nat (length (filter (fun kv => kv.2 = true) (map_to_list bad))).

(** [0 * self.build_operator([("I", "global")])] *)
Definition zero_operator (self : Simulation) : Outcome Qobj :=
  op ← build_operator self [(OpName "I", TGlobal)];
  Ok (Qscale C0 op).

(** The test of [make_interaction_term] that skips a pair. *)
Definition skip_pair (self : Simulation) (masked : bool) (q1 q2 : QubitId)
  : Outcome bool :=
  b1 ← getitem (_bad_atoms self !! q1);
  if b1 : bool then Ok true
  else
    b2 ← getitem (_bad_atoms self !! q2);
    if b2 : bool then Ok true
    else Ok (masked && (bool_decide (q1 ∈ _slm_mask_targets (_seq self))
                        || bool_decide (q2 ∈ _slm_mask_targets (_seq self)))).

(** [make_interaction_term] *)
Definition make_interaction_term (self : Simulation) (masked : bool)
  : Outcome Qobj :=
  let pairs_term :=
    terms ← foldM (fun terms (q : QubitId * QubitId) =>
                     skip ← skip_pair self masked q.1 q.2;
                     if skip : bool then Ok terms
                     else
                       term ← (if decide (_interaction self = XY_mode)
                               then make_xy_term self q.1 q.2
                               else make_vdw_term self q.1 q.2);
                       Ok (terms ++ [term]))
                  (combinations2 (qids self)) [];
    Ok (Qsum terms) in
  if masked then
    effective_size ←
      foldM (fun (n : Z) q =>
               b ← getitem (_bad_atoms self !! q);
               Ok (if b : bool then n else (n - 1)%Z))
            (_slm_mask_targets (_seq self))
            (Z.of_nat (_size self) - sum_bad (_bad_atoms self))%Z;
    if (effective_size <? 2)%Z then zero_operator self else pairs_term
  else pairs_term.

(** The operator names of a basis in [build_coeffs_ops]. *)
Definition op_ids (basis : Basis) : list string :=
  match basis with
  | ground_rydberg => ["sigma_gr"; "sigma_rr"]
  | digital => ["sigma_hg"; "sigma_gg"]
  | XY => ["sigma_du"; "sigma_dd"]
  end.

(** [[0.5 * amp * np.exp(-1j * phase), -0.5 * det]] *)
Definition coeffs_of (s : SampleArrays) : list (list C) :=
  [ zip_with (fun a ph => Cmul (Cmul (RtoC (1 / 2)) (RtoC a)) (Cexp_mi ph))
             (amp s) (phase_arr s);
    (fun d => RtoC (- (1 / 2) * d)) <$> det s ].

Definition the_operators (self : Simulation) : Outcome OperatorCache :=
  match operators self with Some c => Ok c | None => Raise AttributeError end.

(** One turn of [for op_id, coeff in zip(op_ids, coeffs)] for a global
    entry: the term it appends, if any. *)
Definition global_term (basis : Basis) (op_id : string) (coeff : list C)
  : Sim (list EvoElem) :=
  if np_any_nonzero coeff then
    self <- sim_get ;;
    cache <- sim_lift (the_operators self) ;;
    op <- match ops_global cache basis !! op_id with
          | Some op => sim_ret op
          | None =>
              op <- sim_lift (build_operator self [(OpName op_id, TGlobal)]) ;;
              sim_modify (set_operators (Some
                (mkOperatorCache
                   (<[basis := <[op_id := op]> (ops_global cache basis)]>
                      (ops_global cache))
                   (ops_local cache)))) ;;
              sim_ret op
          end ;;
    c <- sim_lift (_adapt_to_sampling_rate self coeff) ;;
    sim_ret [EvoArr op c]
  else sim_ret [].

(** The same for the entry of a qubit. *)
Definition local_term (basis : Basis) (q_id : QubitId) (op_id : string)
  (coeff : list C) : Sim (list EvoElem) :=
  if np_any_nonzero coeff then
    self <- sim_get ;;
    cache <- sim_lift (the_operators self) ;;
    let of_q := default ∅ (ops_local cache basis !! q_id) in
    op <- match of_q !! op_id with
          | Some op => sim_ret op
          | None =>
              op <- sim_lift (build_operator self
                                [(OpName op_id, TQubits [q_id])]) ;;
              sim_modify (set_operators (Some
                (mkOperatorCache (ops_global cache)
                   (<[basis := <[q_id := <[op_id := op]> of_q]>
                                 (ops_local cache basis)]>
                      (ops_local cache))))) ;;
              sim_ret op
          end ;;
    c <- sim_lift (_adapt_to_sampling_rate self coeff) ;;
    sim_ret [EvoArr op c]
  else sim_ret [].

(** A loop that appends what each turn returns. *)
Fixpoint sim_concat {A B} (l : list A) (body : A -> Sim (list B)) : Sim (list B) :=
  match l with
  | [] => sim_ret []
  | a :: l' =>
      x <- body a ;;
      xs <- sim_concat l' body ;;
      sim_ret (x ++ xs)
  end.

(** [build_coeffs_ops] *)
Definition build_coeffs_ops (basis : Basis) (addr : Addressing)
  : Sim (list EvoElem) :=
  self <- sim_get ;;
  _ <- sim_lift (the_operators self) ;;
  match addr with
  | Global =>
      match smp_global (samples self) basis with
      | Some s =>
          sim_concat (zip (op_ids basis) (coeffs_of s))
            (fun oc => global_term basis oc.1 oc.2)
      | None => sim_raise KeyError
      end
  | Local =>
      sim_concat (smp_local (samples self) basis) (fun qs =>
        sim_modify (fun s =>
          match operators s with
          | Some cache =>
              if ops_local cache basis !! qs.1 is None then
                set_operators (Some (mkOperatorCache (ops_global cache)
                  (<[basis := <[qs.1 := ∅]> (ops_local cache basis)]>
                     (ops_local cache)))) s
              else s
          | None => s
          end) ;;
        sim_concat (zip (coeffs_of qs.2) (op_ids basis))
          (fun co => local_term basis qs.1 co.2 co.1))
  end.

(** [np.ones(D)] with [coeff[0:t1] = 0], and its [np.logical_not]. *)
Definition mask_coeff (D t1 : nat) : list C :=
  (fun t => if bool_decide (t < t1) then C0 else C1) <$> seq 0 D.
Definition mask_coeff_not (D t1 : nat) : list C :=
  (fun t => if bool_decide (t < t1) then C1 else C0) <$> seq 0 D.

(** The interaction part of [qobj_list]. *)
Definition interaction_terms (self : Simulation) : Outcome (list EvoElem) :=
  let effective_size :=
    (Z.of_nat (_size self) - sum_bad (_bad_atoms self))%Z in
  if negb (bool_decide (basis_name self = Some bn_digital))
     && (1 <? effective_size)%Z then
    if bool_decide (_slm_mask_time (_seq self) <> []) then
      t1 ← slm_mask_end self;
      unmasked ← make_interaction_term self false;
      c1 ← _adapt_to_sampling_rate self (mask_coeff (_tot_duration self) t1);
      masked ← make_interaction_term self true;
      c2 ← _adapt_to_sampling_rate self (mask_coeff_not (_tot_duration self) t1);
      Ok [EvoArr unmasked c1; EvoArr masked c2]
    else
      term ← make_interaction_term self false;
      Ok [EvoCte term]
  else Ok [].

(** [self.samples[addr][basis]] is not empty. *)
Definition has_samples (self : Simulation) (addr : Addressing) (b : Basis) : bool :=
  match addr with
  | Global => negb (bool_decide (smp_global (samples self) b = None))
  | Local => negb (bool_decide (smp_local (samples self) b = []))
  end.

(** The loop of [_construct_hamiltonian] over [self.samples]: the driving
    terms. *)
Definition drive_terms : Sim (list EvoElem) :=
  self <- sim_get ;;
  sim_concat [Global; Local] (fun addr =>
    sim_concat (smp_keys (samples self)) (fun basis =>
      if has_samples self addr basis
      then build_coeffs_ops basis addr
      else sim_ret [])).

(** [_construct_hamiltonian] from [qobj_list = []] to its end: the terms are
    listed, summed with their adjoint and stored. *)
Definition assemble_hamiltonian : Sim unit :=
  self <- sim_get ;;
  qobj_list <- sim_lift (interaction_terms self) ;;
  drive <- drive_terms ;;
  let qobj_list := qobj_list ++ drive in
  self <- sim_get ;;
  qobj_list <- (if qobj_list is [] then
                  z <- sim_lift (zero_operator self) ;;
                  sim_ret [EvoCte z]
                else sim_ret qobj_list) ;;
  let ham := QobjEvo_of qobj_list (sampling_times self) in
  ham <- sim_lift (evo_add ham (evo_dag ham)) ;;
  sim_modify (set_hamiltonian (Some (compress ham))).

(** [_construct_hamiltonian] *)
Definition _construct_hamiltonian (update_and_extract : bool) : Sim unit :=
  sim_modify (log_event (EvConstruct update_and_extract)) ;;
  (if update_and_extract then _update_noise ;; _extract_samples
   else sim_ret tt) ;;
  (self <- sim_get ;;
   if basis_name self is None then _build_basis_and_op_matrices
   else sim_ret tt) ;;
  assemble_hamiltonian.

(* ================================================================= *)
(** ** Configuration *)

(** [{qid: v for qid in self._qid_index}] *)
Definition dict_const {V} (self : Simulation) (v : V) : gmap QubitId V :=
  dict_zip (qids self) (replicate (length (qids self)) v).

(** The collapse operators of the dephasing channel, as [set_config]
    builds them. *)
Definition dephasing_collapse_ops (self : Simulation) : Outcome (list Qobj) :=
  let prob := (dephasing_prob (config E self) / 2)%R in
  let n := _size self in
  let k := sqrt (prob * (1 - prob) ^ (n - 1)) in
  m ← op_matrix self;
  I ← getitem (m !! "I");
  rest ← mapM_ok (fun qid =>
            rr ← build_operator self [(OpName "sigma_rr", TQubits [qid])];
            gg ← build_operator self [(OpName "sigma_gg", TQubits [qid])];
            Ok (Qscale (RtoC k) (Qsub rr gg)))
          (qids self);
  Ok (Qscale (RtoC (sqrt ((1 - prob) ^ n))) (tensor (replicate n I)) :: rest).

(** The assignments of [set_config] before it rebuilds the Hamiltonian:
    the configuration, and the neutral noise state for the noises that are
    off. *)
Definition install_config (cfg : SimConfig) : Sim unit :=
  self <- sim_get ;;
  sim_modify (set__config (Some cfg)) ;;
  (if negb (has_noise "SPAM" cfg && Qltb 0 (eta cfg))
   then sim_modify (set_bad_atoms (dict_const self false))
   else sim_ret tt) ;;
  (if negb (has_noise "doppler" cfg)
   then sim_modify (set_doppler_detune (dict_const self 0%R))
   else sim_ret tt).

(** [set_config], at a given remaining depth of recursion. *)
Fixpoint set_config_at (depth : nat) (cfg : SimConfig) : Sim unit :=
  match depth with
  | O => sim_raise RecursionError
  | S depth' =>
      self <- sim_get ;;
      if negb (issubset (noise cfg) (SUPPORTED_NOISE (_interaction self)))
      then sim_raise NotImplementedError
      else
        let prev_config := config E self in
        install_config cfg ;;
        _construct_hamiltonian true ;;
        if has_noise "dephasing" cfg then
          self <- sim_get ;;
          if bool_decide (basis_name self = Some bn_digital)
             || bool_decide (basis_name self = Some bn_all) then
            set_config_at depth' prev_config ;;
            sim_raise NotImplementedError
          else
            ops <- sim_lift (dephasing_collapse_ops self) ;;
            sim_modify (set_collapse_ops ops)
        else sim_ret tt
  end.

Definition set_config (cfg : SimConfig) : Sim unit :=
  set_config_at recursion_limit cfg.

(* ================================================================= *)
(** ** Initial state *)

(** What the setter of [initial_state] accepts: ["all-ground"], or an array
    or [Qobj]. *)
Inductive InitialStateSpec :=
  | AllGround
  | StateArray (state : Qobj).

(** [qutip.tensor([self.basis[b] for _ in range(self._size)])] *)
Definition all_in_state (self : Simulation) (b : string) : Outcome Qobj :=
  kets ← mapM_ok (fun _ => basis_get self b) (seq 0 (_size self));
  Ok (tensor kets).

(** [qutip.Qobj(state, dims=[[dim] * size, [1] * size])]: the dimensions
    are those of a ket of [size] atoms, and QuTiP refuses them for data that
    is not one column of [dim ** size] entries. *)
Definition Qobj_with_dims (state : Qobj) (d size : nat) : Outcome Qobj :=
  if bool_decide (shape state = (d ^ size, 1)) then Ok state
  else Raise (Qobj_dims_error E).

(** The setter of [initial_state]. *)
Definition initial_state_setter (state : InitialStateSpec) : Sim unit :=
  self <- sim_get ;;
  match state with
  | AllGround =>
      st <- sim_lift (all_in_state self
              (if decide (_interaction self = XY_mode) then "d" else "g")) ;;
      sim_modify (set_initial_state st)
  | StateArray state =>
      d <- sim_lift (dim self) ;;
      if bool_decide ((shape state).1 = d ^ _size self)
      then
        st <- sim_lift (Qobj_with_dims state d (_size self)) ;;
        sim_modify (set_initial_state st)
      else sim_raise ValueError
  end.

(* ================================================================= *)
(** ** Running the simulation *)

(** The variables of [run] that its inner function [_run_solver] reads. *)
Record RunFrame := mkRunFrame {
  progress_bar : ProgressBar;
  solv_ops : SolverOptions;
  meas_errors : option (Q * Q) }.

(** [p_bar] in [_run_solver]: [True], or [None] (here [false]). *)
Definition p_bar_of (progress_bar : ProgressBar) : Outcome bool :=
  match progress_bar with
  | PbTrue => Ok true
  | PbFalse | PbNone => Ok false
  | PbOther => Raise ValueError
  end.

(** [_run_solver]: one call of [mesolve] or [sesolve]. *)
Definition _run_solver (frame : RunFrame) : Sim CoherentResults :=
  p_bar <- sim_lift (p_bar_of (progress_bar frame)) ;;
  self <- sim_get ;;
  ham <- sim_lift (match _hamiltonian self with
                   | Some h => Ok h
                   | None => Raise AttributeError
                   end) ;;
  let dephasing := has_noise "dephasing" (config E self) in
  let states :=
    if dephasing
    then mesolve E ham (_collapse_ops self) (_initial_state self)
                 (_eval_times_array self) p_bar (solv_ops frame)
    else sesolve E ham (_initial_state self) (_eval_times_array self)
                 p_bar (solv_ops frame) in
  sim_modify (log_event (EvSolve
    (mkSolverCall dephasing ham (_collapse_ops self) (_initial_state self)
                  (_eval_times_array self) (_bad_atoms self)
                  p_bar (solv_ops frame)))) ;;
  sim_ret (mkCoherentResults states (_size self) (basis_name self)
             (_eval_times_array self) (_meas_basis self) (meas_errors frame)).

(** A bad-atom configuration: the bitstring of the preparation failures,
    in the order of the qubits. *)
Definition Bitstring := list bool.

(** [Counter(iterable)]: the keys in the order of their first occurrence,
    with their counts. *)
Fixpoint counter_incr (k : Bitstring) (c : list (Bitstring * nat))
  : list (Bitstring * nat) :=
  match c with
  | [] => [(k, 1)]
  | (k', n) :: c' =>
      if decide (k = k') then (k', S n) :: c' else (k', n) :: counter_incr k c'
  end.
Definition counter_of (l : list Bitstring) : list (Bitstring * nat) :=
  foldl (fun c k => counter_incr k c) [] l.

(** [c.most_common()]: by decreasing count, ties in the order of [c]. *)
Fixpoint insert_by_count (x : Bitstring * nat) (l : list (Bitstring * nat))
  : list (Bitstring * nat) :=
  match l with
  | [] => [x]
  | y :: l' => if y.2 <=? x.2 then x :: y :: l' else y :: insert_by_count x l'
  end.
Definition most_common (c : list (Bitstring * nat)) : list (Bitstring * nat) :=
  foldr insert_by_count [] c.

(** [cleanres_noisyseq.sample_state(t, n_samples)] *)
Definition sample (res : CoherentResults) (t : Q) (n_samples : nat) : Sim Counter :=
  fun s => (Ok (sample_state E res t n_samples (rng_pos s)),
            set_rng_pos (rng_pos s + 1) s).

(** [[f(x) for x in l]] where [f] is a method. *)
Fixpoint sim_map {A B} (l : list A) (f : A -> Sim B) : Sim (list B) :=
  match l with
  | [] => sim_ret []
  | a :: l' =>
      b <- f a ;;
      bs <- sim_map l' f ;;
      sim_ret (b :: bs)
  end.

(** One turn of the loop of [run]: [item] is [initial_configs[i]] when the
    Hamiltonian is not updated, and nothing otherwise. *)
Definition run_iteration (frame : RunFrame)
  (total_count : list Counter) (item : option (Bitstring * nat))
  : Sim (list Counter) :=
  reps <- match item with
          | Some (initial_state, reps) =>
              self <- sim_get ;;
              sim_modify (set_bad_atoms (dict_zip (qids self) initial_state)) ;;
              sim_ret reps
          | None => sim_ret 1
          end ;;
  _construct_hamiltonian (bool_decide (item = None)) ;;
  cleanres_noisyseq <- _run_solver frame ;;
  self <- sim_get ;;
  counts <- sim_map (_eval_times_array self) (fun t =>
              sample cleanres_noisyseq t
                (samples_per_run (config E self) * reps)) ;;
  sim_ret (zip_with (fun a b : Counter => a ⊎ b) total_count counts).

Fixpoint run_loop (frame : RunFrame)
  (items : list (option (Bitstring * nat))) (total_count : list Counter)
  : Sim (list Counter) :=
  match items with
  | [] => sim_ret total_count
  | item :: rest =>
      total_count <- run_iteration frame total_count item ;;
      run_loop frame rest total_count
  end.

(** [Counter({k: v / n_measures for k, v in c.items()})] *)
Definition normalize (n_measures : nat) (c : Counter)
  : Outcome (list (string * Q)) :=
  if bool_decide (n_measures = 0) && negb (bool_decide (elements (dom c) = []))
  then Raise ZeroDivisionError
  else Ok ((fun k => (k, (inject_Z (Z.of_nat (multiplicity k c))
                          / inject_Z (Z.of_nat n_measures))%Q))
           <$> elements (dom c)).

(** The check of [run] on the preparation errors: the measurement errors
    it returns go to the results. *)
Definition spam_guard : Sim (option (Q * Q)) :=
  self <- sim_get ;;
  if has_noise "SPAM" (config E self) then
    (if Qltb 0 (eta (config E self)) then
       ground <- sim_lift (all_in_state self "g") ;;
       if Qobj_ne E (_initial_state self) ground
       then sim_raise NotImplementedError
       else sim_ret tt
     else sim_ret tt) ;;
    sim_ret (Some (epsilon (config E self), epsilon_prime (config E self)))
  else sim_ret None.

(** The first lines of [run]: the options of the solver.  Without
    [max_step] among [options], the shortest pulse duration is asked of the
    sequence; [qutip.Options] may refuse the keyword arguments. *)
Definition solver_options (options : gmap string Q) : Sim SolverOptions :=
  solv_ops <-
    (if bool_decide (is_Some (options !! "max_step")) then
       sim_ret (OptionsGiven options)
     else
       self <- sim_get ;;
       d <- sim_lift (_min_pulse_duration (_seq self)) ;;
       sim_ret (OptionsAuto d options)) ;;
  match Options_error E solv_ops with
  | Some e => sim_raise e
  | None => sim_ret solv_ops
  end.

(** [run] *)
Definition run (progress_bar : ProgressBar) (options : gmap string Q)
  : Sim SimulationResults :=
  solv_ops <- solver_options options ;;
  meas_errors <- spam_guard ;;
  let frame := mkRunFrame progress_bar solv_ops meas_errors in
  self <- sim_get ;;
  let cfg := config E self in
  items <-
    (if issubset (noise cfg) ["dephasing"; "SPAM"] then
       if negb (has_noise "SPAM" cfg) || Qeq_bool (eta cfg) 0 then
         sim_ret None
       else
         draws <- sim_map (seq 0 (runs cfg)) (fun _ =>
                    u <- random_uniform (length (qids self)) ;;
                    sim_ret ((fun x => Qltb x (eta cfg)) <$> u)) ;;
         sim_ret (Some (Some <$> most_common (counter_of draws)))
     else sim_ret (Some (replicate (runs cfg) None))) ;;
  match items with
  | None =>
      res <- _run_solver frame ;;
      sim_ret (Coherent res)
  | Some items =>
      total_count <- run_loop frame items
                       (replicate (length (_eval_times_array self)) ∅) ;;
      let n_measures := runs cfg * samples_per_run cfg in
      total_run_prob <- sim_lift (mapM_ok (normalize n_measures) total_count) ;;
      self <- sim_get ;;
      sim_ret (Noisy (mkNoisyResults total_run_prob (_size self)
                        (basis_name self) (_eval_times_array self) n_measures))
  end.

(* ================================================================= *)
(** ** Construction *)

(** The object before [__init__] has set any attribute. *)
Definition blank (sequence : Sequence) (sampling_rate : Q) (rng0 : nat)
  : Simulation :=
  mkSimulation sequence sampling_rate [] [] None ∅ ∅
    (mkSamples [] (fun _ => None) (fun _ => [])) None None [] None
    bn_ground_rydberg py_zero rng0 [].

(** [sequence._schedule[x][-1].tf == 0] *)
Definition last_tf_is_zero (sequence : Sequence) (x : string) : Outcome bool :=
  slots ← getitem (_schedule sequence !! x);
  match list.last slots with
  | Some slot => Ok (bool_decide (tf slot = 0))
  | None => Raise IndexError
  end.

(** [all(f(x) for x in l)] where [f] may raise. *)
Fixpoint all_ok {A} (f : A -> Outcome bool) (l : list A) : Outcome bool :=
  match l with
  | [] => Ok true
  | a :: l' => b ← f a; if b : bool then all_ok f l' else Ok false
  end.

(** The first part of [__init__]: the checks on the sequence and on the
    sampling rate, then [sampling_times].  The product of the second check
    is exact here, and a product of doubles in the code: the two can fall
    on either side of 4 when the exact product is within rounding of it. *)
Definition init_sampling : Sim unit :=
  self <- sim_get ;;
  if bool_decide (_schedule (_seq self) = ∅) then sim_raise ValueError
  else
    idle <- sim_lift (all_ok (last_tf_is_zero (_seq self))
                             (declared_channels (_seq self)).*1) ;;
    if idle : bool then sim_raise ValueError
    else if negb (Qltb 0 (_sampling_rate self) && Qle_bool (_sampling_rate self) 1)
    then sim_raise ValueError
    else if (py_int (inject_Z (Z.of_nat (_tot_duration self))
                     * _sampling_rate self)%Q <? 4)%Z
    then sim_raise ValueError
    else
      times <- sim_lift (_adapt_to_sampling_rate self
                 ((fun t => (inject_Z t / 1000)%Q) <$>
                    arange (Z.of_nat (_tot_duration self)))) ;;
      sim_modify (set_sampling_times times).

(** [__init__]: the outcome and the object it leaves. *)
Definition __init__ (sequence : Sequence) (sampling_rate : Q)
  (config : option SimConfig) (evaluation_times : EvalTimesSpec) (rng0 : nat)
  : Outcome unit * Simulation :=
  (init_sampling ;;
   self <- sim_get ;;
   times <- sim_lift (evaluation_times_setter self evaluation_times) ;;
   sim_modify (set_eval_times_array times) ;;
   set_config (default (SimConfig_default E) config) ;;
   self <- sim_get ;;
   sim_modify (set_meas_basis
     match _measurement (_seq self) with
     | Some m => m
     | None =>
         match basis_name self with
         | Some bn_digital | Some bn_all => bn_digital
         | Some bn => bn
         | None => bn_ground_rydberg
         end
     end) ;;
   initial_state_setter AllGround)
  (blank sequence sampling_rate rng0).

End WithExternal.

(* ================================================================= *)
(** ** Examples *)

(** Collaborators for the examples: all draws are 0, the solvers return the
    initial state at every time, every sample is the bitstring of zeros, two
    objects differ when their shapes do, and no options are refused. *)
Definition example_config : SimConfig :=
  mkSimConfig [] 15 5 (5 # 1000) (1 # 100) (5 # 100) 175 (1 / 10) (5 / 100).

Definition example_external : External :=
  mkExternal (fun _ => 0%Q) (fun _ => 0%R) example_config
    (fun _ psi times _ _ => (fun _ => psi) <$> times)
    (fun _ _ psi times _ _ => (fun _ => psi) <$> times)
    (fun _ _ n _ => list_to_set_disj (replicate n "00"))
    (fun a b => negb (bool_decide (shape a = shape b)))
    (fun _ => None) ValueError.

(** Two atoms 10 um apart and one global Rydberg channel that only waits,
    for 1000 ns: without a pulse, [_min_pulse_duration()] raises. *)
Definition example_sequence (in_xy : bool) : Sequence :=
  mkSequence [("q0", [0%R; 0%R]); ("q1", [10%R; 0%R])]
    [("ch0", mkChannel Global (if in_xy then XY else ground_rydberg))]
    {["ch0" := [mkTimeSlot NotPulse 0 1000 ["q0"; "q1"]]]}
    in_xy [] [] 5008713 3700 [0%R; 0%R; 30%R] None 1000 (Raise ValueError).

(** The simulation of the waiting sequence, with every sample kept. *)
Definition example_simulation : Simulation :=
  (__init__ example_external (example_sequence false) 1 None
     (EvalStr "Full") 0).2.

(** Options of the solver that give [max_step]. *)
Definition example_options : gmap string Q := {["max_step" := (1 # 100)%Q]}.

(** The same collaborators, with a [!=] that also tells apart two objects
    of one shape that differ in some entry. *)
Definition Qobj_differ (a b : Qobj) : bool :=
  negb (bool_decide (shape a = shape b))
  || existsb (fun i =>
       existsb (fun j => if Ceq_dec (data a i j) (data b i j)
                         then false else true)
               (seq 0 (shape a).2))
       (seq 0 (shape a).1).

Definition example_exact_external : External :=
  mkExternal (uniform example_external) (std_normal example_external)
    example_config (sesolve example_external) (mesolve example_external)
    (sample_state example_external) Qobj_differ
    (Options_error example_external) (Qobj_dims_error example_external).

(** The same with SPAM noise, preparation errors of probability 0.3, and the
    ket of both atoms in the Rydberg state as initial state. *)
Definition example_spam_config : SimConfig :=
  mkSimConfig ["SPAM"] 15 5 (3 # 10) (1 # 100) (5 # 100) 175 (1 / 10) (5 / 100).

Definition example_rydberg_state : Qobj := qbasis 4 0.

Definition example_spam_simulation : Simulation :=
  (initial_state_setter example_external (StateArray example_rydberg_state)
     (__init__ example_external (example_sequence false) 1
        (Some example_spam_config) (EvalStr "Full") 0).2).2.

(** The same with SPAM noise and every preparation failing. *)
Definition example_bad_config : SimConfig :=
  mkSimConfig ["SPAM"] 15 5 1 (1 # 100) (5 # 100) 175 (1 / 10) (5 / 100).

Definition example_bad_simulation : Simulation :=
  (__init__ example_external (example_sequence false) 1
     (Some example_bad_config) (EvalStr "Full") 0).2.

(** Dephasing noise, and the waiting sequence once the digital basis has
    been chosen for it. *)
Definition example_dephasing_config : SimConfig :=
  mkSimConfig ["dephasing"] 15 5 (5 # 1000) (1 # 100) (5 # 100) 175 (1 / 10)
    (5 / 100).

Definition example_digital_simulation : Simulation :=
  set_basis_name (Some bn_digital) example_simulation.

(** The waiting sequence with SPAM noise, preparation errors of probability
    0.3, results asked for at the initial and final times only. *)
Definition example_noisy_simulation : Simulation :=
  (__init__ example_external (example_sequence false) 1
     (Some example_spam_config) (EvalStr "Minimal") 0).2.

(** The same sequence in the XY mode, with the SPAM noise. *)
Definition example_xy_simulation : Simulation :=
  (__init__ example_external (example_sequence true) 1
     (Some example_spam_config) (EvalStr "Minimal") 0).2.

(** Two pulses of 8 ns on the global Rydberg channel, with an SLM mask on
    [q1] during the first one. *)
Definition example_masked_sequence : Sequence :=
  mkSequence [("q0", [0%R; 0%R]); ("q1", [10%R; 0%R])]
    [("ch0", mkChannel Global ground_rydberg)]
    {["ch0" := [mkTimeSlot (IsPulse (mkPulse (replicate 8 1%R)
                                             (replicate 8 0%R) 0%R))
                           0 8 ["q0"; "q1"];
                mkTimeSlot (IsPulse (mkPulse (replicate 8 2%R)
                                             (replicate 8 0%R) 0%R))
                           8 16 ["q0"; "q1"]]]}
    false ["q1"] [0; 8] 5008713 3700 [0%R; 0%R; 30%R] None 16 (Ok 8).

(** The object of that sequence when [set_config] extracts its samples
    for the first time, in [__init__]. *)
Definition example_masked_simulation : Simulation :=
  set__config (Some example_config) (blank example_masked_sequence 1 0).

(** The same pulses and mask, with a local Raman channel that only ever
    addresses [q0]. *)
Definition example_raman_sequence : Sequence :=
  mkSequence [("q0", [0%R; 0%R]); ("q1", [10%R; 0%R])]
    [("ch0", mkChannel Global ground_rydberg); ("ch1", mkChannel Local digital)]
    {["ch0" := [mkTimeSlot (IsPulse (mkPulse (replicate 8 1%R)
                                             (replicate 8 0%R) 0%R))
                           0 8 ["q0"; "q1"];
                mkTimeSlot (IsPulse (mkPulse (replicate 8 2%R)
                                             (replicate 8 0%R) 0%R))
                           8 16 ["q0"; "q1"]];
      "ch1" := [mkTimeSlot NotPulse 0 0 ["q0"];
                mkTimeSlot (IsPulse (mkPulse (replicate 8 1%R)
                                             (replicate 8 0%R) 0%R))
                           0 8 ["q0"]]]}
    false ["q1"] [0; 8] 5008713 3700 [0%R; 0%R; 30%R] None 16 (Ok 8).

Definition example_raman_simulation : Simulation :=
  set__config (Some example_config) (blank example_raman_sequence 1 0).

(** The two global pulses and a Raman pulse on [q0], without mask, once
    [set_config] has stored the configuration and the neutral noise. *)
Definition example_pulse_sequence : Sequence :=
  mkSequence [("q0", [0%R; 0%R]); ("q1", [10%R; 0%R])]
    [("ch0", mkChannel Global ground_rydberg); ("ch1", mkChannel Local digital)]
    {["ch0" := [mkTimeSlot (IsPulse (mkPulse (replicate 8 1%R)
                                             (replicate 8 0%R) 0%R))
                           0 8 ["q0"; "q1"];
                mkTimeSlot (IsPulse (mkPulse (replicate 8 2%R)
                                             (replicate 8 0%R) 0%R))
                           8 16 ["q0"; "q1"]];
      "ch1" := [mkTimeSlot NotPulse 0 0 ["q0"];
                mkTimeSlot (IsPulse (mkPulse (replicate 8 1%R)
                                             (replicate 8 0%R) 0%R))
                           0 8 ["q0"]]]}
    false [] [] 5008713 3700 [0%R; 0%R; 30%R] None 16 (Ok 8).

Definition example_pulse_simulation : Simulation :=
  (install_config example_config
     (blank example_pulse_sequence 1 0)).2.

(* ================================================================= *)
(** * Properties *)

(** ** The two monads *)

Lemma mapM_ok_fmap {A B} (f : A -> Outcome B) (g : A -> B) (l : list A) :
  (forall a, a ∈ l -> f a = Ok (g a)) -> mapM_ok f l = Ok (g <$> l).
Proof.
  induction l as [|a l IH]; intros H; simpl; [done|].
  rewrite H by left. simpl. rewrite IH; [done|].
  intros b Hb. apply H. by right.
Qed.

Lemma mapM_ok_fmap_in {A A' B} (f : A' -> Outcome B) (h : A -> A')
  (g : A -> B) (l : list A) :
  (forall a, a ∈ l -> f (h a) = Ok (g a)) ->
  mapM_ok f (h <$> l) = Ok (g <$> l).
Proof.
  induction l as [|a l IH]; intros H; csimpl; [done|].
  rewrite H by left. csimpl. rewrite IH; [done|].
  intros b Hb. apply H. by right.
Qed.

Lemma mapM_ok_length {A B} (f : A -> Outcome B) (l : list A) (r : list B) :
  mapM_ok f l = Ok r -> length r = length l.
Proof.
  revert r. induction l as [|a l IH]; intros r; simpl.
  - by intros [= <-].
  - destruct (f a); simpl; [|done].
    destruct (mapM_ok f l) as [bs|]; simpl; [|done].
    intros [= <-]. simpl. f_equal. by apply IH.
Qed.

(* ================================================================= *)
(** ** numpy: [linspace] and indexing *)

Lemma arange_length (n : Z) : length (arange n) = Z.to_nat n.
Proof. unfold arange. by rewrite length_fmap, length_seq. Qed.

Lemma arange_lookup (n : Z) (i : nat) :
  (i < Z.to_nat n)%nat -> arange n !! i = Some (Z.of_nat i).
Proof.
  intros Hi. unfold arange. rewrite list_lookup_fmap, lookup_seq_lt by done.
  done.
Qed.

Lemma elem_of_arange (n i : Z) : i ∈ arange n <-> (0 <= i < n)%Z.
Proof.
  unfold arange. rewrite list_elem_of_fmap. split.
  - intros (k & -> & Hk). apply elem_of_seq in Hk. lia.
  - intros Hi. exists (Z.to_nat i). split; [lia|]. apply elem_of_seq. lia.
Qed.

(** The points of [linspace(0, stop, num, dtype=int)] for [num >= 2]: the
    point number [i] is the quotient of [i * stop] by [num - 1]. *)
Lemma linspace_int_from_0 (stop num : Z) :
  (2 <= num)%Z ->
  linspace_int 0 stop num
  = Ok ((fun i => (i * stop) `div` (num - 1))%Z <$> arange num).
Proof.
  intros Hnum. unfold linspace_int.
  destruct (Z.ltb_spec num 0) as [?|_]; [lia|].
  f_equal. apply list_fmap_ext. intros k i Hi.
  apply list_elem_of_lookup_2, elem_of_arange in Hi.
  destruct (Z.ltb_spec 1 num) as [_|?]; [|lia]. cbn [andb].
  destruct (Z.eqb_spec i (num - 1)) as [->|Hne].
  - rewrite Z.mul_comm, Z.div_mul by lia. done.
  - destruct (Z.ltb_spec 0 (num - 1)) as [_|?]; [|lia].
    rewrite (Zdiv_Qdiv (i * stop) (num - 1)). apply Qfloor_comp.
    rewrite Z.sub_0_r, inject_Z_mult. unfold Qdiv.
    change (inject_Z 0) with 0%Q. ring.
Qed.

Lemma np_item_in_range {A} (a : list A) (i : nat) (x : A) :
  a !! i = Some x -> np_item a (Z.of_nat i) = Ok x.
Proof.
  intros Hx. pose proof (lookup_lt_Some _ _ _ Hx) as Hlt.
  unfold np_item.
  destruct (Z.leb_spec 0 (Z.of_nat i)) as [_|?]; [|lia].
  destruct (Z.ltb_spec (Z.of_nat i) (Z.of_nat (length a))) as [_|?]; [|lia].
  simpl. by rewrite Nat2Z.id, Hx.
Qed.

(** The quotients that [linspace] takes, when there are no more points than
    integers in the interval. *)
Section Grid.
Context (stop num : Z).
Hypothesis Hnum : (2 <= num)%Z.
Hypothesis Hstop : (num - 1 <= stop)%Z.

Definition grid_point (i : Z) : Z := ((i * stop) `div` (num - 1))%Z.

Lemma grid_point_0 : grid_point 0 = 0%Z.
Proof. unfold grid_point. by rewrite Z.mul_0_l, Z.div_0_l by lia. Qed.

Lemma grid_point_last : grid_point (num - 1) = stop.
Proof. unfold grid_point. rewrite Z.mul_comm, Z.div_mul; lia. Qed.

Lemma grid_point_lt (i j : Z) :
  (0 <= i)%Z -> (i < j)%Z -> (grid_point i < grid_point j)%Z.
Proof.
  intros Hi Hij. unfold grid_point.
  assert (((i * stop) `div` (num - 1) + 1
           <= (j * stop) `div` (num - 1))%Z); [|lia].
  rewrite <- (Z.div_add (i * stop) 1 (num - 1)) by lia.
  apply Z.div_le_mono; [lia|]. nia.
Qed.

Lemma grid_point_bounds (i : Z) :
  (0 <= i < num)%Z -> (0 <= grid_point i <= stop)%Z.
Proof.
  intros Hi. unfold grid_point. split.
  - apply Z.div_pos; [apply Z.mul_nonneg_nonneg|]; lia.
  - rewrite <- grid_point_last at 2. unfold grid_point.
    apply Z.div_le_mono; [lia|]. apply Z.mul_le_mono_nonneg_r; lia.
Qed.
End Grid.

(* ================================================================= *)
(** ** What a method leaves unchanged *)

(** [m] takes every object to an object related to it by [R], whether it
    returns or raises. *)
Definition sim_preserves {A} (R : relation Simulation) (m : Sim A) : Prop :=
  forall s, R s (m s).2.

Section Preserves.
Context (R : relation Simulation) `{!PreOrder R}.

Lemma preserves_ret {A} (a : A) : sim_preserves R (sim_ret a).
Proof. intros s. simpl. reflexivity. Qed.

Lemma preserves_raise {A} (e : PyError) : sim_preserves R (@sim_raise A e).
Proof. intros s. simpl. reflexivity. Qed.

Lemma preserves_lift {A} (o : Outcome A) : sim_preserves R (sim_lift o).
Proof. intros s. simpl. reflexivity. Qed.

Lemma preserves_get : sim_preserves R sim_get.
Proof. intros s. simpl. reflexivity. Qed.

Lemma preserves_modify (f : Simulation -> Simulation) :
  (forall s, R s (f s)) -> sim_preserves R (sim_modify f).
Proof. intros H s. apply H. Qed.

Lemma preserves_bind {A B} (m : Sim A) (f : A -> Sim B) :
  sim_preserves R m -> (forall a, sim_preserves R (f a)) ->
  sim_preserves R (sim_bind m f).
Proof.
  intros Hm Hf s. unfold sim_bind. specialize (Hm s).
  destruct (m s) as [[a|e] s']; simpl in *; [|done].
  etrans; [exact Hm|apply Hf].
Qed.

Lemma preserves_for {A} (l : list A) (body : A -> Sim unit) :
  (forall a, sim_preserves R (body a)) -> sim_preserves R (sim_for l body).
Proof.
  intros H. induction l as [|a l IH]; simpl.
  - apply preserves_ret.
  - apply preserves_bind; auto.
Qed.

Lemma preserves_concat {A B} (l : list A) (body : A -> Sim (list B)) :
  (forall a, sim_preserves R (body a)) -> sim_preserves R (sim_concat l body).
Proof.
  intros H. induction l as [|a l IH]; simpl.
  - apply preserves_ret.
  - apply preserves_bind; [auto|]. intros x.
    apply preserves_bind; [auto|]. intros xs. apply preserves_ret.
Qed.

Lemma preserves_map {A B} (l : list A) (f : A -> Sim B) :
  (forall a, sim_preserves R (f a)) -> sim_preserves R (sim_map l f).
Proof.
  intros H. induction l as [|a l IH]; simpl.
  - apply preserves_ret.
  - apply preserves_bind; [auto|]. intros x.
    apply preserves_bind; [auto|]. intros xs. apply preserves_ret.
Qed.
End Preserves.

Lemma preserves_weaken {A} (R R' : relation Simulation) (m : Sim A) :
  (forall s s', R s s' -> R' s s') -> sim_preserves R m -> sim_preserves R' m.
Proof. intros H Hm s. apply H, Hm. Qed.

(** What rebuilding the Hamiltonian leaves unchanged: the sequence, the
    grids, the configuration, the initial state, the collapse operators, and
    the basis once it is chosen. *)
Definition stable (s s' : Simulation) : Prop :=
  _seq s' = _seq s /\ _sampling_rate s' = _sampling_rate s
  /\ sampling_times s' = sampling_times s
  /\ _eval_times_array s' = _eval_times_array s
  /\ _config s' = _config s
  /\ _initial_state s' = _initial_state s
  /\ _meas_basis s' = _meas_basis s
  /\ _collapse_ops s' = _collapse_ops s
  /\ (forall bn, basis_name s = Some bn -> basis_name s' = Some bn).

(** What no method changes after [__init__] has set it. *)
Definition static (s s' : Simulation) : Prop :=
  _seq s' = _seq s /\ _sampling_rate s' = _sampling_rate s
  /\ sampling_times s' = sampling_times s.

#[global] Instance stable_preorder : PreOrder stable.
Proof.
  split.
  - intros s. unfold stable. repeat split; auto.
  - intros s1 s2 s3 H1 H2. unfold stable in *.
    destruct H1 as (?&?&?&?&?&?&?&?&Hb1), H2 as (?&?&?&?&?&?&?&?&Hb2).
    repeat split; try congruence. intros bn Hbn. eauto.
Qed.

#[global] Instance static_preorder : PreOrder static.
Proof.
  split.
  - intros s. unfold static. repeat split; auto.
  - intros s1 s2 s3 H1 H2. unfold static in *.
    destruct H1 as (?&?&?), H2 as (?&?&?). repeat split; congruence.
Qed.

Lemma stable_static (s s' : Simulation) : stable s s' -> static s s'.
Proof. unfold stable, static. intros (?&?&?&_). auto. Qed.

(** Nothing is recorded in the trace. *)
Definition silent (s s' : Simulation) : Prop := trace s' = trace s.

(** Nothing is recorded and the preparation failures are as they were. *)
Definition settled (s s' : Simulation) : Prop :=
  trace s' = trace s /\ _bad_atoms s' = _bad_atoms s.

#[global] Instance silent_preorder : PreOrder silent.
Proof. split; unfold silent; [done|]. intros s1 s2 s3. congruence. Qed.

#[global] Instance settled_preorder : PreOrder settled.
Proof.
  split; unfold settled; [done|].
  intros s1 s2 s3 [? ?] [? ?]. split; congruence.
Qed.

Lemma settled_silent (s s' : Simulation) : settled s s' -> silent s s'.
Proof. by intros [? _]. Qed.

Create HintDb preserves.
Create HintDb writes.

Ltac solve_rel :=
  solve [ unfold stable, static, silent, settled; simpl; repeat split; auto;
          try congruence
        | reflexivity
        | auto with writes ].

Ltac preserves_step :=
  lazymatch goal with
  | |- sim_preserves _ (sim_bind _ _) => apply preserves_bind; [try apply _| |intros ?]
  | |- sim_preserves _ (sim_ret _) => apply preserves_ret; apply _
  | |- sim_preserves _ (sim_raise _) => apply preserves_raise; apply _
  | |- sim_preserves _ (sim_lift _) => apply preserves_lift; apply _
  | |- sim_preserves _ sim_get => apply preserves_get; apply _
  | |- sim_preserves _ (sim_modify _) =>
      apply preserves_modify; intros ?; solve_rel
  | |- sim_preserves _ (sim_for _ _) => apply preserves_for; [apply _|intros ?]
  | |- sim_preserves _ (sim_concat _ _) => apply preserves_concat; [apply _|intros ?]
  | |- sim_preserves _ (sim_map _ _) => apply preserves_map; [apply _|intros ?]
  | |- sim_preserves _ (if ?b then _ else _) => destruct b
  | |- sim_preserves _ (match ?x with _ => _ end) => destruct x
  end.

Ltac preserves := repeat preserves_step; eauto with preserves.

Section Proofs.
Context (E : External).

Lemma random_uniform_stable n : sim_preserves stable (random_uniform E n).
Proof. intros s. solve_rel. Qed.
Lemma random_normal_stable mu sigma n :
  sim_preserves stable (random_normal E mu sigma n).
Proof. intros s. solve_rel. Qed.
Lemma random_normal1_stable mu sigma :
  sim_preserves stable (random_normal1 E mu sigma).
Proof. intros s. solve_rel. Qed.
Lemma sample_stable res t n : sim_preserves stable (sample E res t n).
Proof. intros s. solve_rel. Qed.
Hint Resolve random_uniform_stable random_normal_stable random_normal1_stable
  sample_stable : preserves.

Lemma _update_noise_stable : sim_preserves stable (_update_noise E).
Proof. unfold _update_noise. preserves. Qed.
Hint Resolve _update_noise_stable : preserves.

Lemma write_samples_stable slot p d g q :
  sim_preserves stable (write_samples E slot p d g q).
Proof. unfold write_samples. preserves. Qed.
Hint Resolve write_samples_stable : preserves.

Lemma get_local_stable b : sim_preserves stable (get_local b).
Proof. unfold get_local. preserves. Qed.
Lemma put_local_stable b d : sim_preserves stable (put_local b d).
Proof. unfold put_local. preserves. Qed.
Lemma get_global_stable b : sim_preserves stable (get_global b).
Proof. unfold get_global. preserves. Qed.
Lemma put_global_stable b d : sim_preserves stable (put_global b d).
Proof. unfold put_global. preserves. Qed.
Hint Resolve get_local_stable put_local_stable get_global_stable
  put_global_stable : preserves.

Lemma write_local_qubit_stable slot p b g k q :
  sim_preserves stable (write_local_qubit E slot p b g k q).
Proof. unfold write_local_qubit. preserves. Qed.
Hint Resolve write_local_qubit_stable : preserves.

Lemma extract_coherent_global_stable b slots slm_on :
  sim_preserves stable (extract_coherent_global E b slots slm_on).
Proof.
  revert slm_on. induction slots as [|slot rest IH]; intros slm_on; simpl.
  - preserves.
  - preserves.
Qed.
Hint Resolve extract_coherent_global_stable : preserves.

Lemma extract_noisy_stable b g slots :
  sim_preserves stable (extract_noisy E b g slots).
Proof. unfold extract_noisy. preserves. Qed.
Lemma apply_slm_mask_stable b : sim_preserves stable (apply_slm_mask b).
Proof. unfold apply_slm_mask. preserves. Qed.
Hint Resolve extract_noisy_stable apply_slm_mask_stable : preserves.

Lemma _extract_samples_stable : sim_preserves stable (_extract_samples E).
Proof. unfold _extract_samples. preserves. Qed.
Hint Resolve _extract_samples_stable : preserves.

Lemma _build_basis_and_op_matrices_stable s :
  basis_name s = None -> stable s (_build_basis_and_op_matrices s).2.
Proof. intros H. unfold stable. simpl. rewrite H. repeat split; auto; done. Qed.

Lemma global_term_stable b o c : sim_preserves stable (global_term b o c).
Proof. unfold global_term. preserves. Qed.
Lemma local_term_stable b q o c : sim_preserves stable (local_term b q o c).
Proof. unfold local_term. preserves. Qed.
Hint Resolve global_term_stable local_term_stable : preserves.

Lemma build_coeffs_ops_stable b a : sim_preserves stable (build_coeffs_ops b a).
Proof.
  unfold build_coeffs_ops. preserves.
  apply preserves_modify. intros s.
  destruct (operators s) as [cache|]; [|reflexivity].
  destruct (ops_local cache b !! _); [reflexivity|solve_rel].
Qed.
Hint Resolve build_coeffs_ops_stable : preserves.

Lemma drive_terms_stable : sim_preserves stable drive_terms.
Proof. unfold drive_terms. preserves. Qed.
Hint Resolve drive_terms_stable : preserves.

Lemma assemble_hamiltonian_stable : sim_preserves stable assemble_hamiltonian.
Proof. unfold assemble_hamiltonian. preserves. Qed.
Hint Resolve assemble_hamiltonian_stable : preserves.

Lemma _construct_hamiltonian_stable u :
  sim_preserves stable (_construct_hamiltonian E u).
Proof.
  unfold _construct_hamiltonian.
  apply preserves_bind; [apply _|preserves|intros _].
  apply preserves_bind; [apply _|preserves|intros _].
  apply preserves_bind; [apply _| |intros _; preserves].
  intros s. unfold sim_bind, sim_get.
  destruct (basis_name s) eqn:Hs; simpl; [reflexivity|].
  by apply _build_basis_and_op_matrices_stable.
Qed.
Hint Resolve _construct_hamiltonian_stable : preserves.

Lemma install_config_static cfg : sim_preserves static (install_config cfg).
Proof. unfold install_config. preserves. Qed.
Hint Resolve install_config_static : preserves.

(* ================================================================= *)
(** ** The sampling grid *)

Hint Extern 5 (sim_preserves static _) =>
  apply (preserves_weaken stable static _ stable_static) : preserves.

Lemma set_config_at_static depth cfg :
  sim_preserves static (set_config_at E depth cfg).
Proof.
  revert cfg. induction depth as [|depth IH]; intros cfg; simpl.
  - preserves.
  - preserves.
Qed.
Hint Resolve set_config_at_static : preserves.

Lemma initial_state_setter_static st :
  sim_preserves static (initial_state_setter E st).
Proof. unfold initial_state_setter. preserves. Qed.
Hint Resolve initial_state_setter_static : preserves.

Lemma Qltb_lt (x y : Q) : Qltb x y = true <-> (x < y)%Q.
Proof.
  unfold Qltb. rewrite negb_true_iff, <- not_true_iff_false, Qle_bool_iff.
  split; [apply Qnot_le_lt|apply Qlt_not_le].
Qed.

Lemma py_int_nonneg (q : Q) : (0 <= q)%Q -> py_int q = Qfloor q.
Proof. intros H. unfold py_int. apply Qle_bool_iff in H. by rewrite H. Qed.

Lemma py_int_comp (q q' : Q) : (q == q')%Q -> py_int q = py_int q'.
Proof.
  intros H. unfold py_int.
  assert (Qle_bool 0 q = Qle_bool 0 q') as ->.
  { apply eq_true_iff_eq. rewrite !Qle_bool_iff. by rewrite H. }
  by rewrite (Qfloor_comp _ _ H), (Qceiling_comp _ _ H).
Qed.

(** The number of grid points that a rate in (0, 1] gives: the floor of
    [rate * D], at most [D]. *)
Lemma grid_size_bounds (D : nat) (rate : Q) :
  (0 < rate)%Q -> (rate <= 1)%Q ->
  py_int (rate * inject_Z (Z.of_nat D)) = Qfloor (rate * inject_Z (Z.of_nat D))
  /\ (Qfloor (rate * inject_Z (Z.of_nat D)) <= Z.of_nat D)%Z.
Proof.
  intros H0 H1.
  assert (0 <= inject_Z (Z.of_nat D))%Q as HD.
  { change 0%Q with (inject_Z 0). rewrite <- Zle_Qle. lia. }
  split.
  - apply py_int_nonneg. apply Qmult_le_0_compat; [by apply Qlt_le_weak|done].
  - rewrite <- (Qfloor_Z (Z.of_nat D)) at 2. apply Qfloor_resp_le.
    rewrite <- (Qmult_1_l (inject_Z (Z.of_nat D))) at 2.
    by apply Qmult_le_compat_r.
Qed.

(** What [_adapt_to_sampling_rate] returns on an array of the length of the
    sequence, when the rate gives between 2 and [D] points. *)
Lemma _adapt_to_sampling_rate_spec {A} (self : Simulation) (full : list A) :
  let D := Z.of_nat (_tot_duration self) in
  let n := py_int (_sampling_rate self * inject_Z D) in
  length full = _tot_duration self -> (2 <= n <= D)%Z ->
  exists r, _adapt_to_sampling_rate self full = Ok r
    /\ length r = Z.to_nat n
    /\ forall i, (i < Z.to_nat n)%nat ->
         r !! i = full !! Z.to_nat (grid_point (D - 1) n (Z.of_nat i)).
Proof.
  intros D n Hlen Hn. unfold _adapt_to_sampling_rate. fold D. fold n.
  rewrite linspace_int_from_0 by lia. simpl. fold (grid_point (D - 1) n).
  assert (forall i, i ∈ arange n ->
            exists x, full !! Z.to_nat (grid_point (D - 1) n i) = Some x) as Hin.
  { intros i Hi%elem_of_arange. apply lookup_lt_is_Some.
    pose proof (grid_point_bounds (D - 1) n ltac:(lia) ltac:(lia) i Hi). lia. }
  assert (exists g : Z -> A, forall i, i ∈ arange n ->
            full !! Z.to_nat (grid_point (D - 1) n i) = Some (g i)) as [g Hg].
  { destruct full as [|x0 full'].
    - exfalso. simpl in Hlen. unfold D in Hn. lia.
    - exists (fun i => default x0 ((x0 :: full') !! Z.to_nat (grid_point (D - 1) n i))).
      intros i Hi. destruct (Hin i Hi) as [x Hx]. by rewrite Hx. }
  exists (g <$> arange n). split; [|split].
  - unfold np_take. apply mapM_ok_fmap_in. intros i Hi.
    pose proof (Hg i Hi) as Hx. apply elem_of_arange in Hi.
    pose proof (grid_point_bounds (D - 1) n ltac:(lia) ltac:(lia) i Hi).
    rewrite <- (Z2Nat.id (grid_point (D - 1) n i)) at 1 by lia.
    by apply np_item_in_range.
  - by rewrite length_fmap, arange_length.
  - intros i Hi. rewrite list_lookup_fmap, arange_lookup by done. simpl.
    symmetry. apply Hg. apply elem_of_arange. lia.
Qed.


Lemma sim_bind_eq {A B} (m : Sim A) (f : A -> Sim B) s a s1 :
  m s = (Ok a, s1) -> sim_bind m f s = f a s1.
Proof. intros H. unfold sim_bind. by rewrite H. Qed.

Lemma sim_bind_ok_inv {A B} (m : Sim A) (f : A -> Sim B) s b s' :
  sim_bind m f s = (Ok b, s') ->
  exists a s1, m s = (Ok a, s1) /\ f a s1 = (Ok b, s').
Proof.
  unfold sim_bind. destruct (m s) as [[a|e] s1]; [eauto|done].
Qed.

Lemma sim_bind_raise {A B} (m : Sim A) (f : A -> Sim B) s e s' :
  m s = (Raise e, s') -> sim_bind m f s = (Raise e, s').
Proof. unfold sim_bind. by intros ->. Qed.

Lemma sim_bind_ok {A B} (m : Sim A) (f : A -> Sim B) s a s' :
  m s = (Ok a, s') -> sim_bind m f s = f a s'.
Proof. unfold sim_bind. by intros ->. Qed.

(** The coarse grid, as indices into the nanoseconds of the sequence: at
    least 4 of them, from 0, strictly increasing, below the duration; the
    times are the indices over 1000. *)
Definition grid_ok (D : nat) (times : list Q) : Prop :=
  exists indices : list Z,
    times = (fun i => inject_Z i / 1000)%Q <$> indices
    /\ 4 <= length indices
    /\ indices !! 0 = Some 0%Z
    /\ (forall i j a b, i < j -> indices !! i = Some a -> indices !! j = Some b ->
          (a < b)%Z)
    /\ (forall a, a ∈ indices -> (0 <= a < Z.of_nat D)%Z).

Lemma init_sampling_rejects (s : Simulation) :
  ~ (0 < _sampling_rate s /\ _sampling_rate s <= 1)%Q
  \/ (Qfloor (_sampling_rate s * inject_Z (Z.of_nat (_tot_duration s))) < 4)%Z ->
  exists e, init_sampling s = (Raise e, s).
Proof.
  intros Hbad. unfold init_sampling, sim_bind, sim_get, sim_raise, sim_lift.
  destruct (bool_decide _); [eauto|].
  destruct (all_ok _ _) as [[]|e]; [eauto| |eauto].
  destruct (Qltb 0 (_sampling_rate s) && Qle_bool (_sampling_rate s) 1)
    eqn:Hrate; simpl; [|eauto].
  apply andb_true_iff in Hrate as [H0%Qltb_lt H1%Qle_bool_iff].
  destruct Hbad as [Hbad|Hbad]; [by destruct Hbad|].
  destruct (grid_size_bounds (_tot_duration s) _ H0 H1) as [Hint _].
  rewrite (py_int_comp _ _ (Qmult_comm _ _)), Hint.
  destruct (Z.ltb_spec (Qfloor (_sampling_rate s * inject_Z (Z.of_nat (_tot_duration s)))) 4);
    [eauto|lia].
Qed.

Lemma init_sampling_accepts (s s1 : Simulation) :
  init_sampling s = (Ok tt, s1) ->
  grid_ok (_tot_duration s) (sampling_times s1).
Proof.
  unfold init_sampling, sim_bind, sim_get, sim_raise, sim_lift.
  destruct (bool_decide _); [done|].
  destruct (all_ok _ _) as [[]|e]; [done| |done].
  destruct (Qltb 0 (_sampling_rate s) && Qle_bool (_sampling_rate s) 1)
    eqn:Hrate; simpl; [|done].
  apply andb_true_iff in Hrate as [H0%Qltb_lt H1%Qle_bool_iff].
  destruct (grid_size_bounds (_tot_duration s) _ H0 H1) as [Hint Hle].
  rewrite (py_int_comp _ _ (Qmult_comm _ _)).
  set (D := Z.of_nat (_tot_duration s)) in *.
  set (n := py_int (_sampling_rate s * inject_Z D)) in *.
  destruct (Z.ltb_spec n 4) as [|Hn4]; [done|].
  set (full := (fun t => (inject_Z t / 1000)%Q) <$> arange D).
  destruct (_adapt_to_sampling_rate_spec s full) as (r & Hr & Hlen & Hlook).
  { unfold full. rewrite length_fmap, arange_length. unfold D. lia. }
  { fold D. fold n. lia. }
  rewrite Hr. unfold sim_modify. intros [= <-]. simpl.
  fold D n in Hlen, Hlook.
  assert (2 <= n)%Z as Hn2 by lia. assert (n - 1 <= D - 1)%Z as HnD by lia.
  exists (grid_point (D - 1) n <$> arange n).
  split; [|split; [|split; [|split]]].
  - apply list_eq. intros i. rewrite !list_lookup_fmap.
    destruct (decide (i < Z.to_nat n)) as [Hi|Hi].
    + rewrite Hlook, arange_lookup by done. simpl. unfold full.
      rewrite list_lookup_fmap, arange_lookup; [simpl|].
      * f_equal. f_equal. f_equal. apply Z2Nat.id.
        apply (grid_point_bounds (D - 1) n); lia.
      * pose proof (grid_point_bounds (D - 1) n Hn2 HnD (Z.of_nat i)). lia.
    + rewrite !lookup_ge_None_2; [done| |lia].
      rewrite arange_length. lia.
  - rewrite length_fmap, arange_length. lia.
  - rewrite list_lookup_fmap, arange_lookup by lia. simpl.
    change (Z.of_nat 0) with 0%Z. by rewrite (grid_point_0 (D - 1) n) by lia.
  - intros i j a b Hij Ha Hb.
    rewrite list_lookup_fmap in Ha, Hb.
    pose proof (lookup_lt_is_Some_1 (arange n) j) as Hj.
    rewrite arange_length in Hj.
    destruct (arange n !! j) eqn:Hjj; [|done]. specialize (Hj (mk_is_Some _ _ eq_refl)).
    rewrite arange_lookup in Hjj by done. rewrite arange_lookup in Ha by lia.
    simpl in *. simplify_eq. apply grid_point_lt; lia.
  - intros a (i & -> & Hi%elem_of_arange)%list_elem_of_fmap.
    pose proof (grid_point_bounds (D - 1) n Hn2 HnD i Hi). lia.
Qed.

(* ================================================================= *)
(** ** Operators: identity, tensor products *)

Lemma Cmul_1_1 : Cmul C1 C1 = C1.
Proof. unfold Cmul, C1, RtoC. simpl. f_equal; lra. Qed.
Lemma Cmul_0_l (c : C) : Cmul C0 c = C0.
Proof. unfold Cmul, C0, RtoC. destruct c. simpl. f_equal; lra. Qed.
Lemma Cmul_0_r (c : C) : Cmul c C0 = C0.
Proof. unfold Cmul, C0, RtoC. destruct c. simpl. f_equal; lra. Qed.
Lemma Cadd_0_l (c : C) : Cadd C0 c = c.
Proof. unfold Cadd, C0, RtoC. destruct c. simpl. f_equal; lra. Qed.
Lemma Cadd_0_r (c : C) : Cadd c C0 = c.
Proof. unfold Cadd, C0, RtoC. destruct c. simpl. f_equal; lra. Qed.
Lemma Cadd_comm (a b : C) : Cadd a b = Cadd b a.
Proof. unfold Cadd. destruct a, b. simpl. f_equal; lra. Qed.
Lemma Cconj_involutive (c : C) : Cconj (Cconj c) = c.
Proof. unfold Cconj. destruct c. simpl. f_equal; lra. Qed.
Lemma Cconj_add (a b : C) : Cconj (Cadd a b) = Cadd (Cconj a) (Cconj b).
Proof. unfold Cconj, Cadd. destruct a, b. simpl. f_equal; lra. Qed.
Lemma Cconj_mul (a b : C) : Cconj (Cmul a b) = Cmul (Cconj a) (Cconj b).
Proof. unfold Cconj, Cmul. destruct a, b. simpl. f_equal; lra. Qed.
Lemma Cconj_0 : Cconj C0 = C0.
Proof. unfold Cconj, C0, RtoC. simpl. f_equal; lra. Qed.

Lemma Qobj_eq_refl (A : Qobj) : Qobj_eq A A.
Proof. by split. Qed.

Lemma Qobj_eq_trans (A B D : Qobj) : Qobj_eq A B -> Qobj_eq B D -> Qobj_eq A D.
Proof. intros [? H1] [? H2]. split; [congruence|]. intros i j. by rewrite H1. Qed.

Lemma kron_Qobj_eq (A A' B : Qobj) : Qobj_eq A A' -> Qobj_eq (kron A B) (kron A' B).
Proof.
  intros [Hs Hd]. unfold kron. destruct (shape B) as [rb cb]. split; simpl.
  - by rewrite Hs.
  - intros i j. by rewrite Hd.
Qed.

(** The Kronecker product of two identities is the identity. *)
Lemma kron_qeye (m d : nat) : Qobj_eq (kron (qeye m) (qeye d)) (qeye (m * d)).
Proof.
  split; [done|]. intros i j. simpl.
  destruct (decide (i = j)) as [->|Hne].
  - rewrite !bool_decide_eq_true_2 by done. apply Cmul_1_1.
  - rewrite (bool_decide_eq_false_2 (i = j)) by done.
    destruct (decide (i / d = j / d)) as [Hq|Hq].
    + rewrite (bool_decide_eq_false_2 (i mod d = j mod d)); [apply Cmul_0_r|].
      intros Hr. apply Hne.
      rewrite (Nat.div_mod_eq i d), (Nat.div_mod_eq j d). congruence.
    + rewrite (bool_decide_eq_false_2 (i / d = j / d)) by done. apply Cmul_0_l.
Qed.

Lemma fold_kron_qeye (d n : nat) (A : Qobj) (m : nat) :
  Qobj_eq A (qeye m) ->
  Qobj_eq (fold_left kron (replicate n (qeye d)) A) (qeye (m * d ^ n)).
Proof.
  revert A m. induction n as [|n IH]; intros A m HA; simpl.
  - by rewrite Nat.mul_1_r.
  - replace (m * (d * d ^ n)) with ((m * d) * d ^ n) by lia.
    apply IH. eapply Qobj_eq_trans; [by apply kron_Qobj_eq|apply kron_qeye].
Qed.

(** [qutip.tensor] of [n] identities of dimension [d] is the identity of
    dimension [d ^ n]. *)
Lemma tensor_qeye (d n : nat) :
  Qobj_eq (tensor (replicate n (qeye d))) (qeye (d ^ n)).
Proof.
  destruct n as [|n]; simpl; [apply Qobj_eq_refl|].
  replace (d * d ^ n) with (d * d ^ n) by done.
  apply fold_kron_qeye, Qobj_eq_refl.
Qed.

(** ** [build_operator] on qubit lists *)

Lemma index_of_Some (q : QubitId) (l : list QubitId) :
  q ∈ l -> exists k, index_of q l = Some k /\ k < length l.
Proof.
  induction l as [|q' l IH]; [by intros ?%elem_of_nil|].
  intros Hq. simpl. destruct (decide (q = q')) as [->|Hne].
  - exists 0. split; [done|simpl; lia].
  - apply elem_of_cons in Hq as [?|Hq]; [done|].
    destruct (IH Hq) as (k & -> & Hk). exists (S k). split; [done|simpl; lia].
Qed.

Lemma index_of_lookup (l : list QubitId) (k : nat) (q : QubitId) :
  NoDup l -> l !! k = Some q -> index_of q l = Some k.
Proof.
  intros Hnd. revert k. induction Hnd as [|q' l Hnotin Hnd IH]; intros k; [done|].
  destruct k as [|k]; simpl.
  - intros [= ->]. by rewrite decide_True.
  - intros Hk. rewrite decide_False.
    + by rewrite (IH k Hk).
    + intros ->. apply Hnotin. by eapply list_elem_of_lookup_2.
Qed.

Lemma op_matrix_of_I (bn : BasisName) :
  op_matrix_of bn !! "I" = Some (qeye (dim_of bn)).
Proof. destruct bn; reflexivity. Qed.

(** A pair is fit for [build_operator] when its qubits are known and not
    repeated and its operator, if named, is registered. *)
Definition pair_ok (self : Simulation) (bn : BasisName)
  (p : Operator * Target) : Prop :=
  match p with
  | (_, TGlobal) => False
  | (operator, TQubits qubits) =>
      NoDup qubits /\ qubits ⊆ qids self
      /\ match operator with
         | OpName name => is_Some (op_matrix_of bn !! name)
         | OpQobj _ => True
         end
  end.

Definition is_global (p : Operator * Target) : Prop :=
  match p with (_, TGlobal) => True | _ => False end.

#[global] Instance pair_ok_dec self bn p : Decision (pair_ok self bn p).
Proof.
  destruct p as [operator [|qubits]]; simpl; [apply _|].
  destruct operator; apply _.
Defined.

#[global] Instance is_global_dec p : Decision (is_global p).
Proof. destruct p as [operator [|qubits]]; simpl; apply _. Defined.

Lemma place_operator_ok (self : Simulation) (op : Qobj) qubits op_list :
  (forall q, q ∈ qubits -> q ∈ qids self) -> length op_list = _size self ->
  exists l, place_operator self op qubits op_list = Ok l
            /\ length l = _size self.
Proof.
  revert op_list. induction qubits as [|q qs IH]; intros op_list Hin Hlen; simpl.
  - eauto.
  - destruct (index_of_Some q (qids self)) as (k & Hk & _); [apply Hin; by left|].
    unfold _qid_index. rewrite Hk. simpl.
    apply IH; [intros q' Hq'; apply Hin; by right|]. by rewrite length_insert.
Qed.

Lemma place_operator_same (self : Simulation) (op : Qobj) qubits n :
  (forall q, q ∈ qubits -> q ∈ qids self) ->
  place_operator self op qubits (replicate n op) = Ok (replicate n op).
Proof.
  induction qubits as [|q qs IH]; intros Hin; simpl; [done|].
  destruct (index_of_Some q (qids self)) as (k & Hk & _); [apply Hin; by left|].
  unfold _qid_index. rewrite Hk. simpl. rewrite insert_replicate.
  apply IH. intros q' Hq'. apply Hin. by right.
Qed.

Lemma forallb_in_qids (self : Simulation) qubits :
  forallb (fun q => bool_decide (q ∈ qids self)) qubits = true
  <-> forall q, q ∈ qubits -> q ∈ qids self.
Proof.
  rewrite forallb_forall. split.
  - intros H q Hq. apply list_elem_of_In, H in Hq. by apply bool_decide_eq_true_1 in Hq.
  - intros H q Hq. apply bool_decide_eq_true_2, H. by apply list_elem_of_In.
Qed.

(** The loop returns on a list of fit pairs. *)
Lemma build_operator_loop_ok self bn call operations op_list :
  basis_name self = Some bn ->
  Forall (pair_ok self bn) operations -> length op_list = _size self ->
  exists l, build_operator_loop self call operations op_list = Ok (tensor l)
            /\ length l = _size self.
Proof.
  intros Hbn Hall. revert op_list.
  induction Hall as [|[operator [|qubits]] rest Hp Hrest IH]; intros op_list Hlen.
  - simpl. eauto.
  - done.
  - destruct Hp as (Hnd & Hin & Hop). simpl.
    rewrite bool_decide_eq_true_2 by done.
    rewrite (proj2 (forallb_in_qids self qubits)) by done.
    unfold op_matrix. rewrite Hbn.
    assert (exists op, (match operator with
              | OpName name =>
                  m ← Ok (op_matrix_of bn);
                  match m !! name with Some op => Ok op | None => Raise ValueError end
              | OpQobj q => Ok q end) = Ok op) as [op ->].
    { destruct operator as [name|q]; [|eauto]. destruct Hop as [op Hop].
      exists op. simpl. by rewrite Hop. }
    simpl.
    destruct (place_operator_ok self op qubits op_list Hin Hlen) as (l & -> & Hl).
    simpl. by apply IH.
Qed.

(** The loop raises [ValueError] at the first unfit pair, when no pair
    before it has the target ["global"]. *)
Lemma build_operator_loop_raise self bn call pre p post op_list :
  basis_name self = Some bn ->
  Forall (pair_ok self bn) pre -> ~ is_global p -> ~ pair_ok self bn p ->
  length op_list = _size self ->
  build_operator_loop self call (pre ++ p :: post) op_list = Raise ValueError.
Proof.
  intros Hbn Hall Hng Hbad. revert op_list.
  induction Hall as [|[operator [|qubits]] rest Hp Hrest IH]; intros op_list Hlen.
  - destruct p as [operator [|qubits]]; [done|]. simpl.
    destruct (bool_decide (NoDup qubits)) eqn:Hnd; [|done].
    destruct (forallb _ qubits) eqn:Hin; [|done].
    apply bool_decide_eq_true_1 in Hnd.
    pose proof (proj1 (forallb_in_qids self qubits) Hin) as Hin'.
    unfold op_matrix. rewrite Hbn.
    destruct operator as [name|q]; [|exfalso; apply Hbad; done].
    simpl. destruct (op_matrix_of bn !! name) eqn:Hop; [|done].
    exfalso. apply Hbad. repeat split; eauto.
  - done.
  - destruct Hp as (Hnd & Hin & Hop). simpl.
    rewrite bool_decide_eq_true_2 by done.
    rewrite (proj2 (forallb_in_qids self qubits)) by done.
    unfold op_matrix. rewrite Hbn.
    assert (exists op, (match operator with
              | OpName name =>
                  m ← Ok (op_matrix_of bn);
                  match m !! name with Some op => Ok op | None => Raise ValueError end
              | OpQobj q => Ok q end) = Ok op) as [op ->].
    { destruct operator as [name|q]; [|eauto]. destruct Hop as [op Hop].
      exists op. simpl. by rewrite Hop. }
    simpl.
    destruct (place_operator_ok self op qubits op_list Hin Hlen) as (l & -> & Hl).
    simpl. by apply IH.
Qed.

(** The loop on placements of ["I"] leaves the list of identities as it is. *)
Lemma build_operator_loop_identity self bn call operations n :
  basis_name self = Some bn ->
  Forall (fun p => exists qubits, p = (OpName "I", TQubits qubits)
                                  /\ pair_ok self bn p) operations ->
  build_operator_loop self call operations (replicate n (qeye (dim_of bn)))
  = Ok (tensor (replicate n (qeye (dim_of bn)))).
Proof.
  intros Hbn Hall.
  induction Hall as [|p rest (qubits & -> & Hnd & Hin & _) Hrest IH]; [done|].
  simpl. rewrite bool_decide_eq_true_2 by done.
  rewrite (proj2 (forallb_in_qids self qubits)) by done.
  unfold op_matrix. rewrite Hbn. simpl. rewrite op_matrix_of_I. simpl.
  rewrite place_operator_same by done. simpl. exact IH.
Qed.

Lemma build_operator_unfold self bn operations :
  basis_name self = Some bn ->
  build_operator self operations
  = build_operator_loop self (build_operator_at (pred recursion_limit) self)
      operations (replicate (_size self) (qeye (dim_of bn))).
Proof.
  intros Hbn. unfold build_operator.
  change recursion_limit with (S (pred recursion_limit)).
  cbn [build_operator_at]. unfold op_matrix. rewrite Hbn. simpl.
  by rewrite op_matrix_of_I.
Qed.


Lemma first_unfit {A} (P : A -> Prop) `{!forall a, Decision (P a)} (l : list A) :
  (exists p, p ∈ l /\ ~ P p) ->
  exists pre p post, l = pre ++ p :: post /\ Forall P pre /\ ~ P p.
Proof.
  induction l as [|a l IH]; intros (p & Hp & Hbad); [by apply elem_of_nil in Hp|].
  destruct (decide (P a)) as [Ha|Ha].
  - apply elem_of_cons in Hp as [->|Hp]; [done|].
    destruct IH as (pre & p' & post & -> & Hpre & Hp'); [eauto|].
    exists (a :: pre), p', post. split; [done|]. split; [by constructor|done].
  - exists [], a, l. split; [done|]. split; [constructor|done].
Qed.

(** C7, as amended.  On a simulation whose basis is built: a list of
    placements of ["I"] on known, unrepeated qubits gives the identity of the
    full space; [build_operator] raises [ValueError] whenever a pair that no
    ["global"] pair precedes has an unknown qubit, a qubit repeated in its
    own list, or a name that is not in [op_matrix]; it returns when every
    pair is fit. *)
Theorem build_operator_checks (self : Simulation) (bn : BasisName)
  (pre rest : list (Operator * Target)) :
  basis_name self = Some bn ->
  Forall (fun p => ~ is_global p) pre ->
  (Forall (fun p => exists qubits, p = (OpName "I", TQubits qubits)
                                   /\ pair_ok self bn p) pre ->
   exists X, build_operator self pre = Ok X
             /\ Qobj_eq X (qeye (dim_of bn ^ _size self)))
  /\ ((exists p, p ∈ pre /\ ~ pair_ok self bn p) ->
      build_operator self (pre ++ rest) = Raise ValueError)
  /\ (Forall (pair_ok self bn) pre ->
      exists X, build_operator self pre = Ok X).
Proof.
  intros Hbn Hng. split; [|split].
  - intros Hid. eexists. split.
    + rewrite (build_operator_unfold self bn) by done.
      by apply build_operator_loop_identity.
    + apply tensor_qeye.
  - intros Hbad.
    destruct (first_unfit (pair_ok self bn) pre Hbad)
      as (pre' & p & post & -> & Hpre & Hp).
    rewrite (build_operator_unfold self bn) by done.
    rewrite <- app_assoc. simpl.
    eapply build_operator_loop_raise; eauto.
    + apply Forall_app in Hng as [_ Hng]. by inversion Hng.
    + by rewrite length_replicate.
  - intros Hall. rewrite (build_operator_unfold self bn) by done.
    destruct (build_operator_loop_ok self bn
                (build_operator_at (pred recursion_limit) self) pre
                (replicate (_size self) (qeye (dim_of bn))) Hbn Hall)
      as (l & -> & _); [by rewrite length_replicate|eauto].
Qed.

(** ** [build_operator] with the target ["global"] *)

Lemma mapM_ok_imap {A B} (f : A -> Outcome B) (g : nat -> A -> B) (l : list A) :
  (forall k a, l !! k = Some a -> f a = Ok (g k a)) ->
  mapM_ok f l = Ok (imap g l).
Proof.
  revert g. induction l as [|a l IH]; intros g H; simpl; [done|].
  rewrite (H 0 a) by done. simpl.
  rewrite (IH (g ∘ S)); [done|]. intros k b Hk. by apply (H (S k)).
Qed.

(** The loop reaches a ["global"] pair after fit pairs: it returns the sum
    of the calls on each qubit, whatever the pairs before and after. *)
Lemma build_operator_loop_global self bn call pre operator rest op_list :
  basis_name self = Some bn ->
  Forall (pair_ok self bn) pre -> length op_list = _size self ->
  build_operator_loop self call (pre ++ (operator, TGlobal) :: rest) op_list
  = (terms ← mapM_ok (fun q_id => call [(operator, TQubits [q_id])]) (qids self);
     Ok (Qsum terms)).
Proof.
  intros Hbn Hall. revert op_list.
  induction Hall as [|[op [|qubits]] pre' Hp Hrest IH]; intros op_list Hlen.
  - done.
  - done.
  - destruct Hp as (Hnd & Hin & Hop). simpl.
    rewrite bool_decide_eq_true_2 by done.
    rewrite (proj2 (forallb_in_qids self qubits)) by done.
    unfold op_matrix. rewrite Hbn.
    assert (exists o, (match op with
              | OpName name =>
                  m ← Ok (op_matrix_of bn);
                  match m !! name with Some op => Ok op | None => Raise ValueError end
              | OpQobj q => Ok q end) = Ok o) as [o ->].
    { destruct op as [name|q]; [|eauto]. destruct Hop as [o Hop].
      exists o. simpl. by rewrite Hop. }
    simpl.
    destruct (place_operator_ok self o qubits op_list Hin Hlen) as (l & -> & Hl).
    simpl. by apply IH.
Qed.

(** The operator that a pair names, if it names one. *)
Definition resolve (bn : BasisName) (operator : Operator) : option Qobj :=
  match operator with
  | OpName name => op_matrix_of bn !! name
  | OpQobj q => Some q
  end.

(** The sum over the qubits of [Op] placed at each qubit in turn, identity
    elsewhere. *)
Definition global_sum (self : Simulation) (bn : BasisName) (Op : Qobj) : Qobj :=
  Qsum (imap (fun k _ =>
                tensor (<[k := Op]> (replicate (_size self) (qeye (dim_of bn)))))
             (qids self)).

Lemma build_operator_at_single self bn depth operator Op k q :
  basis_name self = Some bn -> NoDup (qids self) ->
  qids self !! k = Some q -> resolve bn operator = Some Op ->
  build_operator_at (S depth) self [(operator, TQubits [q])]
  = Ok (tensor (<[k := Op]> (replicate (_size self) (qeye (dim_of bn))))).
Proof.
  intros Hbn Hnd Hk HO. cbn [build_operator_at]. unfold op_matrix.
  rewrite Hbn. simpl. rewrite op_matrix_of_I. simpl.
  rewrite bool_decide_eq_true_2 by (by eapply list_elem_of_lookup_2).
  simpl. unfold op_matrix. rewrite Hbn.
  assert ((match operator with
           | OpName name =>
               m ← Ok (op_matrix_of bn);
               match m !! name with
               | Some op => Ok op | None => Raise ValueError end
           | OpQobj q => Ok q end) = Ok Op) as ->.
  { destruct operator; simpl in HO; simpl; [by rewrite HO|congruence]. }
  simpl. unfold _qid_index. by rewrite (index_of_lookup _ k q).
Qed.

Lemma build_operator_at_single_unregistered self bn depth name q :
  basis_name self = Some bn -> q ∈ qids self ->
  op_matrix_of bn !! name = None ->
  build_operator_at (S depth) self [(OpName name, TQubits [q])]
  = Raise ValueError.
Proof.
  intros Hbn Hq HO. cbn [build_operator_at]. unfold op_matrix.
  rewrite Hbn. simpl. rewrite op_matrix_of_I. simpl.
  rewrite bool_decide_eq_true_2 by done. simpl.
  unfold op_matrix. rewrite Hbn. simpl. by rewrite HO.
Qed.

(** C10, as amended.  When every pair before the first ["global"] pair is
    fit, [build_operator] returns the sum over the qubits of the operator of
    that pair placed at each qubit in turn, whatever the other pairs are,
    before or after; it raises [ValueError] instead when the name of the
    ["global"] pair is not registered (and the register is not empty). *)
Theorem build_operator_global (self : Simulation) (bn : BasisName)
  (pre rest : list (Operator * Target)) (operator : Operator) :
  basis_name self = Some bn -> NoDup (qids self) ->
  Forall (pair_ok self bn) pre ->
  match resolve bn operator with
  | Some Op =>
      build_operator self (pre ++ (operator, TGlobal) :: rest)
      = Ok (global_sum self bn Op)
  | None =>
      qids self <> [] ->
      build_operator self (pre ++ (operator, TGlobal) :: rest) = Raise ValueError
  end.
Proof.
  intros Hbn Hnd Hpre.
  rewrite (build_operator_unfold self bn) by done.
  rewrite (build_operator_loop_global self bn) by (by rewrite ?length_replicate).
  change (pred recursion_limit) with (S (pred (pred recursion_limit))).
  destruct (resolve bn operator) as [Op|] eqn:HO.
  - rewrite (mapM_ok_imap _ (fun k _ =>
      tensor (<[k := Op]> (replicate (_size self) (qeye (dim_of bn)))))); [done|].
    intros k q Hk. by eapply build_operator_at_single.
  - intros Hne. destruct (qids self) as [|q qs] eqn:Hq; [done|].
    destruct operator as [name|]; [|done]. simpl in HO. cbn [mapM_ok].
    rewrite (build_operator_at_single_unregistered self bn _ name q);
      [done|done| |done].
    rewrite Hq. by left.
Qed.


(* ================================================================= *)
(** ** The guard of [run] on preparation errors (C4) *)

(** The first lines of [run] leave the object as it is. *)
Lemma solver_options_cases (options : gmap string Q) (s : Simulation) :
  (exists solv_ops, solver_options E options s = (Ok solv_ops, s))
  \/ (exists e, solver_options E options s = (Raise e, s)).
Proof.
  unfold solver_options, sim_bind, sim_get, sim_lift, sim_ret, sim_raise.
  case_bool_decide.
  - destruct (Options_error E _); [right|left]; by eexists.
  - destruct (_min_pulse_duration (_seq s)) as [d|e]; [|right; by eexists].
    destruct (Options_error E _); [right|left]; by eexists.
Qed.

(** C4.  With SPAM noise, [eta > 0] and an initial state that differs from
    the tensor product of [basis["g"]] that [run] compares it with, [run]
    raises, whatever its arguments, and leaves the object as it was: no noise
    is drawn, no Hamiltonian built, no solver called.  When the options of
    the solver cannot be made (no [max_step] and no pulse duration in the
    sequence, or options that QuTiP refuses) the error is the one of that
    step; otherwise it is [NotImplementedError] in the Ising mode, and in
    the XY mode the basis has no ["g"] and the comparison itself raises. *)
Theorem run_spam_guard (progress_bar : ProgressBar)
  (options : gmap string Q) (self : Simulation) :
  has_noise "SPAM" (config E self) = true ->
  (0 < eta (config E self))%Q ->
  (forall ground, all_in_state self "g" = Ok ground ->
                  Qobj_ne E (_initial_state self) ground = true) ->
  exists e, run E progress_bar options self = (Raise e, self)
            /\ (is_ok (solver_options E options self).1 = true ->
                is_ok (all_in_state self "g") = true ->
                e = NotImplementedError).
Proof.
  intros Hspam Heta%Qltb_lt Hne. unfold run.
  destruct (solver_options_cases options self) as [[solv_ops Hso]|[e Hso]];
    [|exists e; split;
      [by apply sim_bind_raise|by rewrite Hso; intros [=]]].
  rewrite (sim_bind_eq _ _ _ _ _ Hso). unfold spam_guard at 1.
  unfold sim_bind at 1. unfold sim_bind at 1. unfold sim_get at 1.
  rewrite Hspam, Heta.
  unfold sim_bind at 1. unfold sim_bind at 1. unfold sim_lift at 1.
  destruct (all_in_state self "g") as [ground|e] eqn:Hg.
  - rewrite (Hne ground eq_refl). unfold sim_raise. eauto.
  - exists e. split; [done|]. simpl. discriminate.
Qed.

(* ================================================================= *)
(** ** Hermiticity of the Hamiltonian (C1) *)

Lemma Cadd_assoc (a b c : C) : Cadd a (Cadd b c) = Cadd (Cadd a b) c.
Proof. unfold Cadd. destruct a, b, c. simpl. f_equal; lra. Qed.

(** The sum of the terms of a [QobjEvo] at the point [k], entry by entry. *)
Definition terms_at (ops : list (Qobj * list C)) (k i j : nat) : C :=
  foldr (fun (oc : Qobj * list C) acc =>
           Cadd (Cmul (nth k oc.2 C0) (data oc.1 i j)) acc) C0 ops.

Lemma fold_terms_shape (ops : list (Qobj * list C)) (k : nat) (A : Qobj) :
  shape (fold_left (fun acc (oc : Qobj * list C) =>
                      Qadd acc (Qscale (nth k oc.2 C0) oc.1)) ops A) = shape A.
Proof. revert A. induction ops as [|oc ops IH]; intros A; simpl; [done|]. by rewrite IH. Qed.

Lemma fold_terms_data (ops : list (Qobj * list C)) (k : nat) (A : Qobj) i j :
  data (fold_left (fun acc (oc : Qobj * list C) =>
                     Qadd acc (Qscale (nth k oc.2 C0) oc.1)) ops A) i j
  = Cadd (data A i j) (terms_at ops k i j).
Proof.
  revert A. induction ops as [|oc ops IH]; intros A; simpl.
  - by rewrite Cadd_0_r.
  - rewrite IH. simpl. by rewrite Cadd_assoc.
Qed.

Lemma terms_at_app ops ops' k i j :
  terms_at (ops ++ ops') k i j = Cadd (terms_at ops k i j) (terms_at ops' k i j).
Proof.
  induction ops as [|oc ops IH]; simpl.
  - by rewrite Cadd_0_l.
  - rewrite IH. by rewrite Cadd_assoc.
Qed.

Lemma nth_Cconj (l : list C) (k : nat) :
  nth k (Cconj <$> l) C0 = Cconj (nth k l C0).
Proof.
  revert k. induction l as [|c l IH]; intros [|k]; simpl; rewrite ?Cconj_0; auto.
Qed.

Lemma terms_at_dag ops k i j :
  terms_at ((fun oc : Qobj * list C => (dag oc.1, Cconj <$> oc.2)) <$> ops) k i j
  = Cconj (terms_at ops k j i).
Proof.
  induction ops as [|oc ops IH]; csimpl.
  - by rewrite Cconj_0.
  - rewrite IH, nth_Cconj, Cconj_add, Cconj_mul. done.
Qed.

(** [h + h.dag()], when QuTiP accepts the sum, equals its own adjoint at
    every point of the time list. *)
Lemma evo_add_dag_hermitian (h0 h : QobjEvo) (k : nat) :
  evo_add h0 (evo_dag h0) = Ok h ->
  Qobj_eq (evo_at h k) (dag (evo_at h k)).
Proof.
  unfold evo_add. case_bool_decide as Hshape; [|done]. intros [= <-].
  unfold evo_at. simpl in *. split.
  - simpl. rewrite fold_terms_shape. simpl.
    destruct (shape (evo_cte h0)) as [r c]. simpl in *. congruence.
  - intros i j. simpl. rewrite !fold_terms_data. simpl.
    rewrite !terms_at_app, !terms_at_dag.
    rewrite !Cconj_add, !Cconj_involutive.
    set (a := data (evo_cte h0) i j). set (b := data (evo_cte h0) j i).
    set (t := terms_at (evo_ops h0) k i j). set (u := terms_at (evo_ops h0) k j i).
    rewrite (Cadd_comm (Cconj b) a), (Cadd_comm (Cconj u) t). done.
Qed.

(** C1.  When [_construct_hamiltonian] returns, the Hamiltonian it has
    stored is the sum of an assembled [QobjEvo] and of its adjoint, and its
    value at every point of the coarse grid equals its own adjoint. *)
Theorem hamiltonian_hermitian (update_and_extract : bool) (self self' : Simulation) :
  _construct_hamiltonian E update_and_extract self = (Ok tt, self') ->
  exists qobj_list ham,
    evo_add (QobjEvo_of qobj_list (sampling_times self'))
            (evo_dag (QobjEvo_of qobj_list (sampling_times self'))) = Ok ham
    /\ _hamiltonian self' = Some (compress ham)
    /\ forall k, Qobj_eq (evo_at (compress ham) k) (dag (evo_at (compress ham) k)).
Proof.
  unfold _construct_hamiltonian. intros H.
  do 3 (apply sim_bind_ok_inv in H as (? & ? & _ & H)).
  unfold assemble_hamiltonian in H.
  do 2 (apply sim_bind_ok_inv in H as (? & ? & _ & H)).
  apply sim_bind_ok_inv in H as (drive & s1 & _ & H).
  apply sim_bind_ok_inv in H as (s2 & s2' & [= <- <-] & H).
  apply sim_bind_ok_inv in H as (qobj_list & s3 & Hq & H).
  apply sim_bind_ok_inv in H as (ham & s4 & Hadd & H).
  assert (s3 = s1) as ->.
  { destruct (_ ++ drive); [|by injection Hq].
    apply sim_bind_ok_inv in Hq as (? & ? & Hz & Hq).
    unfold sim_lift in Hz. unfold sim_ret in Hq. congruence. }
  unfold sim_lift in Hadd. injection Hadd as Hadd <-.
  unfold sim_modify in H. injection H as <-.
  exists qobj_list, ham. simpl. split; [exact Hadd|]. split; [done|].
  intros k. by eapply evo_add_dag_hermitian.
Qed.


(* ================================================================= *)
(** ** Every atom badly prepared (C8) *)

(** A coefficient set that is zero everywhere; samples without any drive. *)
Definition zero_arrays (a : SampleArrays) : Prop :=
  Forall (eq 0%R) (amp a) /\ Forall (eq 0%R) (det a)
  /\ Forall (eq 0%R) (phase_arr a).

Definition zero_samples (smp : Samples) : Prop :=
  forall b, smp_global smp b = None
            /\ Forall (fun qs => zero_arrays qs.2) (smp_local smp b).

(** Every qubit of the register is marked as a bad atom, and nothing else
    is in the dict. *)
Definition all_bad (self : Simulation) : Prop :=
  forall q, _bad_atoms self !! q
            = if decide (q ∈ qids self) then Some true else None.

Lemma np_zeros_zero (n : nat) : Forall (eq 0%R) (np_zeros n).
Proof. unfold np_zeros. apply Forall_replicate. done. Qed.

Lemma prepare_dict_zero (self : Simulation) : zero_arrays (prepare_dict self).
Proof. repeat split; apply np_zeros_zero. Qed.

Lemma slice_zero_zero (tf : nat) (a : list R) :
  Forall (eq 0%R) a -> Forall (eq 0%R) (slice_zero tf a).
Proof.
  intros H. unfold slice_zero. apply list.Forall_forall. intros x Hx.
  apply elem_of_lookup_imap in Hx as (i & y & -> & Hy).
  case_bool_decide; [done|]. eapply (proj1 (list.Forall_forall _ _) H).
  by eapply list_elem_of_lookup_2.
Qed.

Lemma filter_all {A} (P : A -> Prop) `{!forall a, Decision (P a)} (l : list A) :
  Forall P l -> filter P l = l.
Proof.
  induction 1 as [|a l Ha Hl IH]; [done|].
  rewrite filter_cons_True by done. by rewrite IH.
Qed.

Lemma dict_set_Forall {V} (P : V -> Prop) (d : list (QubitId * V)) k v :
  Forall (fun kv => P kv.2) d -> P v ->
  Forall (fun kv => P kv.2) (dict_set d k v).
Proof.
  intros Hd Hv. induction Hd as [|[k' v'] d Hkv Hd IH]; simpl.
  - by constructor.
  - destruct (decide (k = k')); constructor; auto.
Qed.

Lemma dict_get_Forall {V} (P : V -> Prop) (d : list (QubitId * V)) k v :
  Forall (fun kv => P kv.2) d -> dict_get d k = Some v -> P v.
Proof.
  intros Hd. induction Hd as [|[k' v'] d Hkv Hd IH]; simpl; [done|].
  destruct (decide (k = k')); [by intros [= <-]|auto].
Qed.

(** [dict(zip(keys, [v] * len(keys)))] *)
Lemma foldl_insert_const {V} (keys : list QubitId) (v : V)
  (m0 : gmap QubitId V) (q : QubitId) :
  foldl (fun m (kv : QubitId * V) => <[kv.1 := kv.2]> m) m0
        ((fun k => (k, v)) <$> keys) !! q
  = if decide (q ∈ keys) then Some v else m0 !! q.
Proof.
  revert m0. induction keys as [|k keys IH]; intros m0; csimpl.
  - done.
  - rewrite IH. destruct (decide (q ∈ keys)) as [Hin|Hnin].
    + by rewrite decide_True by (by right).
    + destruct (decide (q = k)) as [->|Hne].
      * rewrite lookup_insert_eq. by rewrite decide_True by (by left).
      * rewrite lookup_insert_ne by done.
        rewrite decide_False; [done|]. by intros [?|?]%elem_of_cons.
Qed.

Lemma zip_replicate {V} (keys : list QubitId) (v : V) :
  zip keys (replicate (length keys) v) = (fun k => (k, v)) <$> keys.
Proof. induction keys as [|k keys IH]; csimpl; [done|]. by rewrite IH. Qed.

Lemma dict_zip_replicate {V} (keys : list QubitId) (v : V) (q : QubitId) :
  dict_zip keys (replicate (length keys) v) !! q
  = if decide (q ∈ keys) then Some v else None.
Proof.
  unfold dict_zip. rewrite zip_replicate, foldl_insert_const.
  by rewrite lookup_empty.
Qed.

(** With every atom bad and distinct qubit names, the bad atoms are as many
    as the qubits. *)
Lemma sum_bad_all (self : Simulation) :
  NoDup (qids self) -> all_bad self ->
  sum_bad (_bad_atoms self) = Z.of_nat (_size self).
Proof.
  intros Hnd Hbad. unfold sum_bad. f_equal.
  rewrite filter_all.
  - rewrite length_map_to_list, <- size_dom.
    assert (dom (_bad_atoms self) = list_to_set (qids self)) as ->.
    { apply set_eq. intros q. rewrite elem_of_dom, elem_of_list_to_set, Hbad.
      destruct (decide (q ∈ qids self)); split; try done. }
    rewrite size_list_to_set by done. unfold _size, qids. by rewrite length_fmap.
  - apply list.Forall_forall. intros [q v] Hqv%elem_of_map_to_list. simpl.
    rewrite Hbad in Hqv. by destruct (decide (q ∈ qids self)); simplify_eq.
Qed.


(** Partial correctness of a method: from an object that satisfies [P], the
    value returned and the object left satisfy [Q]. *)
Definition hoare {A} (P : Simulation -> Prop) (m : Sim A)
  (Q : A -> Simulation -> Prop) : Prop :=
  forall s a s', P s -> m s = (Ok a, s') -> Q a s'.

Lemma hoare_bind {A B} (P : Simulation -> Prop) (m : Sim A) (f : A -> Sim B)
  (Q1 : A -> Simulation -> Prop) (Q : B -> Simulation -> Prop) :
  hoare P m Q1 -> (forall a, hoare (Q1 a) (f a) Q) -> hoare P (sim_bind m f) Q.
Proof.
  intros Hm Hf s b s' HP H.
  apply sim_bind_ok_inv in H as (a & s1 & H1 & H2). eapply Hf; eauto.
Qed.

Lemma hoare_conseq {A} (P P' : Simulation -> Prop) (m : Sim A)
  (Q Q' : A -> Simulation -> Prop) :
  (forall s, P' s -> P s) -> (forall a s, Q a s -> Q' a s) ->
  hoare P m Q -> hoare P' m Q'.
Proof. intros HP HQ H s a s' Hs Hm. eapply HQ, H; eauto. Qed.

Lemma hoare_for {A} (I : Simulation -> Prop) (l : list A) (body : A -> Sim unit) :
  (forall a, a ∈ l -> hoare I (body a) (fun _ => I)) ->
  hoare I (sim_for l body) (fun _ => I).
Proof.
  induction l as [|a l IH]; intros H; simpl.
  - intros s [] s' Hs [=]. by subst.
  - eapply hoare_bind; [apply H; by left|]. intros ?.
    apply IH. intros a' Ha'. apply H. by right.
Qed.

(** A loop that appends nothing when no turn does. *)
Lemma hoare_concat_nil {A B} (I : Simulation -> Prop) (l : list A)
  (body : A -> Sim (list B)) :
  (forall a, a ∈ l -> hoare I (body a) (fun r s => r = [] /\ I s)) ->
  hoare I (sim_concat l body) (fun r s => r = [] /\ I s).
Proof.
  induction l as [|a l IH]; intros H; simpl.
  - intros s r s' Hs [=]. by subst.
  - intros s r s' Hs Hr.
    apply sim_bind_ok_inv in Hr as (x & s1 & Hx & Hr).
    apply sim_bind_ok_inv in Hr as (xs & s2 & Hxs & Hr).
    injection Hr as <- <-.
    destruct (H a (list_elem_of_here _ _) s x s1 Hs Hx) as [-> Hs1].
    eapply IH in Hxs as [-> Hs2]; [done| |done].
    intros a' Ha'. apply H. by right.
Qed.

(** The object is inert: every atom is badly prepared and no sample holds a
    drive. *)
Definition inert (s : Simulation) : Prop :=
  all_bad s /\ zero_samples (samples s).

Lemma zero_samples_put_local (smp : Samples) (b : Basis)
  (d : list (QubitId * SampleArrays)) :
  zero_samples smp ->
  Forall (fun qs : QubitId * SampleArrays => zero_arrays qs.2) d ->
  zero_samples (mkSamples (smp_keys smp) (smp_global smp)
                          (<[b := d]> (smp_local smp))).
Proof.
  intros H Hd b'. simpl. split; [apply H|].
  destruct (decide (b = b')) as [->|Hne].
  - by rewrite fn_lookup_insert.
  - rewrite fn_lookup_insert_ne by done. apply H.
Qed.

Lemma get_local_inv (b : Basis) s d s' :
  get_local b s = (Ok d, s') -> s' = s /\ d = smp_local (samples s) b.
Proof.
  unfold get_local, sim_bind, sim_get, sim_ret, sim_raise.
  case_bool_decide; [|done]. by intros [= <- <-].
Qed.

Lemma put_local_inert (b : Basis) (d : list (QubitId * SampleArrays)) s :
  inert s -> Forall (fun qs : QubitId * SampleArrays => zero_arrays qs.2) d ->
  inert (put_local b d s).2.
Proof.
  intros [Hb Hz] Hd. split; [exact Hb|]. by apply zero_samples_put_local.
Qed.

Lemma inert_local (b : Basis) s :
  inert s ->
  Forall (fun qs : QubitId * SampleArrays => zero_arrays qs.2)
         (smp_local (samples s) b).
Proof. intros [_ Hz]. apply Hz. Qed.

(** No sample is written for a badly prepared qubit: its entry is created,
    full of zeros, and left so. *)
Lemma write_local_qubit_inert slot p b g q :
  hoare inert (write_local_qubit E slot p b g true q) (fun _ => inert).
Proof.
  intros s a s' Hs H. unfold write_local_qubit in H.
  apply sim_bind_ok_inv in H as (d & s1 & Hd & H).
  apply get_local_inv in Hd as [-> ->].
  apply sim_bind_ok_inv in H as (self & s1 & [= <- <-] & H).
  apply sim_bind_ok_inv in H as ([] & s2 & H2 & H).
  assert (inert s2) as Hs2.
  { destruct (dict_has _ q).
    - by injection H2 as <-.
    - injection H2 as <-. apply (put_local_inert b _ s Hs).
      apply dict_set_Forall; [by apply inert_local|apply prepare_dict_zero]. }
  apply sim_bind_ok_inv in H as (bad & s3 & Hbad & H).
  injection Hbad as Hbad <-.
  destruct Hs as [Hb _]. rewrite Hb in Hbad.
  destruct (decide (q ∈ qids s)); [|done].
  injection Hbad as <-. injection H as _ <-. exact Hs2.
Qed.

Lemma extract_noisy_inert b g slots :
  hoare inert (extract_noisy E b g slots) (fun _ => inert).
Proof.
  unfold extract_noisy. eapply hoare_bind with (Q1 := fun _ => inert).
  - intros s d s' Hs Hd. by apply get_local_inv in Hd as [-> _].
  - intros _. apply hoare_for. intros slot _.
    destruct (type_ slot) as [p|].
    + apply hoare_for. intros q _. apply write_local_qubit_inert.
    + intros s [] s' Hs [=]. by subst.
Qed.

Lemma apply_slm_mask_inert b :
  hoare inert (apply_slm_mask b) (fun _ => inert).
Proof.
  intros s a s' Hs H. unfold apply_slm_mask in H.
  apply sim_bind_ok_inv in H as (self & s1 & [= <- <-] & H).
  destruct (_ && _); [|injection H as _ <-; exact Hs].
  apply sim_bind_ok_inv in H as (tf & s1 & [= _ <-] & H).
  revert H. generalize (_slm_mask_targets (_seq s)). intros l H.
  eapply hoare_for; [|exact Hs|exact H].
  clear. intros q _ s a s' Hs H.
  apply sim_bind_ok_inv in H as (d & s1 & Hd & H).
  apply get_local_inv in Hd as [-> ->].
  apply sim_bind_ok_inv in H as (arr & s1 & [= Harr <-] & H).
  injection H as _ <-. apply (put_local_inert b _ s Hs).
  apply dict_set_Forall; [by apply inert_local|].
  destruct (dict_get _ q) as [arr'|] eqn:Hq; [|done]. injection Harr as <-.
  eapply (dict_get_Forall zero_arrays) in Hq; [|by apply inert_local].
  destruct Hq as (?&?&?). repeat split; by apply slice_zero_zero.
Qed.


Lemma fmap_const_replicate {A B} (f : A -> B) (v : B) (l : list A) :
  (forall x, x ∈ l -> f x = v) -> f <$> l = replicate (length l) v.
Proof.
  induction l as [|a l IH]; csimpl; intros H; [done|].
  rewrite H by left. f_equal. apply IH. intros x Hx. apply H. by right.
Qed.

(** With [eta = 1] every draw of [_update_noise] marks its atom as bad. *)
Lemma _update_noise_all_bad s s' :
  has_noise "SPAM" (config E s) = true -> (eta (config E s) == 1)%Q ->
  (forall k, (uniform E k < 1)%Q) ->
  _update_noise E s = (Ok tt, s') -> all_bad s'.
Proof.
  intros Hspam Heta Hu.
  assert (Qltb 0 (eta (config E s)) = true) as H0.
  { apply Qltb_lt. rewrite Heta. reflexivity. }
  unfold _update_noise, sim_bind, sim_get, sim_modify, random_uniform,
    random_normal, sim_ret.
  rewrite Hspam, H0. cbn [andb].
  match goal with |- context [if ?c then _ else _] => destruct c end.
  all: intros [= <-]; intros q; simpl.
  all: rewrite <- list_fmap_compose.
  all: rewrite (fmap_const_replicate _ true)
         by (intros x _; apply Qltb_lt; simpl; rewrite Heta; apply Hu).
  all: rewrite length_seq; apply dict_zip_replicate.
Qed.

Lemma issubset_without (x : string) (a b : list string) :
  x ∈ a -> x ∉ b -> issubset a b = false.
Proof.
  unfold issubset. intros Ha Hb. induction a as [|y a IH]; [by inversion Ha|].
  simpl. case_bool_decide; [|done]. simpl. apply IH.
  inversion Ha; subst; done.
Qed.

(** With SPAM noise the samples are extracted atom by atom, and those of a
    bad atom are skipped: with every atom bad, no drive is written. *)
Lemma _extract_samples_inert s s' :
  has_noise "SPAM" (config E s) = true -> all_bad s ->
  _extract_samples E s = (Ok tt, s') -> inert s'.
Proof.
  intros Hspam Hbad H. unfold _extract_samples in H.
  apply sim_bind_ok_inv in H as (self & s1 & [= <- <-] & H).
  apply sim_bind_ok_inv in H as ([] & s1 & [= <-] & H).
  apply sim_bind_ok_inv in H as ([] & s2 & H2 & H).
  assert (inert s2) as Hs2.
  { assert (inert (set_samples (empty_samples (_interaction s)) s)) as [H0 H1].
    { split; [exact Hbad|]. intros b. simpl. split; [done|constructor]. }
    destruct (operators s); injection H2 as <-; split; done. }
  eapply hoare_for; [|exact Hs2|exact H].
  intros channel _.
  eapply hoare_bind with (Q1 := fun _ => inert).
  { intros s0 a s0' Hs0 [= _ <-]. done. }
  intros slots.
  eapply hoare_bind with (Q1 := fun _ => inert);
    [|intros ?; apply apply_slm_mask_inert].
  rewrite (issubset_without "SPAM"), andb_false_r.
  - apply extract_noisy_inert.
  - by apply bool_decide_eq_true in Hspam.
  - intros Hin. apply list_elem_of_singleton in Hin. discriminate Hin.
Qed.

Lemma np_any_nonzero_zero (c : list C) :
  Forall (eq C0) c -> np_any_nonzero c = false.
Proof.
  unfold np_any_nonzero. induction 1 as [|x c <- _ IH]; [done|].
  cbn [existsb]. destruct (Ceq_dec C0 C0); [exact IH|done].
Qed.

Lemma coeffs_of_zero (a : SampleArrays) :
  zero_arrays a -> Forall (fun c => np_any_nonzero c = false) (coeffs_of a).
Proof.
  intros (Ha & Hd & Hp). unfold coeffs_of.
  constructor; [|constructor; [|constructor]].
  - apply np_any_nonzero_zero. generalize (phase_arr a). clear Hd Hp.
    induction Ha as [|x l <- _ IH]; intros [|ph phs]; simpl; try constructor.
    + change (RtoC 0) with C0. by rewrite Cmul_0_r, Cmul_0_l.
    + apply IH.
  - apply np_any_nonzero_zero. apply Forall_fmap.
    eapply list.Forall_impl; [exact Hd|]. intros d <-. simpl.
    unfold C0, RtoC. f_equal. lra.
Qed.

(** Samples that are zero everywhere give no driving term. *)
Lemma build_coeffs_ops_local_inert (b : Basis) :
  hoare inert (build_coeffs_ops b Local) (fun r s => r = [] /\ inert s).
Proof.
  intros s r s' Hs H. unfold build_coeffs_ops in H.
  apply sim_bind_ok_inv in H as (self & s1 & [= <- <-] & H).
  apply sim_bind_ok_inv in H as (cache & s1 & [= _ <-] & H).
  pose proof (inert_local b s Hs) as Hl.
  eapply hoare_concat_nil; [|exact Hs|exact H].
  intros qs Hqs. eapply hoare_bind with (Q1 := fun _ => inert).
  { intros s0 [] s0' [Hb0 Hz0] [= <-].
    destruct (operators s0) as [c|]; [|done].
    destruct (ops_local c b !! qs.1); done. }
  intros _. apply hoare_concat_nil. intros [c o] Hco.
  apply elem_of_zip_l in Hco.
  assert (np_any_nonzero c = false) as Hc.
  { apply (proj1 (list.Forall_forall _ _) (coeffs_of_zero qs.2
             (proj1 (list.Forall_forall _ _) Hl qs Hqs)) c Hco). }
  unfold local_term. simpl. rewrite Hc.
  intros s0 r0 s0' Hs0 [=]. by subst.
Qed.

Lemma drive_terms_inert :
  hoare inert drive_terms (fun r s => r = [] /\ inert s).
Proof.
  intros s r s' Hs H. unfold drive_terms in H.
  apply sim_bind_ok_inv in H as (self & s1 & [= <- <-] & H).
  eapply hoare_concat_nil; [|exact Hs|exact H].
  intros addr _. apply hoare_concat_nil. intros b _.
  destruct addr; simpl.
  - destruct Hs as [_ Hz]. rewrite (proj1 (Hz b)).
    rewrite bool_decide_eq_true_2 by done. simpl.
    intros s0 r0 s0' Hs0 [=]. by subst.
  - destruct (negb _).
    + apply build_coeffs_ops_local_inert.
    + intros s0 r0 s0' Hs0 [=]. by subst.
Qed.

(** With every atom bad the effective size is 0: no interaction term. *)
Lemma interaction_terms_all_bad (s : Simulation) :
  NoDup (qids s) -> all_bad s -> interaction_terms s = Ok [].
Proof.
  intros Hnd Hbad. unfold interaction_terms.
  rewrite sum_bad_all by done. rewrite Z.sub_diag. simpl.
  by rewrite andb_false_r.
Qed.

(** With every atom bad, every pair of atoms is skipped by
    [make_interaction_term]. *)
Lemma skip_pair_all_bad (s : Simulation) (masked : bool) (q1 q2 : QubitId) :
  all_bad s -> q1 ∈ qids s -> skip_pair s masked q1 q2 = Ok true.
Proof.
  intros Hbad Hq. unfold skip_pair. rewrite (Hbad q1).
  by rewrite decide_True by done.
Qed.


(** The Hamiltonian stored is the zero operator at every time. *)
Definition zero_hamiltonian (s : Simulation) : Prop :=
  exists h, _hamiltonian s = Some h
            /\ forall k i j, data (evo_at h k) i j = C0.

Lemma assemble_hamiltonian_inert s s' :
  NoDup (qids s) -> inert s ->
  assemble_hamiltonian s = (Ok tt, s') ->
  inert s' /\ zero_hamiltonian s'.
Proof.
  intros Hnd Hs H. unfold assemble_hamiltonian in H.
  apply sim_bind_ok_inv in H as (self & s1 & [= <- <-] & H).
  apply sim_bind_ok_inv in H as (terms & s1 & [= Hint <-] & H).
  rewrite interaction_terms_all_bad in Hint by (done || apply Hs).
  injection Hint as <-.
  apply sim_bind_ok_inv in H as (drive & s1 & Hdrive & H).
  destruct (drive_terms_inert _ _ _ Hs Hdrive) as [-> Hs1].
  apply sim_bind_ok_inv in H as (self & s2 & [= <- <-] & H).
  simpl in H.
  apply sim_bind_ok_inv in H as (qobj_list & s2 & Hq & H).
  apply sim_bind_ok_inv in Hq as (z & s3 & [= Hz <-] & [= <- <-]).
  apply sim_bind_ok_inv in H as (ham & s2 & [= Hadd <-] & [= <-]).
  split; [exact Hs1|].
  unfold zero_operator in Hz.
  destruct (build_operator s1 _) as [op|]; [|done]. injection Hz as <-.
  unfold evo_add in Hadd. case_bool_decide; [|done]. injection Hadd as <-.
  eexists. split; [reflexivity|]. intros k i j. simpl.
  by rewrite !Cmul_0_l, Cconj_0, Cadd_0_l.
Qed.

(** C8.  With SPAM noise and [eta = 1] (the uniform draws being below 1),
    when [_construct_hamiltonian] draws the noise and extracts the samples,
    and when it is called on an object whose atoms are all bad and whose
    samples hold no drive (a realization of [run] that keeps the samples),
    the object it leaves has every atom marked as bad, samples without any
    drive, every pair skipped and no interaction term, and a Hamiltonian
    that is the zero operator at every time. *)
Theorem spam_all_bad_zero_hamiltonian (update_and_extract : bool)
  (self self' : Simulation) :
  NoDup (qids self) ->
  (if update_and_extract
   then has_noise "SPAM" (config E self) = true
        /\ (eta (config E self) == 1)%Q
        /\ (forall k, (uniform E k < 1)%Q)
   else inert self) ->
  _construct_hamiltonian E update_and_extract self = (Ok tt, self') ->
  (forall q, q ∈ qids self' -> _bad_atoms self' !! q = Some true)
  /\ zero_samples (samples self')
  /\ (forall masked q1 q2,
        q1 ∈ qids self' -> skip_pair self' masked q1 q2 = Ok true)
  /\ interaction_terms self' = Ok []
  /\ zero_hamiltonian self'.
Proof.
  intros Hnd Hpre H. unfold _construct_hamiltonian in H.
  apply sim_bind_ok_inv in H as ([] & s0 & [= <-] & H).
  apply sim_bind_ok_inv in H as ([] & s1 & H1 & H).
  assert (inert s1 /\ _seq s1 = _seq self) as [Hs1 Hseq1].
  { destruct update_and_extract.
    - destruct Hpre as (Hspam & Heta & Hu).
      apply sim_bind_ok_inv in H1 as ([] & s2 & Hn & Hx).
      pose proof (_update_noise_stable (log_event (EvConstruct true) self)) as Hst.
      rewrite Hn in Hst. destruct Hst as (Hseq & _ & _ & _ & Hcfg & _).
      simpl in Hseq, Hcfg.
      pose proof (_extract_samples_stable s2) as Hst.
      rewrite Hx in Hst. destruct Hst as (Hseq' & _). simpl in Hseq'.
      split; [|congruence].
      eapply _extract_samples_inert; [| |exact Hx].
      + unfold config. by rewrite Hcfg.
      + eapply _update_noise_all_bad; [| | |exact Hn]; done.
    - injection H1 as <-. split; [exact Hpre|done]. }
  apply sim_bind_ok_inv in H as ([] & s2 & H2 & H).
  assert (inert s2 /\ _seq s2 = _seq self) as [Hs2 Hseq2].
  { apply sim_bind_ok_inv in H2 as (s & s3 & [= <- <-] & H2).
    destruct (basis_name s1); injection H2 as <-; split; done. }
  assert (NoDup (qids s2)) as Hnd2.
  { unfold qids, _qdict. by rewrite Hseq2. }
  destruct (assemble_hamiltonian_inert _ _ Hnd2 Hs2 H) as [[Hbad Hz] Hzero].
  split; [|split; [exact Hz|split; [|split; [|exact Hzero]]]].
  - intros q Hq. rewrite (Hbad q). by rewrite decide_True.
  - intros masked q1 q2 Hq. by apply skip_pair_all_bad.
  - apply interaction_terms_all_bad; [|done].
    pose proof (assemble_hamiltonian_stable s2) as Hst. rewrite H in Hst.
    destruct Hst as (Hseq & _). simpl in Hseq.
    unfold qids, _qdict. rewrite Hseq. by rewrite Hseq2.
Qed.


(* ================================================================= *)
(** ** Dephasing on the digital basis (C6) *)

(** Installing a configuration always returns; it stores the configuration
    and leaves the sequence and the basis alone. *)
Lemma install_config_spec (cfg : SimConfig) (s : Simulation) :
  (install_config cfg s).1 = Ok tt
  /\ _config (install_config cfg s).2 = Some cfg
  /\ _seq (install_config cfg s).2 = _seq s
  /\ basis_name (install_config cfg s).2 = basis_name s.
Proof.
  unfold install_config, sim_bind, sim_get, sim_modify, sim_ret. simpl.
  destruct (negb (_ && _)), (negb (has_noise "doppler" cfg)); simpl; done.
Qed.

(** What [set_config] does once the new configuration is installed, the
    Hamiltonian rebuilt and the basis found to be digital or all: it goes
    back to a previous configuration without dephasing, then raises. *)
Lemma set_config_at_back (depth : nat) (prev : SimConfig) (s1 : Simulation) :
  issubset (noise prev) (SUPPORTED_NOISE (_interaction s1)) = true ->
  has_noise "dephasing" prev = false ->
  exists e s3,
    (set_config_at E (S depth) prev ;; sim_raise (A := unit) NotImplementedError) s1
    = (Raise e, s3)
    /\ _config s3 = Some prev
    /\ (_construct_hamiltonian E true (install_config prev s1).2).2 = s3.
Proof.
  intros Hsup Hdeph. cbn [set_config_at]. unfold sim_bind at 1 2. unfold sim_get at 1.
  rewrite Hsup. cbn [negb].
  destruct (install_config_spec prev s1) as (Hok & Hcfg & _).
  unfold sim_bind at 1.
  destruct (install_config prev s1) as [r s2]. simpl in Hok, Hcfg. subst r.
  pose proof (_construct_hamiltonian_stable true s2) as Hst.
  unfold sim_bind at 1. cbn [snd].
  destruct (_construct_hamiltonian E true s2) as [[[]|e] s3]; simpl in *.
  - rewrite Hdeph. unfold sim_ret, sim_raise.
    exists NotImplementedError, s3. split; [done|]. split; [|done].
    destruct Hst as (_ & _ & _ & _ & -> & _). done.
  - exists e, s3. split; [done|]. split; [|done].
    destruct Hst as (_ & _ & _ & _ & -> & _). done.
Qed.

(** C6.  The object holds a configuration [prev] that is supported and
    without dephasing.  When [set_config] is given a supported configuration
    with dephasing, the Hamiltonian is rebuilt under it and the basis is
    then digital or all, [set_config] raises and the configuration stored
    when it does is [prev] again; the error is [NotImplementedError] when the
    Hamiltonian can be rebuilt under [prev]. *)
Theorem set_config_dephasing_rollback (cfg prev : SimConfig)
  (self s1 : Simulation) :
  _config self = Some prev ->
  issubset (noise prev) (SUPPORTED_NOISE (_interaction self)) = true ->
  has_noise "dephasing" prev = false ->
  issubset (noise cfg) (SUPPORTED_NOISE (_interaction self)) = true ->
  has_noise "dephasing" cfg = true ->
  _construct_hamiltonian E true (install_config cfg self).2 = (Ok tt, s1) ->
  basis_name s1 = Some bn_digital \/ basis_name s1 = Some bn_all ->
  exists e self',
    set_config E cfg self = (Raise e, self')
    /\ _config self' = Some prev
    /\ config E self' = config E self
    /\ ((_construct_hamiltonian E true (install_config prev s1).2).1 = Ok tt ->
        e = NotImplementedError).
Proof.
  intros Hprev Hsup Hdeph Hsup' Hdeph' Hs1 Hbn.
  unfold set_config. change recursion_limit with (S (S (pred (pred recursion_limit)))).
  cbn [set_config_at]. unfold sim_bind at 1 2. unfold sim_get at 1.
  rewrite Hsup'. cbn [negb].
  destruct (install_config_spec cfg self) as (Hok & _ & Hseq & _).
  unfold sim_bind at 1.
  destruct (install_config cfg self) as [r s0]. simpl in Hok, Hseq, Hs1. subst r.
  unfold sim_bind at 1. rewrite Hs1. rewrite Hdeph'.
  unfold sim_bind at 1. unfold sim_get at 1.
  assert (bool_decide (basis_name s1 = Some bn_digital)
          || bool_decide (basis_name s1 = Some bn_all) = true) as ->.
  { destruct Hbn as [-> | ->]; done. }
  pose proof (_construct_hamiltonian_stable true s0) as Hst.
  rewrite Hs1 in Hst. destruct Hst as (Hseq1 & _). simpl in Hseq1.
  assert (config E self = prev) as Hc by (unfold config; by rewrite Hprev).
  rewrite Hc.
  destruct (set_config_at_back (pred (pred recursion_limit)) prev s1)
    as (e & s3 & Hback & Hcfg3 & Hs3); [|done|].
  { unfold _interaction. by rewrite Hseq1, Hseq. }
  exists e, s3. split; [exact Hback|]. split; [exact Hcfg3|].
  split; [unfold config; by rewrite Hcfg3|].
  intros Hok.
  revert Hback. cbn [set_config_at]. unfold sim_bind at 1 2. unfold sim_get at 1.
  assert (issubset (noise prev) (SUPPORTED_NOISE (_interaction s1)) = true) as ->.
  { unfold _interaction. by rewrite Hseq1, Hseq. }
  cbn [negb]. unfold sim_bind at 1.
  destruct (install_config_spec prev s1) as (Hok' & _).
  destruct (install_config prev s1) as [r s2]. simpl in Hok', Hok. subst r.
  unfold sim_bind at 1.
  destruct (_construct_hamiltonian E true s2) as [[[]|e'] s4]; simpl in Hok; [|done].
  rewrite Hdeph. by intros [= <- _].
Qed.


(* ================================================================= *)
(** ** What a run records (C2, C3) *)

Lemma random_uniform_silent n : sim_preserves silent (random_uniform E n).
Proof. intros s. solve_rel. Qed.
Lemma random_normal_silent mu sigma n :
  sim_preserves silent (random_normal E mu sigma n).
Proof. intros s. solve_rel. Qed.
Lemma random_normal1_silent mu sigma :
  sim_preserves silent (random_normal1 E mu sigma).
Proof. intros s. solve_rel. Qed.
Lemma sample_silent res t n : sim_preserves silent (sample E res t n).
Proof. intros s. solve_rel. Qed.
Hint Resolve random_uniform_silent random_normal_silent random_normal1_silent
  sample_silent : preserves.

Lemma _update_noise_silent : sim_preserves silent (_update_noise E).
Proof. unfold _update_noise. preserves. Qed.
Lemma write_samples_silent slot p d g q :
  sim_preserves silent (write_samples E slot p d g q).
Proof. unfold write_samples. preserves. Qed.
Lemma get_local_silent b : sim_preserves silent (get_local b).
Proof. unfold get_local. preserves. Qed.
Lemma put_local_silent b d : sim_preserves silent (put_local b d).
Proof. unfold put_local. preserves. Qed.
Lemma get_global_silent b : sim_preserves silent (get_global b).
Proof. unfold get_global. preserves. Qed.
Lemma put_global_silent b d : sim_preserves silent (put_global b d).
Proof. unfold put_global. preserves. Qed.
Hint Resolve _update_noise_silent write_samples_silent get_local_silent
  put_local_silent get_global_silent put_global_silent : preserves.

Lemma write_local_qubit_silent slot p b g k q :
  sim_preserves silent (write_local_qubit E slot p b g k q).
Proof. unfold write_local_qubit. preserves. Qed.
Hint Resolve write_local_qubit_silent : preserves.

Lemma extract_coherent_global_silent b slots slm_on :
  sim_preserves silent (extract_coherent_global E b slots slm_on).
Proof.
  revert slm_on. induction slots as [|slot rest IH]; intros slm_on; simpl.
  - preserves.
  - preserves.
Qed.
Lemma extract_noisy_silent b g slots :
  sim_preserves silent (extract_noisy E b g slots).
Proof. unfold extract_noisy. preserves. Qed.
Lemma apply_slm_mask_silent b : sim_preserves silent (apply_slm_mask b).
Proof. unfold apply_slm_mask. preserves. Qed.
Hint Resolve extract_coherent_global_silent extract_noisy_silent
  apply_slm_mask_silent : preserves.

Lemma _extract_samples_silent : sim_preserves silent (_extract_samples E).
Proof. unfold _extract_samples. preserves. Qed.
Hint Resolve _extract_samples_silent : preserves.

Lemma _build_basis_and_op_matrices_settled :
  sim_preserves settled _build_basis_and_op_matrices.
Proof. unfold _build_basis_and_op_matrices. preserves. Qed.
Lemma global_term_settled b o c : sim_preserves settled (global_term b o c).
Proof. unfold global_term. preserves. Qed.
Lemma local_term_settled b q o c : sim_preserves settled (local_term b q o c).
Proof. unfold local_term. preserves. Qed.
Hint Resolve _build_basis_and_op_matrices_settled global_term_settled
  local_term_settled : preserves.

Lemma build_coeffs_ops_settled b a : sim_preserves settled (build_coeffs_ops b a).
Proof.
  unfold build_coeffs_ops. preserves.
  apply preserves_modify. intros s.
  destruct (operators s) as [cache|]; [|reflexivity].
  destruct (ops_local cache b !! _); [reflexivity|solve_rel].
Qed.
Hint Resolve build_coeffs_ops_settled : preserves.

Lemma drive_terms_settled : sim_preserves settled drive_terms.
Proof. unfold drive_terms. preserves. Qed.
Hint Resolve drive_terms_settled : preserves.

Lemma assemble_hamiltonian_settled : sim_preserves settled assemble_hamiltonian.
Proof. unfold assemble_hamiltonian. preserves. Qed.
Hint Resolve assemble_hamiltonian_settled : preserves.

Hint Extern 5 (sim_preserves silent _) =>
  apply (preserves_weaken settled silent _ settled_silent) : preserves.

(** [_construct_hamiltonian] records its call and nothing else, whether it
    returns or raises. *)
Lemma _construct_hamiltonian_trace u s :
  trace (_construct_hamiltonian E u s).2 = trace s ++ [EvConstruct u].
Proof.
  unfold _construct_hamiltonian. unfold sim_bind at 1. unfold sim_modify at 1.
  match goal with |- trace (?m ?s0).2 = _ =>
    assert (sim_preserves silent m) as Hm end.
  { preserves. }
  rewrite (Hm _). done.
Qed.

(** Without update it leaves the preparation failures as they are. *)
Lemma _construct_hamiltonian_bad_atoms s :
  _bad_atoms (_construct_hamiltonian E false s).2 = _bad_atoms s.
Proof.
  unfold _construct_hamiltonian. unfold sim_bind at 1. unfold sim_modify at 1.
  match goal with |- _bad_atoms (?m ?s0).2 = _ =>
    assert (sim_preserves settled m) as Hm end.
  { preserves. }
  destruct (Hm (log_event (EvConstruct false) s)) as [_ ->]. done.
Qed.


(** The multiplicity that goes with an item of the loop of [run]. *)
Definition item_reps (item : option (Bitstring * nat)) : nat :=
  match item with Some (_, reps) => reps | None => 1 end.

(** What one turn of the loop records: the call of
    [_construct_hamiltonian], then the call of the solver. *)
Definition turn_events (item : option (Bitstring * nat)) (c : SolverCall)
  : list Event :=
  [EvConstruct (bool_decide (item = None)); EvSolve c].

(** What the solver returns for a call. *)
Definition solver_states (c : SolverCall) : list Qobj :=
  if sc_dephasing c
  then mesolve E (sc_hamiltonian c) (sc_collapse_ops c) (sc_initial_state c)
               (sc_times c) (sc_p_bar c) (sc_options c)
  else sesolve E (sc_hamiltonian c) (sc_initial_state c) (sc_times c)
               (sc_p_bar c) (sc_options c).

Lemma _run_solver_stable meas : sim_preserves stable (_run_solver E meas).
Proof. unfold _run_solver. preserves. Qed.
Hint Resolve _run_solver_stable : preserves.

Lemma _run_solver_spec meas s res s' :
  _run_solver E meas s = (Ok res, s') ->
  exists c, s' = log_event (EvSolve c) s
            /\ sc_bad_atoms c = _bad_atoms s
            /\ _hamiltonian s = Some (sc_hamiltonian c)
            /\ cr_states res = solver_states c
            /\ cr_meas_errors res = meas_errors meas
            /\ sc_options c = solv_ops meas
            /\ p_bar_of (progress_bar meas) = Ok (sc_p_bar c).
Proof.
  intros H. unfold _run_solver in H.
  apply sim_bind_ok_inv in H as (p_bar & s1 & [= Hbar <-] & H).
  apply sim_bind_ok_inv in H as (self & s1 & [= <- <-] & H).
  apply sim_bind_ok_inv in H as (ham & s1 & [= Hham <-] & H).
  apply sim_bind_ok_inv in H as ([] & s1 & [= <-] & [= <- <-]).
  eexists. split; [reflexivity|]. simpl.
  destruct (_hamiltonian s) as [h|]; [|done]. injection Hham as ->.
  unfold solver_states. simpl. done.
Qed.

(** The samples drawn at each evaluation time. *)
Definition sampled (res : CoherentResults) (n : nat) (t : Q) (cnt : Counter)
  : Prop :=
  exists pos, cnt = sample_state E res t n pos.

Lemma sim_map_sample res n times s counts s' :
  sim_map times (fun t => sample E res t n) s = (Ok counts, s') ->
  Forall2 (sampled res n) times counts /\ trace s' = trace s /\ stable s s'.
Proof.
  revert s counts. induction times as [|t times IH]; intros s counts H; simpl in H.
  - injection H as <- <-. split; [constructor|]. split; reflexivity.
  - apply sim_bind_ok_inv in H as (cnt & s1 & [= <- <-] & H).
    apply sim_bind_ok_inv in H as (cnts & s2 & H & [= <- <-]).
    apply IH in H as (Hall & Htr & Hst). split; [|split].
    + constructor; [by eexists|done].
    + by rewrite Htr.
    + etrans; [|exact Hst]. solve_rel.
Qed.

Lemma run_iteration_spec meas tc item s tc' s' :
  run_iteration E meas tc item s = (Ok tc', s') ->
  exists c res counts,
    trace s' = trace s ++ turn_events item c
    /\ (forall bits reps, item = Some (bits, reps) ->
          sc_bad_atoms c = dict_zip (qids s) bits)
    /\ (exists s2, _construct_hamiltonian E (bool_decide (item = None))
                     (if item is Some (bits, _)
                      then set_bad_atoms (dict_zip (qids s) bits) s else s)
                   = (Ok tt, s2)
                   /\ _hamiltonian s2 = Some (sc_hamiltonian c))
    /\ cr_states res = solver_states c
    /\ tc' = zip_with (fun a b : Counter => a ⊎ b) tc counts
    /\ Forall2 (sampled res (samples_per_run (config E s) * item_reps item))
               (_eval_times_array s) counts
    /\ stable s s'.
Proof.
  intros H. unfold run_iteration in H.
  apply sim_bind_ok_inv in H as (reps & s1 & H1 & H).
  assert (s1 = (if item is Some (bits, _)
                then set_bad_atoms (dict_zip (qids s) bits) s else s)
          /\ reps = item_reps item) as [Hs1 ->].
  { destruct item as [[bits r]|]; simpl.
    - apply sim_bind_ok_inv in H1 as (self & s0 & [= <- <-] & H1).
      apply sim_bind_ok_inv in H1 as ([] & s0 & [= <-] & [= <- <-]). done.
    - by injection H1 as <- <-. }
  assert (stable s s1) as Hst1.
  { rewrite Hs1. destruct item as [[bits r]|]; [solve_rel|reflexivity]. }
  apply sim_bind_ok_inv in H as ([] & s2 & H2 & H).
  pose proof (_construct_hamiltonian_trace (bool_decide (item = None)) s1) as Htr2.
  pose proof (_construct_hamiltonian_stable (bool_decide (item = None)) s1) as Hst2.
  rewrite H2 in Htr2, Hst2. simpl in Htr2, Hst2.
  apply sim_bind_ok_inv in H as (res & s3 & H3 & H).
  pose proof (_run_solver_stable meas s2) as Hst3. rewrite H3 in Hst3. simpl in Hst3.
  apply _run_solver_spec in H3 as (c & -> & Hbad & Hham & Hstates & _).
  apply sim_bind_ok_inv in H as (self & s4 & [= <- <-] & H).
  apply sim_bind_ok_inv in H as (counts & s4 & H4 & [= <- <-]).
  apply sim_map_sample in H4 as (Hall & Htr4 & Hst4).
  assert (stable s (log_event (EvSolve c) s2)) as Hst.
  { etrans; [exact Hst1|]. etrans; [exact Hst2|exact Hst3]. }
  exists c, res, counts. split; [|split; [|split; [|split; [|split; [|split]]]]].
  - rewrite Htr4. simpl. rewrite Htr2. rewrite <- app_assoc. simpl.
    f_equal. rewrite Hs1. by destruct item as [[bits r]|].
  - intros bits r ->. rewrite Hbad.
    pose proof (_construct_hamiltonian_bad_atoms s1) as Hb.
    rewrite bool_decide_eq_false_2 in H2 by done. rewrite H2 in Hb.
    simpl in Hb. rewrite Hb, Hs1. done.
  - exists s2. rewrite <- Hs1. done.
  - exact Hstates.
  - done.
  - destruct Hst as (_ & _ & _ & Heval & Hcfg & _). simpl in Heval, Hcfg.
    unfold config in *. simpl in Hall. rewrite Heval, Hcfg in Hall. exact Hall.
  - etrans; [exact Hst|exact Hst4].
Qed.

Lemma run_loop_spec meas items : forall tc s tc' s',
  run_loop E meas items tc s = (Ok tc', s') ->
  exists calls ress countss,
    trace s' = trace s ++ concat (zip_with turn_events items calls)
    /\ Forall2 (fun item c => forall bits reps, item = Some (bits, reps) ->
                  sc_bad_atoms c = dict_zip (qids s) bits) items calls
    /\ tc' = foldl (zip_with (fun a b : Counter => a ⊎ b)) tc countss
    /\ Forall3 (fun item res counts =>
                  Forall2 (sampled res
                             (samples_per_run (config E s) * item_reps item))
                          (_eval_times_array s) counts)
               items ress countss
    /\ stable s s'
    /\ Forall2 (fun c res => cr_states res = solver_states c) calls ress.
Proof.
  induction items as [|item items IH]; intros tc s tc' s' H; simpl in H.
  - injection H as <- <-. exists [], [], []. simpl. rewrite app_nil_r.
    split; [done|]. split; [constructor|]. split; [done|].
    split; [constructor|]. split; [reflexivity|constructor].
  - apply sim_bind_ok_inv in H as (tc1 & s1 & H1 & H).
    apply run_iteration_spec in H1
      as (c & res & counts & Htr1 & Hbad1 & _ & Hres1 & -> & Hall1 & Hst1).
    apply IH in H
      as (calls & ress & countss & Htr & Hbad & -> & Hall & Hst & Hres).
    assert (qids s1 = qids s) as Hq.
    { unfold qids, _qdict. by destruct Hst1 as (-> & _). }
    assert (config E s1 = config E s /\ _eval_times_array s1 = _eval_times_array s)
      as [Hc He].
    { unfold config. by destruct Hst1 as (_ & _ & _ & -> & -> & _). }
    exists (c :: calls), (res :: ress), (counts :: countss).
    split; [|split; [|split; [|split; [|split]]]].
    + rewrite Htr, Htr1. simpl. by rewrite <- app_assoc.
    + constructor; [exact Hbad1|]. by rewrite <- Hq.
    + done.
    + constructor; [exact Hall1|]. by rewrite <- Hc, <- He.
    + etrans; [exact Hst1|exact Hst].
    + by constructor.
Qed.


(** The guard of [run] leaves the object as it is. *)
Lemma spam_guard_inv s meas s' :
  spam_guard E s = (Ok meas, s') -> s' = s.
Proof.
  unfold spam_guard, sim_bind, sim_get, sim_lift, sim_ret, sim_raise.
  destruct (has_noise "SPAM" _); [|by intros [= _ <-]].
  destruct (Qltb 0 _); [|by intros [= _ <-]].
  destruct (all_in_state s "g"); [|done].
  destruct (Qobj_ne E _ _); [done|by intros [= _ <-]].
Qed.

(** One Bernoulli draw over the [n] atoms, read from the uniform stream at
    position [pos]: an atom fails when its draw is below [p]. *)
Definition bernoulli_draw (p : Q) (n pos : nat) : Bitstring :=
  (fun j => Qltb (uniform E (pos + j)) p) <$> seq 0 n.

Lemma sim_map_draws {A} (p : Q) (n : nat) (l : list A) : forall s draws s',
  sim_map l (fun _ => u <- random_uniform E n ;;
                      sim_ret ((fun x => Qltb x p) <$> u)) s = (Ok draws, s') ->
  draws = (fun i => bernoulli_draw p n (rng_pos s + i * n)) <$> seq 0 (length l)
  /\ s' = set_rng_pos (rng_pos s + length l * n) s.
Proof.
  induction l as [|a l IH]; intros s draws s' H; simpl in H.
  - injection H as <- <-. split; [done|]. destruct s; unfold set_rng_pos; simpl.
    by rewrite Nat.add_0_r.
  - apply sim_bind_ok_inv in H as (d & s1 & H1 & H).
    apply sim_bind_ok_inv in H1 as (u & s0 & [= <- <-] & [= <- <-]).
    apply sim_bind_ok_inv in H as (ds & s2 & H & [= <- <-]).
    apply IH in H as [-> ->]. simpl. split.
    + f_equal.
      * unfold bernoulli_draw. rewrite <- list_fmap_compose.
        apply list_fmap_ext. intros i j _. simpl. by rewrite Nat.add_0_r.
      * rewrite <- fmap_S_seq, <- list_fmap_compose.
        apply list_fmap_ext. intros i j _. simpl. f_equal. lia.
    + unfold set_rng_pos. simpl. f_equal. lia.
Qed.

(** The items of the loop of [run], and the object when the loop starts:
    the distinct draws with their counts, or [runs] turns that each redraw
    the noise. *)
Definition run_draws (self : Simulation) : list Bitstring :=
  (fun i => bernoulli_draw (eta (config E self)) (length (qids self))
              (rng_pos self + i * length (qids self)))
  <$> seq 0 (runs (config E self)).

Definition run_items (self : Simulation) : list (option (Bitstring * nat)) :=
  if issubset (noise (config E self)) ["dephasing"; "SPAM"]
  then Some <$> most_common (counter_of (run_draws self))
  else replicate (runs (config E self)) None.

Definition single_solve (cfg : SimConfig) : bool :=
  issubset (noise cfg) ["dephasing"; "SPAM"]
  && (negb (has_noise "SPAM" cfg) || Qeq_bool (eta cfg) 0).

(** [run], taken apart: after the options of the solver and the guard,
    either one call of the solver whose result is returned, or the loop over
    the items followed by the normalisation. *)
Lemma run_inv (pb : ProgressBar) (options : gmap string Q)
  (self self' : Simulation) (res : SimulationResults) :
  run E pb options self = (Ok res, self') ->
  exists meas,
    (spam_guard E self = (Ok (meas_errors meas), self)
     /\ progress_bar meas = pb
     /\ solver_options E options self = (Ok (solv_ops meas), self))
    /\ if single_solve (config E self) then
         exists r, _run_solver E meas self = (Ok r, self') /\ res = Coherent r
       else
         exists s0 tc r,
           stable self s0 /\ trace s0 = trace self
           /\ run_loop E meas (run_items self)
                (replicate (length (_eval_times_array self)) ∅) s0 = (Ok tc, self')
           /\ mapM_ok (normalize (runs (config E self)
                                  * samples_per_run (config E self))) tc
              = Ok (nr_run_prob r)
           /\ nr_n_measures r
              = runs (config E self) * samples_per_run (config E self)
           /\ res = Noisy r.
Proof.
  intros H. unfold run in H.
  apply sim_bind_ok_inv in H as (so & s1 & Hso & H).
  destruct (solver_options_cases options self) as [[so' Hso']|[e Hso']];
    rewrite Hso' in Hso; [|done]. injection Hso as -> <-.
  apply sim_bind_ok_inv in H as (meas & s1 & Hg & H).
  pose proof (spam_guard_inv _ _ _ Hg) as ->.
  exists (mkRunFrame pb so meas). split; [by repeat split|].
  apply sim_bind_ok_inv in H as (s & s1 & [= <- <-] & H).
  apply sim_bind_ok_inv in H as (items & s0 & Hitems & H).
  unfold single_solve, run_items.
  destruct (issubset _ _); simpl.
  - destruct (negb _ || _); simpl.
    + injection Hitems as <- <-.
      apply sim_bind_ok_inv in H as (r & s1 & Hr & [= <- <-]). eauto.
    + apply sim_bind_ok_inv in Hitems as (draws & s1 & Hd & [= <- <-]).
      apply sim_map_draws in Hd as [-> ->]. rewrite length_seq in H.
      unfold run_draws.
      apply sim_bind_ok_inv in H as (tc & s1 & Hloop & H).
      apply sim_bind_ok_inv in H as (prob & s2 & [= Hprob <-] & H).
      apply sim_bind_ok_inv in H as (s3 & s4 & [= <- <-] & [= <- <-]).
      eexists _, tc, (mkNoisyResults prob _ _ _ _).
      split; [|split; [|split; [exact Hloop|]]].
      * solve_rel.
      * done.
      * simpl. split; [exact Hprob|]. split; reflexivity.
  - injection Hitems as <- <-.
    apply sim_bind_ok_inv in H as (tc & s1 & Hloop & H).
    apply sim_bind_ok_inv in H as (prob & s2 & [= Hprob <-] & H).
    apply sim_bind_ok_inv in H as (s3 & s4 & [= <- <-] & [= <- <-]).
    eexists _, tc, (mkNoisyResults prob _ _ _ _).
    split; [|split; [|split; [exact Hloop|]]].
    * reflexivity.
    * done.
    * simpl. split; [exact Hprob|]. split; reflexivity.
Qed.


(** *** Counting the draws *)

(** [c[k]] on a [Counter]: the count of [k], 0 when it is absent. *)
Fixpoint lookup_count (k : Bitstring) (c : list (Bitstring * nat)) : nat :=
  match c with
  | [] => 0
  | (k', n) :: c' => if decide (k = k') then n else lookup_count k c'
  end.

Lemma counter_incr_keys k c d :
  d ∈ (counter_incr k c).*1 <-> d = k \/ d ∈ c.*1.
Proof.
  induction c as [|[k' n] c IH]; simpl.
  - rewrite list_elem_of_singleton, elem_of_nil. tauto.
  - destruct (decide (k = k')) as [->|Hne]; csimpl.
    + rewrite !elem_of_cons. tauto.
    + rewrite !elem_of_cons, IH. tauto.
Qed.

Lemma counter_incr_NoDup k c : NoDup c.*1 -> NoDup (counter_incr k c).*1.
Proof.
  induction c as [|[k' n] c IH]; simpl; intros Hnd.
  - apply NoDup_singleton.
  - apply list.NoDup_cons in Hnd as [Hk' Hnd].
    destruct (decide (k = k')) as [->|Hne]; csimpl.
    + by apply list.NoDup_cons.
    + apply list.NoDup_cons. split; [|auto].
      rewrite counter_incr_keys. intros [?|?]; [congruence|done].
Qed.

Lemma counter_incr_sum k c :
  sum_list (counter_incr k c).*2 = S (sum_list c.*2).
Proof.
  induction c as [|[k' n] c IH]; simpl; [done|].
  destruct (decide (k = k')); csimpl; [done|]. rewrite IH. lia.
Qed.

Lemma counter_incr_lookup k k' c :
  lookup_count k (counter_incr k' c)
  = lookup_count k c + (if decide (k = k') then 1 else 0).
Proof.
  induction c as [|[k'' n] c IH]; simpl.
  - destruct (decide (k = k')); done.
  - destruct (decide (k' = k'')) as [->|Hne]; simpl.
    + destruct (decide (k = k'')); [lia|lia].
    + destruct (decide (k = k'')) as [->|Hne'].
      * rewrite decide_False by done. lia.
      * exact IH.
Qed.

(** [Counter(l)] has one entry per distinct element of [l], with the
    number of its occurrences. *)
Lemma counter_of_spec (l : list Bitstring) :
  NoDup (counter_of l).*1
  /\ (forall d, d ∈ (counter_of l).*1 <-> d ∈ l)
  /\ sum_list (counter_of l).*2 = length l
  /\ forall k, lookup_count k (counter_of l) = length (filter (eq k) l).
Proof.
  unfold counter_of.
  assert (forall c0,
    NoDup c0.*1 ->
    NoDup (foldl (fun c k => counter_incr k c) c0 l).*1
    /\ (forall d, d ∈ (foldl (fun c k => counter_incr k c) c0 l).*1
                  <-> d ∈ c0.*1 \/ d ∈ l)
    /\ sum_list (foldl (fun c k => counter_incr k c) c0 l).*2
       = sum_list c0.*2 + length l
    /\ forall k, lookup_count k (foldl (fun c k => counter_incr k c) c0 l)
                 = lookup_count k c0 + length (filter (eq k) l)) as H.
  { induction l as [|x l IH]; intros c0 Hnd; simpl.
    - split; [done|]. split; [intros d; rewrite elem_of_nil; tauto|].
      split; [lia|]. intros k. lia.
    - destruct (IH (counter_incr x c0)) as (H1 & H2 & H3 & H4);
        [by apply counter_incr_NoDup|].
      split; [exact H1|]. split; [|split].
      + intros d. rewrite H2, counter_incr_keys, elem_of_cons. tauto.
      + rewrite H3, counter_incr_sum. lia.
      + intros k. rewrite H4, counter_incr_lookup.
        rewrite filter_cons. destruct (decide (k = x)); simpl; lia. }
  destruct (H [] (NoDup_nil_2)) as (H1 & H2 & H3 & H4).
  split; [exact H1|]. split; [|split; [exact H3|exact H4]].
  intros d. rewrite H2. csimpl. rewrite elem_of_nil. tauto.
Qed.

Lemma insert_by_count_perm x l : insert_by_count x l ≡ₚ x :: l.
Proof.
  induction l as [|y l IH]; simpl; [done|].
  destruct (y.2 <=? x.2); [done|]. rewrite IH. apply Permutation_swap.
Qed.

(** [most_common] only reorders the entries. *)
Lemma most_common_perm c : most_common c ≡ₚ c.
Proof.
  unfold most_common. induction c as [|x c IH]; simpl; [done|].
  by rewrite insert_by_count_perm, IH.
Qed.

Lemma lookup_count_elem_of k n c :
  NoDup c.*1 -> (k, n) ∈ c -> lookup_count k c = n.
Proof.
  induction c as [|[k' n'] c IH]; csimpl; intros Hnd Hin.
  - by apply elem_of_nil in Hin.
  - apply list.NoDup_cons in Hnd as [Hk' Hnd].
    apply elem_of_cons in Hin as [[= -> ->]|Hin].
    + by rewrite decide_True.
    + rewrite decide_False; [auto|]. intros ->. apply Hk'.
      apply list_elem_of_fmap. by exists (k', n).
Qed.

(** The items of [most_common (counter_of draws)]: the distinct draws,
    each with the number of its occurrences; the counts add up to the
    number of draws. *)
Lemma most_common_counter_of (draws : list Bitstring) :
  NoDup (most_common (counter_of draws)).*1
  /\ (forall d, d ∈ (most_common (counter_of draws)).*1 <-> d ∈ draws)
  /\ sum_list (most_common (counter_of draws)).*2 = length draws
  /\ forall k n, (k, n) ∈ most_common (counter_of draws) ->
                 n = length (filter (eq k) draws).
Proof.
  destruct (counter_of_spec draws) as (H1 & H2 & H3 & H4).
  pose proof (most_common_perm (counter_of draws)) as Hp.
  split; [by rewrite Hp|]. split; [|split].
  - intros d. by rewrite Hp.
  - by rewrite Hp.
  - intros k n Hin. rewrite Hp in Hin. rewrite <- H4.
    symmetry. by apply lookup_count_elem_of.
Qed.


(** *** The three regimes of [run] (C2) *)

(** The regimes, by the noise set: a single solve; one solve per drawn
    configuration of bad atoms; one solve per run, the noise redrawn. *)
Definition regime_single (cfg : SimConfig) : Prop :=
  issubset (noise cfg) ["dephasing"; "SPAM"] = true
  /\ (has_noise "SPAM" cfg = false \/ (eta cfg == 0)%Q).

Definition regime_configurations (cfg : SimConfig) : Prop :=
  issubset (noise cfg) ["dephasing"; "SPAM"] = true
  /\ has_noise "SPAM" cfg = true /\ (0 < eta cfg)%Q.

Definition regime_resampled (cfg : SimConfig) : Prop :=
  issubset (noise cfg) ["dephasing"; "SPAM"] = false.

Lemma regime_cases (cfg : SimConfig) :
  (0 <= eta cfg)%Q ->
  (single_solve cfg = true /\ regime_single cfg
   /\ ~ regime_configurations cfg /\ ~ regime_resampled cfg)
  \/ (single_solve cfg = false
      /\ issubset (noise cfg) ["dephasing"; "SPAM"] = true
      /\ ~ regime_single cfg /\ regime_configurations cfg
      /\ ~ regime_resampled cfg)
  \/ (single_solve cfg = false
      /\ issubset (noise cfg) ["dephasing"; "SPAM"] = false
      /\ ~ regime_single cfg /\ ~ regime_configurations cfg
      /\ regime_resampled cfg).
Proof.
  intros Heta.
  unfold single_solve, regime_single, regime_configurations, regime_resampled.
  destruct (issubset _ _); simpl.
  - destruct (has_noise "SPAM" cfg); simpl.
    + destruct (Qeq_bool (eta cfg) 0) eqn:He.
      * apply Qeq_bool_iff in He. left. split; [done|]. split; [auto|].
        split; [|done]. intros (_ & _ & Hlt). rewrite He in Hlt.
        by apply Qlt_irrefl in Hlt.
      * apply Qeq_bool_neq in He. right. left. split; [done|]. split; [done|].
        split; [intros [_ [?|?]]; done|]. split; [|done].
        split; [done|]. split; [done|].
        apply Qle_lt_or_eq in Heta as [?|Heq]; [done|]. by symmetry in Heq.
    + left. split; [done|]. split; [auto|]. split; [|done].
      by intros (_ & ? & _).
  - right. right. split; [done|]. split; [done|].
    split; [by intros [? _]|]. split; [by intros [? _]|done].
Qed.

Lemma turn_events_configurations (items : list (Bitstring * nat))
  (calls : list SolverCall) :
  concat (zip_with turn_events (Some <$> items) calls)
  = concat (zip_with (fun (_ : Bitstring * nat) c => [EvConstruct false; EvSolve c])
              items calls).
Proof.
  revert calls. induction items as [|item items IH]; intros [|c calls]; csimpl;
    try done.
  by rewrite IH.
Qed.

Lemma turn_events_resampled (n : nat) (calls : list SolverCall) :
  length calls = n ->
  concat (zip_with turn_events (replicate n None) calls)
  = calls ≫= (fun c => [EvConstruct true; EvSolve c]).
Proof.
  revert n. induction calls as [|c calls IH]; intros [|n] Hlen; csimpl;
    try done.
  rewrite IH by (simpl in Hlen; lia). done.
Qed.

(** C2, as amended.  Whenever [run] returns (the probability [eta] being
    non-negative), exactly one of the three regimes holds, and what [run]
    has recorded is, in the first, one call of the solver, whose trajectory
    is returned; in the second, for each distinct draw of bad atoms in turn,
    a rebuild without update then one call of the solver under that
    configuration; in the third, [runs] times, a rebuild with the noise
    redrawn then one call of the solver. *)
Theorem run_regimes (pb : ProgressBar) (options : gmap string Q)
  (self self' : Simulation) (res : SimulationResults) :
  (0 <= eta (config E self))%Q ->
  run E pb options self = (Ok res, self') ->
  exists events,
    trace self' = trace self ++ events
    /\ ((regime_single (config E self)
         /\ ~ regime_configurations (config E self)
         /\ ~ regime_resampled (config E self))
        \/ (~ regime_single (config E self)
            /\ regime_configurations (config E self)
            /\ ~ regime_resampled (config E self))
        \/ (~ regime_single (config E self)
            /\ ~ regime_configurations (config E self)
            /\ regime_resampled (config E self)))
    /\ (regime_single (config E self) ->
        exists c r, events = [EvSolve c] /\ res = Coherent r
                    /\ cr_states r = solver_states c)
    /\ (regime_configurations (config E self) ->
        exists calls r,
          events = concat (zip_with
                             (fun (_ : Bitstring * nat) c =>
                                [EvConstruct false; EvSolve c])
                             (most_common (counter_of (run_draws self))) calls)
          /\ Forall2 (fun item c =>
                        sc_bad_atoms c = dict_zip (qids self) item.1)
                     (most_common (counter_of (run_draws self))) calls
          /\ length (run_draws self) = runs (config E self)
          /\ NoDup (most_common (counter_of (run_draws self))).*1
          /\ (forall d, d ∈ (most_common (counter_of (run_draws self))).*1
                        <-> d ∈ run_draws self)
          /\ res = Noisy r)
    /\ (regime_resampled (config E self) ->
        exists calls r,
          length calls = runs (config E self)
          /\ events = calls ≫= (fun c => [EvConstruct true; EvSolve c])
          /\ res = Noisy r).
Proof.
  intros Heta Hrun. apply run_inv in Hrun as (meas & _ & Hrun).
  destruct (regime_cases _ Heta)
    as [(Hs & HA & HnB & HnC)|[(Hs & Hsub & HnA & HB & HnC)
                              |(Hs & Hsub & HnA & HnB & HC)]];
    rewrite Hs in Hrun.
  - destruct Hrun as (r & Hr & ->).
    apply _run_solver_spec in Hr as (c & -> & _ & _ & Hst & _).
    exists [EvSolve c]. split; [done|]. split; [by left|].
    split; [eauto|]. split; [done|done].
  - destruct Hrun as (s0 & tc & r & Hst0 & Htr0 & Hloop & _ & _ & ->).
    apply run_loop_spec in Hloop as (calls & ress & countss & Htr & Hbad & _).
    unfold run_items in Htr, Hbad. rewrite Hsub in Htr, Hbad.
    rewrite turn_events_configurations in Htr.
    eexists. split; [by rewrite Htr, Htr0|]. split; [by right; left|].
    split; [done|]. split; [|done]. intros _.
    destruct (most_common_counter_of (run_draws self)) as (Hnd & Hin & _).
    exists calls, r. split; [done|]. split; [|split; [|split; [done|done]]].
    + apply Forall2_fmap_l in Hbad.
      eapply list.Forall2_impl; [exact Hbad|]. intros [bits n] c Hc. simpl.
      rewrite (Hc bits n eq_refl). unfold qids, _qdict.
      by destruct Hst0 as (-> & _).
    + unfold run_draws. by rewrite length_fmap, length_seq.
  - destruct Hrun as (s0 & tc & r & Hst0 & Htr0 & Hloop & _ & _ & ->).
    apply run_loop_spec in Hloop as (calls & ress & countss & Htr & Hbad & _).
    unfold run_items in Htr, Hbad. rewrite Hsub in Htr, Hbad.
    apply Forall2_length in Hbad. rewrite length_replicate in Hbad.
    rewrite turn_events_resampled in Htr by done.
    eexists. split; [by rewrite Htr, Htr0|]. split; [by right; right|].
    split; [done|]. split; [done|]. intros _. by exists calls, r.
Qed.


(** *** The histogram and its normalisation *)

(** The counts of a [Counter] add up to its size. *)
Lemma multiplicities_size (c : Counter) :
  sum_list_with (fun k => multiplicity k c) (elements (dom c)) = size c.
Proof.
  destruct c as [m]. unfold dom, gmultiset_dom.
  assert (elements (dom m) ≡ₚ (map_to_list m).*1) as ->.
  { rewrite (dom_alt m). apply elements_list_to_set, NoDup_fst_map_to_list. }
  unfold size, gmultiset_size, elements, gmultiset_elements, multiplicity. simpl.
  assert (Forall (fun kn : string * positive => m !! kn.1 = Some kn.2)
                 (map_to_list m)) as Hall.
  { apply list.Forall_forall. intros [k n] Hkn. by apply elem_of_map_to_list. }
  induction Hall as [|[k n] l Hk Hl IH]; csimpl; [done|].
  simpl in Hk. rewrite Hk, length_app, length_replicate. by rewrite IH.
Qed.

(** The sum of a list of rationals. *)
Definition Qsum_list (l : list Q) : Q := foldr Qplus 0%Q l.

Lemma Qsum_list_ratios {A} (f : A -> nat) (n : nat) (l : list A) :
  n <> 0 ->
  (Qsum_list ((fun k => inject_Z (Z.of_nat (f k)) / inject_Z (Z.of_nat n)) <$> l)
   == inject_Z (Z.of_nat (sum_list_with f l)) / inject_Z (Z.of_nat n))%Q.
Proof.
  intros Hn.
  assert (~ (inject_Z (Z.of_nat n) == 0)%Q) as Hn'.
  { unfold Qeq. simpl. lia. }
  induction l as [|a l IH]; csimpl.
  - unfold Qdiv. by rewrite Qmult_0_l.
  - rewrite IH. rewrite Nat2Z.inj_add, inject_Z_plus. by field.
Qed.

(** A histogram of [n] measurements, [n] positive, is normalised into a
    distribution that sums to 1; with no measurement asked for and some
    made, the division fails. *)
Lemma normalize_sums_to_one (n : nat) (c : Counter) :
  n <> 0 -> size c = n ->
  exists dist, normalize n c = Ok dist
               /\ dist.*1 = elements (dom c)
               /\ (Qsum_list dist.*2 == 1)%Q.
Proof.
  intros Hn Hsize. unfold normalize.
  rewrite bool_decide_eq_false_2 by done. simpl.
  eexists. split; [reflexivity|]. split.
  - rewrite <- list_fmap_compose. by rewrite list_fmap_id.
  - rewrite <- list_fmap_compose.
    rewrite (Qsum_list_ratios (fun k => multiplicity k c) n) by done.
    rewrite multiplicities_size, Hsize. field. unfold Qeq. simpl. lia.
Qed.


Lemma sampled_sizes (res : CoherentResults) (n : nat) (times : list Q)
  (counts : list Counter) :
  (forall r t k pos, size (sample_state E r t k pos) = k) ->
  Forall2 (sampled res n) times counts ->
  length counts = length times /\ Forall (fun c => size c = n) counts.
Proof.
  intros Hsize H. split; [symmetry; by eapply Forall2_length|].
  induction H as [|t c times counts [pos ->] _ IH]; constructor; auto.
Qed.

Lemma zip_with_sizes (n k : nat) (tc counts : list Counter) :
  length counts = length tc ->
  Forall (fun c => size c = n) tc -> Forall (fun c => size c = k) counts ->
  length (zip_with (fun a b : Counter => a ⊎ b) tc counts) = length tc
  /\ Forall (fun c => size c = n + k)
            (zip_with (fun a b : Counter => a ⊎ b) tc counts).
Proof.
  intros Hlen Htc. revert counts Hlen.
  induction Htc as [|a tc Ha _ IH]; intros [|b counts] Hlen Hc; simpl in *;
    try done.
  apply list.Forall_cons in Hc as [Hb Hc].
  destruct (IH counts) as [IH1 IH2]; [lia|done|].
  split; [by rewrite IH1|]. constructor; [|done].
  rewrite gmultiset_size_disj_union. by rewrite Ha, Hb.
Qed.

(** The histogram accumulated over the turns holds, at each time, the
    samples of every turn. *)
Lemma accumulate_sizes (spr : nat) (times : list Q)
  (items : list (option (Bitstring * nat))) (ress : list CoherentResults)
  (countss : list (list Counter)) :
  (forall r t k pos, size (sample_state E r t k pos) = k) ->
  Forall3 (fun item res counts =>
             Forall2 (sampled res (spr * item_reps item)) times counts)
          items ress countss ->
  forall (tc : list Counter) (n0 : nat),
    length tc = length times -> Forall (fun c => size c = n0) tc ->
    length (foldl (zip_with (fun a b : Counter => a ⊎ b)) tc countss)
    = length times
    /\ Forall (fun c => size c = n0 + spr * sum_list (item_reps <$> items))
              (foldl (zip_with (fun a b : Counter => a ⊎ b)) tc countss).
Proof.
  intros Hsize H.
  induction H as [|item res counts items ress countss Hc _ IH];
    intros tc n0 Hlen Htc; csimpl.
  - split; [done|]. eapply list.Forall_impl; [exact Htc|].
    intros c ->. simpl. lia.
  - destruct (sampled_sizes _ _ _ _ Hsize Hc) as [Hl Hs].
    destruct (zip_with_sizes n0 (spr * item_reps item) tc counts)
      as [Hl' Hs']; [congruence|done|done|].
    destruct (IH _ _ (eq_trans Hl' Hlen) Hs') as [IH1 IH2].
    split; [done|]. eapply list.Forall_impl; [exact IH2|].
    intros c ->. simpl. lia.
Qed.

Lemma mapM_ok_normalize (n : nat) (tc : list Counter)
  (dists : list (list (string * Q))) :
  n <> 0 -> Forall (fun c => size c = n) tc ->
  mapM_ok (normalize n) tc = Ok dists ->
  length dists = length tc
  /\ Forall (fun dist => (Qsum_list dist.*2 == 1)%Q) dists.
Proof.
  intros Hn Htc. revert dists.
  induction Htc as [|c tc Hc _ IH]; intros dists H; simpl in H.
  - injection H as <-. by split.
  - destruct (normalize_sums_to_one n c Hn Hc) as (dist & Hd & _ & Hsum).
    rewrite Hd in H. simpl in H.
    destruct (mapM_ok (normalize n) tc) as [rest|]; [|done].
    injection H as <-. destruct (IH rest eq_refl) as [IH1 IH2].
    split; [simpl; by rewrite IH1|by constructor].
Qed.


Lemma item_reps_sum (items : list (Bitstring * nat)) :
  sum_list (item_reps <$> (Some <$> items)) = sum_list items.*2.
Proof. induction items as [|[k n] items IH]; csimpl; [done|]. by rewrite IH. Qed.

(** When the noise is within dephasing and SPAM, with SPAM and [eta > 0],
    and [run] returns: the [runs] draws of bad atoms are grouped into
    distinct configurations with the number of their occurrences; each
    configuration in turn has the Hamiltonian rebuilt without update and the
    solver called once, under that configuration; its result is sampled, at
    each evaluation time, [samples_per_run] times the number of its
    occurrences; the histograms are added up and divided by
    [runs * samples_per_run].  When the sampler returns as many outcomes as
    it is asked for and both numbers are positive, there is one distribution
    per evaluation time and each sums to 1. *)
Theorem run_configurations_histogram (pb : ProgressBar)
  (options : gmap string Q) (self self' : Simulation)
  (res : SimulationResults) :
  regime_configurations (config E self) ->
  runs (config E self) <> 0 -> samples_per_run (config E self) <> 0 ->
  (forall r t k pos, size (sample_state E r t k pos) = k) ->
  run E pb options self = (Ok res, self') ->
  exists calls ress countss r,
    res = Noisy r
    /\ length (run_draws self) = runs (config E self)
    /\ NoDup (most_common (counter_of (run_draws self))).*1
    /\ (forall k n, (k, n) ∈ most_common (counter_of (run_draws self)) ->
                    k ∈ run_draws self
                    /\ n = length (filter (eq k) (run_draws self)))
    /\ (forall d, d ∈ run_draws self ->
                  d ∈ (most_common (counter_of (run_draws self))).*1)
    /\ trace self'
       = trace self
         ++ concat (zip_with (fun (_ : Bitstring * nat) c =>
                                [EvConstruct false; EvSolve c])
                      (most_common (counter_of (run_draws self))) calls)
    /\ Forall2 (fun item c => sc_bad_atoms c = dict_zip (qids self) item.1)
               (most_common (counter_of (run_draws self))) calls
    /\ Forall2 (fun c res => cr_states res = solver_states c) calls ress
    /\ Forall3 (fun item res counts =>
                  Forall2 (sampled res (samples_per_run (config E self) * item.2))
                          (_eval_times_array self) counts)
               (most_common (counter_of (run_draws self))) ress countss
    /\ mapM_ok (normalize (runs (config E self)
                           * samples_per_run (config E self)))
               (foldl (zip_with (fun a b : Counter => a ⊎ b))
                      (replicate (length (_eval_times_array self)) ∅) countss)
       = Ok (nr_run_prob r)
    /\ length (nr_run_prob r) = length (_eval_times_array self)
    /\ Forall (fun dist => (Qsum_list dist.*2 == 1)%Q) (nr_run_prob r).
Proof.
  intros (Hsub & Hspam & Heta) Hruns Hspr Hsize Hrun.
  apply run_inv in Hrun as (meas & _ & Hrun).
  assert (single_solve (config E self) = false) as Hs.
  { unfold single_solve. rewrite Hsub, Hspam. simpl.
    apply not_true_iff_false. intros He%Qeq_bool_iff.
    rewrite He in Heta. by apply Qlt_irrefl in Heta. }
  rewrite Hs in Hrun.
  destruct Hrun as (s0 & tc & r & Hst0 & Htr0 & Hloop & Hnorm & _ & ->).
  apply run_loop_spec in Hloop
    as (calls & ress & countss & Htr & Hbad & -> & Hall & _ & Hres).
  unfold run_items in Htr, Hbad, Hall. rewrite Hsub in Htr, Hbad, Hall.
  rewrite turn_events_configurations in Htr.
  destruct (most_common_counter_of (run_draws self)) as (Hnd & Hin & Hsum & Hcnt).
  assert (config E s0 = config E self
          /\ _eval_times_array s0 = _eval_times_array self
          /\ qids s0 = qids self) as (Hc0 & He0 & Hq0).
  { unfold config, qids, _qdict.
    by destruct Hst0 as (-> & _ & _ & -> & -> & _). }
  rewrite Hc0, He0 in Hall. rewrite Hq0 in Hbad.
  assert (length (run_draws self) = runs (config E self)) as Hlen.
  { unfold run_draws. by rewrite length_fmap, length_seq. }
  destruct (accumulate_sizes _ _ _ _ _ Hsize Hall
              (replicate (length (_eval_times_array self)) ∅) 0)
    as [Hl Hs'].
  { by rewrite length_replicate. }
  { apply Forall_replicate. apply gmultiset_size_empty. }
  rewrite item_reps_sum, Hsum, Hlen in Hs'. simpl in Hs'.
  assert (runs (config E self) * samples_per_run (config E self) <> 0) as Hn
    by lia.
  assert (Forall (fun c : Counter => size c = runs (config E self)
                                     * samples_per_run (config E self))
            (foldl (zip_with (fun a b : Counter => a ⊎ b))
                   (replicate (length (_eval_times_array self)) ∅) countss))
    as Hs''.
  { eapply list.Forall_impl; [exact Hs'|]. intros c ->. lia. }
  destruct (mapM_ok_normalize _ _ _ Hn Hs'' Hnorm) as [Hd1 Hd2].
  exists calls, ress, countss, r.
  split; [done|]. split; [exact Hlen|]. split; [exact Hnd|].
  split; [|split; [|split; [|split; [|split; [exact Hres|split; [|split;
    [exact Hnorm|split; [congruence|exact Hd2]]]]]]]].
  - intros k n Hkn. split; [|by apply Hcnt].
    apply Hin. apply list_elem_of_fmap. by exists (k, n).
  - intros d Hd. by apply Hin.
  - by rewrite Htr, Htr0.
  - apply Forall2_fmap_l in Hbad.
    eapply list.Forall2_impl; [exact Hbad|]. intros [bits n] c Hc. simpl.
    by rewrite (Hc bits n eq_refl).
  - clear -Hall. remember (Some <$> most_common (counter_of (run_draws self)))
      as items eqn:Hi.
    revert Hi. generalize (most_common (counter_of (run_draws self))).
    induction Hall as [|item res counts items ress countss Hc _ IH];
      intros [|[k n] l] Hi; simplify_eq/=; constructor; auto.
Qed.


(* ================================================================= *)
(** ** The evaluation times *)

(** [full[np.linspace(0, len(full) - 1, n, dtype=int)]] for [n] points,
    between 2 and the length of [full]. *)
Lemma take_linspace {A} (full : list A) (n : Z) :
  (2 <= n <= Z.of_nat (length full))%Z ->
  exists r,
    (indices ← linspace_int 0 (Z.of_nat (length full) - 1) n;
     np_take full indices) = Ok r
    /\ length r = Z.to_nat n
    /\ forall i, i < Z.to_nat n ->
         r !! i = full !! Z.to_nat (grid_point (Z.of_nat (length full) - 1) n
                                      (Z.of_nat i)).
Proof.
  intros Hn. set (L := Z.of_nat (length full)) in *.
  rewrite linspace_int_from_0 by lia. simpl. fold (grid_point (L - 1) n).
  assert (forall i, i ∈ arange n ->
            exists x, full !! Z.to_nat (grid_point (L - 1) n i) = Some x) as Hin.
  { intros i Hi%elem_of_arange. apply lookup_lt_is_Some.
    pose proof (grid_point_bounds (L - 1) n ltac:(lia) ltac:(lia) i Hi). lia. }
  destruct full as [|x0 full']; [simpl in L; lia|].
  set (full := x0 :: full') in *.
  set (g := fun i => default x0 (full !! Z.to_nat (grid_point (L - 1) n i))).
  assert (forall i, i ∈ arange n ->
            full !! Z.to_nat (grid_point (L - 1) n i) = Some (g i)) as Hg.
  { intros i Hi. unfold g. destruct (Hin i Hi) as [x Hx]. by rewrite Hx. }
  exists (g <$> arange n). split; [|split].
  - unfold np_take. apply mapM_ok_fmap_in. intros i Hi.
    pose proof (Hg i Hi) as Hx. apply elem_of_arange in Hi.
    pose proof (grid_point_bounds (L - 1) n ltac:(lia) ltac:(lia) i Hi).
    rewrite <- (Z2Nat.id (grid_point (L - 1) n i)) at 1 by lia.
    by apply np_item_in_range.
  - by rewrite length_fmap, arange_length.
  - intros i Hi. rewrite list_lookup_fmap, arange_lookup by done. simpl.
    symmetry. apply Hg. apply elem_of_arange. lia.
Qed.

#[local] Instance Qle_total : Total Qle.
Proof. intros x y. destruct (Qlt_le_dec y x) as [H|H]; [right|left]; [by apply Qlt_le_weak|done]. Qed.

#[local] Instance Qle_transitive : Transitive Qle.
Proof. intros x y z. apply Qle_trans. Qed.










(* ================================================================= *)
(** ** What each stage writes *)

(** The extraction of the samples writes the samples, the cache of
    operators and the position in the random streams, nothing else: it
    preserves every relation that those writes preserve. *)
Section ExtractionWrites.
Context (W : relation Simulation) `{!PreOrder W}.
Hypothesis W_samples : forall v s, W s (set_samples v s).
Hypothesis W_operators : forall v s, W s (set_operators v s).
Hypothesis W_rng_pos : forall v s, W s (set_rng_pos v s).
Hint Resolve W_samples W_operators W_rng_pos : writes.

Lemma random_normal1_writes mu sigma :
  sim_preserves W (random_normal1 E mu sigma).
Proof. intros s. apply W_rng_pos. Qed.
Hint Resolve random_normal1_writes : preserves.

Lemma write_samples_writes slot p d g q :
  sim_preserves W (write_samples E slot p d g q).
Proof. unfold write_samples. preserves. Qed.
Lemma get_local_writes b : sim_preserves W (get_local b).
Proof. unfold get_local. preserves. Qed.
Lemma put_local_writes b d : sim_preserves W (put_local b d).
Proof. unfold put_local. preserves. Qed.
Lemma get_global_writes b : sim_preserves W (get_global b).
Proof. unfold get_global. preserves. Qed.
Lemma put_global_writes b d : sim_preserves W (put_global b d).
Proof. unfold put_global. preserves. Qed.
Hint Resolve write_samples_writes get_local_writes put_local_writes
  get_global_writes put_global_writes : preserves.

Lemma write_local_qubit_writes slot p b g k q :
  sim_preserves W (write_local_qubit E slot p b g k q).
Proof. unfold write_local_qubit. preserves. Qed.
Hint Resolve write_local_qubit_writes : preserves.

Lemma extract_coherent_global_writes b slots slm_on :
  sim_preserves W (extract_coherent_global E b slots slm_on).
Proof.
  revert slm_on. induction slots as [|slot rest IH]; intros slm_on; simpl.
  - preserves.
  - preserves.
Qed.
Lemma extract_noisy_writes b g slots :
  sim_preserves W (extract_noisy E b g slots).
Proof. unfold extract_noisy. preserves. Qed.
Lemma apply_slm_mask_writes b : sim_preserves W (apply_slm_mask b).
Proof. unfold apply_slm_mask. preserves. Qed.
Hint Resolve extract_coherent_global_writes extract_noisy_writes
  apply_slm_mask_writes : preserves.

Lemma _extract_samples_writes : sim_preserves W (_extract_samples E).
Proof. unfold _extract_samples. preserves. Qed.
End ExtractionWrites.

(** Choosing the basis and assembling the Hamiltonian write the basis,
    the cache of operators and the Hamiltonian, nothing else. *)
Section AssemblyWrites.
Context (W : relation Simulation) `{!PreOrder W}.
Hypothesis W_basis_name : forall v s, W s (set_basis_name v s).
Hypothesis W_operators : forall v s, W s (set_operators v s).
Hypothesis W_hamiltonian : forall v s, W s (set_hamiltonian v s).
Hint Resolve W_basis_name W_operators W_hamiltonian : writes.

Lemma _build_basis_and_op_matrices_writes :
  sim_preserves W _build_basis_and_op_matrices.
Proof. unfold _build_basis_and_op_matrices. preserves. Qed.
Lemma global_term_writes b o c : sim_preserves W (global_term b o c).
Proof. unfold global_term. preserves. Qed.
Lemma local_term_writes b q o c : sim_preserves W (local_term b q o c).
Proof. unfold local_term. preserves. Qed.
Hint Resolve _build_basis_and_op_matrices_writes global_term_writes
  local_term_writes : preserves.

Lemma build_coeffs_ops_writes b a : sim_preserves W (build_coeffs_ops b a).
Proof.
  unfold build_coeffs_ops. preserves.
  apply preserves_modify. intros s.
  destruct (operators s) as [cache|]; [|reflexivity].
  destruct (ops_local cache b !! _); [reflexivity|apply W_operators].
Qed.
Hint Resolve build_coeffs_ops_writes : preserves.

Lemma drive_terms_writes : sim_preserves W drive_terms.
Proof. unfold drive_terms. preserves. Qed.
Hint Resolve drive_terms_writes : preserves.

Lemma assemble_hamiltonian_writes : sim_preserves W assemble_hamiltonian.
Proof. unfold assemble_hamiltonian. preserves. Qed.
End AssemblyWrites.


(** [_construct_hamiltonian] writes what its stages write, and records its
    call. *)
Section ConstructWrites.
Context (W : relation Simulation) `{!PreOrder W}.
Hypothesis W_log : forall e s, W s (log_event e s).
Hypothesis W_basis_name : forall v s, W s (set_basis_name v s).
Hypothesis W_operators : forall v s, W s (set_operators v s).
Hypothesis W_hamiltonian : forall v s, W s (set_hamiltonian v s).

Lemma construct_tail_writes :
  sim_preserves W
    ((self <- sim_get ;;
      if basis_name self is None then _build_basis_and_op_matrices
      else sim_ret tt) ;;
     assemble_hamiltonian).
Proof.
  apply preserves_bind; [apply _| |intros _].
  - apply preserves_bind; [apply _|apply preserves_get; apply _|intros self].
    destruct (basis_name self).
    + apply preserves_ret; apply _.
    + by apply _build_basis_and_op_matrices_writes.
  - by apply assemble_hamiltonian_writes.
Qed.

Lemma construct_without_update_writes :
  sim_preserves W (_construct_hamiltonian E false).
Proof.
  unfold _construct_hamiltonian.
  apply preserves_bind; [apply _|by apply preserves_modify|intros _].
  apply preserves_bind; [apply _|apply preserves_ret; apply _|intros _].
  apply construct_tail_writes.
Qed.

Hypothesis W_samples : forall v s, W s (set_samples v s).
Hypothesis W_rng_pos : forall v s, W s (set_rng_pos v s).
Hypothesis W_update_noise : sim_preserves W (_update_noise E).

Lemma construct_writes u : sim_preserves W (_construct_hamiltonian E u).
Proof.
  destruct u; [|apply construct_without_update_writes].
  unfold _construct_hamiltonian.
  apply preserves_bind; [apply _|by apply preserves_modify|intros _].
  apply preserves_bind; [apply _| |intros _; apply construct_tail_writes].
  apply preserves_bind; [apply _|exact W_update_noise|intros _].
  by apply _extract_samples_writes.
Qed.
End ConstructWrites.

(** Everything but the basis, the cache of operators, the Hamiltonian and
    the record of calls is as it was. *)
Definition rebuilt_only (s s' : Simulation) : Prop :=
  _seq s' = _seq s /\ _sampling_rate s' = _sampling_rate s
  /\ sampling_times s' = sampling_times s
  /\ _eval_times_array s' = _eval_times_array s
  /\ _config s' = _config s
  /\ _bad_atoms s' = _bad_atoms s
  /\ _doppler_detune s' = _doppler_detune s
  /\ samples s' = samples s
  /\ _collapse_ops s' = _collapse_ops s
  /\ _meas_basis s' = _meas_basis s
  /\ _initial_state s' = _initial_state s
  /\ rng_pos s' = rng_pos s.

#[local] Instance rebuilt_only_preorder : PreOrder rebuilt_only.
Proof.
  split.
  - intros s. unfold rebuilt_only. repeat split.
  - intros s1 s2 s3 H1 H2. unfold rebuilt_only in *.
    destruct H1 as (?&?&?&?&?&?&?&?&?&?&?&?), H2 as (?&?&?&?&?&?&?&?&?&?&?&?).
    repeat split; congruence.
Qed.

(** Rebuilding the Hamiltonian without update, whether it returns or
    raises, redraws no noise, extracts no sample and draws no random number:
    it leaves the object as it was but for the basis (chosen if it was not
    yet, kept otherwise), the cache of operators and the Hamiltonian, and
    records its call. *)
Theorem rebuild_without_update_frame (s : Simulation) :
  rebuilt_only s (_construct_hamiltonian E false s).2
  /\ (forall bn, basis_name s = Some bn ->
        basis_name (_construct_hamiltonian E false s).2 = Some bn)
  /\ trace (_construct_hamiltonian E false s).2 = trace s ++ [EvConstruct false].
Proof.
  split; [|split].
  - apply (construct_without_update_writes rebuilt_only);
      intros v s0; unfold rebuilt_only; simpl; repeat split.
  - intros bn Hbn.
    destruct (_construct_hamiltonian_stable false s) as (_&_&_&_&_&_&_&_&Hb).
    by apply Hb.
  - apply _construct_hamiltonian_trace.
Qed.

(** Rebuilding the Hamiltonian, with or without update, whether it returns
    or raises, leaves the sequence, the sampling rate and times, the
    evaluation times, the configuration, the initial state, the measurement
    basis and the collapse operators as they were, keeps the basis once it
    is chosen, and records its call. *)
Theorem rebuild_keeps_setup (update_and_extract : bool) (s : Simulation) :
  stable s (_construct_hamiltonian E update_and_extract s).2
  /\ trace (_construct_hamiltonian E update_and_extract s).2
     = trace s ++ [EvConstruct update_and_extract].
Proof.
  split; [apply _construct_hamiltonian_stable|apply _construct_hamiltonian_trace].
Qed.


(* ================================================================= *)
(** ** What [set_config] leaves behind *)

(** Without preparation errors in the configuration, the bad atoms are as
    they were; without Doppler noise, the detunings are. *)
Definition bad_atoms_kept (s s' : Simulation) : Prop :=
  has_noise "SPAM" (config E s) && Qltb 0 (eta (config E s)) = false ->
  _bad_atoms s' = _bad_atoms s /\ _config s' = _config s.

Definition detune_kept (s s' : Simulation) : Prop :=
  has_noise "doppler" (config E s) = false ->
  _doppler_detune s' = _doppler_detune s /\ _config s' = _config s.

#[local] Instance bad_atoms_kept_preorder : PreOrder bad_atoms_kept.
Proof.
  split; [by intros s _|].
  intros s1 s2 s3 H1 H2 Hc. destruct (H1 Hc) as [Hb1 Hc1].
  destruct H2 as [Hb2 Hc2]; [unfold config; by rewrite Hc1|].
  split; congruence.
Qed.

#[local] Instance detune_kept_preorder : PreOrder detune_kept.
Proof.
  split; [by intros s _|].
  intros s1 s2 s3 H1 H2 Hc. destruct (H1 Hc) as [Hb1 Hc1].
  destruct H2 as [Hb2 Hc2]; [unfold config; by rewrite Hc1|].
  split; congruence.
Qed.

Lemma _update_noise_bad_atoms_kept : sim_preserves bad_atoms_kept (_update_noise E).
Proof.
  intros s Hc. unfold _update_noise, sim_bind, sim_get. rewrite Hc.
  unfold sim_ret, sim_modify, random_normal.
  destruct (has_noise "doppler" (config E s)); done.
Qed.

Lemma _update_noise_detune_kept : sim_preserves detune_kept (_update_noise E).
Proof.
  intros s Hc. unfold _update_noise, sim_bind, sim_get.
  destruct (has_noise "SPAM" (config E s) && Qltb 0 (eta (config E s)));
    unfold sim_ret, sim_modify, random_uniform; simpl;
    unfold config in *; simpl; rewrite Hc; done.
Qed.

Lemma _construct_hamiltonian_bad_atoms_kept u :
  sim_preserves bad_atoms_kept (_construct_hamiltonian E u).
Proof.
  apply construct_writes;
    first [apply _|apply _update_noise_bad_atoms_kept|by intros v s Hc].
Qed.

Lemma _construct_hamiltonian_detune_kept u :
  sim_preserves detune_kept (_construct_hamiltonian E u).
Proof.
  apply construct_writes;
    first [apply _|apply _update_noise_detune_kept|by intros v s Hc].
Qed.

Lemma install_config_noise (cfg : SimConfig) (s : Simulation) :
  (has_noise "SPAM" cfg && Qltb 0 (eta cfg) = false ->
   _bad_atoms (install_config cfg s).2 = dict_const s false)
  /\ (has_noise "doppler" cfg = false ->
      _doppler_detune (install_config cfg s).2 = dict_const s 0%R).
Proof.
  unfold install_config, sim_bind, sim_get, sim_modify, sim_ret. simpl.
  split; intros ->; simpl.
  - destruct (negb (has_noise "doppler" cfg)); done.
  - destruct (negb (has_noise "SPAM" cfg && Qltb 0 (eta cfg))); done.
Qed.

Lemma dephasing_collapse_ops_length (s : Simulation) (ops : list Qobj) :
  dephasing_collapse_ops E s = Ok ops -> length ops = S (_size s).
Proof.
  unfold dephasing_collapse_ops. intros H.
  destruct (op_matrix s) as [m|]; [|done]. simpl in H.
  destruct (getitem (m !! "I")) as [I|]; [|done]. simpl in H.
  destruct (mapM_ok _ (qids s)) as [rest|] eqn:Hrest; [|done].
  injection H as <-. apply mapM_ok_length in Hrest. simpl.
  rewrite Hrest. unfold _size, qids. by rewrite length_fmap.
Qed.


(** When [set_config] returns: the configuration is stored and its noises
    are supported; without preparation errors in it every atom is marked as
    well prepared, and without Doppler noise every detuning is 0; with
    dephasing the basis is neither digital nor all and there is one collapse
    operator per atom and one more; without dephasing the collapse operators
    are left as they were. *)
Theorem set_config_aftermath (cfg : SimConfig) (self self' : Simulation) :
  set_config E cfg self = (Ok tt, self') ->
  _config self' = Some cfg
  /\ issubset (noise cfg) (SUPPORTED_NOISE (_interaction self)) = true
  /\ (has_noise "SPAM" cfg && Qltb 0 (eta cfg) = false ->
      forall q, _bad_atoms self' !! q
                = if decide (q ∈ qids self) then Some false else None)
  /\ (has_noise "doppler" cfg = false ->
      forall q, _doppler_detune self' !! q
                = if decide (q ∈ qids self) then Some 0%R else None)
  /\ (if has_noise "dephasing" cfg
      then basis_name self' <> Some bn_digital
           /\ basis_name self' <> Some bn_all
           /\ length (_collapse_ops self') = S (_size self)
      else _collapse_ops self' = _collapse_ops self).
Proof.
  unfold set_config. change recursion_limit with (S (pred recursion_limit)).
  cbn [set_config_at]. intros H.
  apply sim_bind_ok_inv in H as (s & s0 & [= <- <-] & H).
  destruct (issubset (noise cfg) _) eqn:Hsup; [|done]. cbn [negb] in H.
  apply sim_bind_ok_inv in H as ([] & s0 & H0 & H).
  destruct (install_config_spec cfg self) as (_ & Hcfg0 & Hseq0 & _).
  destruct (install_config_noise cfg self) as (Hbad0 & Hdet0).
  rewrite H0 in Hcfg0, Hseq0, Hbad0, Hdet0. simpl in Hcfg0, Hseq0, Hbad0, Hdet0.
  apply sim_bind_ok_inv in H as ([] & s1 & H1 & H).
  pose proof (_construct_hamiltonian_stable true s0) as Hst.
  pose proof (_construct_hamiltonian_bad_atoms_kept true s0) as Hbk.
  pose proof (_construct_hamiltonian_detune_kept true s0) as Hdk.
  rewrite H1 in Hst, Hbk, Hdk. simpl in Hst, Hbk, Hdk.
  unfold bad_atoms_kept, detune_kept, config in Hbk, Hdk.
  rewrite Hcfg0 in Hbk, Hdk. simpl in Hbk, Hdk.
  destruct Hst as (_ & _ & _ & _ & Hcfg1 & _ & _ & Hcol1 & _).
  assert (_config self' = _config s1 /\ _bad_atoms self' = _bad_atoms s1
          /\ _doppler_detune self' = _doppler_detune s1
          /\ (if has_noise "dephasing" cfg
              then basis_name self' <> Some bn_digital
                   /\ basis_name self' <> Some bn_all
                   /\ length (_collapse_ops self') = S (_size self)
              else _collapse_ops self' = _collapse_ops s1))
    as (Hc & Hb & Hd & Hcol).
  { destruct (has_noise "dephasing" cfg).
    - apply sim_bind_ok_inv in H as (s & s2 & [= <- <-] & H).
      destruct (bool_decide (basis_name s1 = Some bn_digital)) eqn:Hd1.
      { simpl in H. apply sim_bind_ok_inv in H as (? & ? & _ & H). done. }
      destruct (bool_decide (basis_name s1 = Some bn_all)) eqn:Hd2.
      { simpl in H. apply sim_bind_ok_inv in H as (? & ? & _ & H). done. }
      simpl in H.
      apply sim_bind_ok_inv in H as (ops & s2 & [= Hops <-] & [= <-]).
      apply bool_decide_eq_false in Hd1, Hd2.
      apply dephasing_collapse_ops_length in Hops. simpl.
      repeat split; try done.
      rewrite Hops. unfold _size, _qdict.
      pose proof (_construct_hamiltonian_stable true s0) as Hst.
      rewrite H1 in Hst. destruct Hst as (Hseq1 & _). simpl in Hseq1.
      by rewrite Hseq1, Hseq0.
    - by injection H as <-. }
  split; [by rewrite Hc, Hcfg1|]. split; [done|]. split; [|split].
  - intros Hcond. destruct (Hbk Hcond) as [Hb1 _].
    rewrite Hb, Hb1, (Hbad0 Hcond). intros q. apply dict_zip_replicate.
  - intros Hcond. destruct (Hdk Hcond) as [Hd1 _].
    rewrite Hd, Hd1, (Hdet0 Hcond). intros q. apply dict_zip_replicate.
  - destruct (has_noise "dephasing" cfg); [done|].
    rewrite Hcol, Hcol1.
    unfold install_config, sim_bind, sim_get, sim_modify, sim_ret in H0.
    simpl in H0.
    destruct (negb (_ && _)), (negb (has_noise "doppler" cfg));
      simpl in H0; by injection H0 as <-.
Qed.


(* ================================================================= *)
(** ** More on [run] and [set_config] *)

Lemma _run_solver_inv meas s res s' :
  _run_solver E meas s = (Ok res, s') ->
  exists ham p_bar,
    _hamiltonian s = Some ham
    /\ p_bar_of (progress_bar meas) = Ok p_bar
    /\ s' = log_event (EvSolve
              (mkSolverCall (has_noise "dephasing" (config E s)) ham
                 (_collapse_ops s) (_initial_state s) (_eval_times_array s)
                 (_bad_atoms s) p_bar (solv_ops meas))) s
    /\ res = mkCoherentResults
               (solver_states
                  (mkSolverCall (has_noise "dephasing" (config E s)) ham
                     (_collapse_ops s) (_initial_state s)
                     (_eval_times_array s) (_bad_atoms s)
                     p_bar (solv_ops meas)))
               (_size s) (basis_name s) (_eval_times_array s) (_meas_basis s)
               (meas_errors meas).
Proof.
  intros H. unfold _run_solver in H.
  apply sim_bind_ok_inv in H as (p_bar & s1 & [= Hbar <-] & H).
  apply sim_bind_ok_inv in H as (self & s1 & [= <- <-] & H).
  apply sim_bind_ok_inv in H as (ham & s1 & [= Hham <-] & H).
  apply sim_bind_ok_inv in H as ([] & s1 & [= <-] & [= <- <-]).
  destruct (_hamiltonian s) as [h|]; [|done]. injection Hham as ->.
  exists ham, p_bar. split; [done|]. split; [done|]. split; [done|].
  unfold solver_states. simpl. done.
Qed.

Lemma spam_guard_value s meas s' :
  spam_guard E s = (Ok meas, s') ->
  meas = if has_noise "SPAM" (config E s)
         then Some (epsilon (config E s), epsilon_prime (config E s))
         else None.
Proof.
  unfold spam_guard, sim_bind, sim_get, sim_lift, sim_ret, sim_raise.
  destruct (has_noise "SPAM" _); [|by intros [= <- _]].
  destruct (Qltb 0 _); [|by intros [= <- _]].
  destruct (all_in_state s "g"); [|done].
  destruct (Qobj_ne E _ _); [done|by intros [= <- _]].
Qed.

(** When the noise is within dephasing and SPAM, without preparation
    errors, and [run] returns: it has called the solver once, on the stored
    Hamiltonian, initial state and evaluation times, [mesolve] with the
    collapse operators when dephasing is in the noise and [sesolve]
    otherwise, with the progress bar asked for and the options made in the
    first lines of [run]; it has changed nothing in the object; the result
    carries the states of the solver and the measurement errors exactly when
    SPAM is in the noise. *)
Theorem run_single_solve (pb : ProgressBar) (options : gmap string Q)
  (self self' : Simulation) (res : SimulationResults) :
  regime_single (config E self) ->
  run E pb options self = (Ok res, self') ->
  exists ham p_bar solv_ops,
    _hamiltonian self = Some ham
    /\ p_bar_of pb = Ok p_bar
    /\ solver_options E options self = (Ok solv_ops, self)
    /\ self' = log_event (EvSolve
                 (mkSolverCall (has_noise "dephasing" (config E self)) ham
                    (_collapse_ops self) (_initial_state self)
                    (_eval_times_array self) (_bad_atoms self)
                    p_bar solv_ops)) self
    /\ res = Coherent (mkCoherentResults
               (if has_noise "dephasing" (config E self)
                then mesolve E ham (_collapse_ops self) (_initial_state self)
                             (_eval_times_array self) p_bar solv_ops
                else sesolve E ham (_initial_state self)
                             (_eval_times_array self) p_bar solv_ops)
               (_size self) (basis_name self) (_eval_times_array self)
               (_meas_basis self)
               (if has_noise "SPAM" (config E self)
                then Some (epsilon (config E self),
                           epsilon_prime (config E self))
                else None)).
Proof.
  intros (Hsub & Hsingle) Hrun.
  apply run_inv in Hrun as (meas & (Hg & Hpb & Hso) & Hrun).
  assert (single_solve (config E self) = true) as Hs.
  { unfold single_solve. rewrite Hsub. simpl.
    destruct Hsingle as [->|He]; [done|].
    apply Qeq_bool_iff in He. rewrite He. apply orb_true_r. }
  rewrite Hs in Hrun. destruct Hrun as (r & Hr & ->).
  apply spam_guard_value in Hg.
  apply _run_solver_inv in Hr as (ham & p_bar & Hham & Hbar & -> & ->).
  exists ham, p_bar, (solv_ops meas). rewrite <- Hpb, Hg.
  split; [done|]. split; [done|]. split; [done|]. split; [done|]. done.
Qed.

(** In the XY mode the basis has no state ["g"]: with SPAM noise and
    [eta > 0], once the options of the solver are made ([max_step] is given
    or the sequence has a shortest pulse duration, and QuTiP accepts the
    options), [run] raises [KeyError] from its check of the initial state,
    whatever the initial state is, and leaves the object as it was. *)
Theorem run_xy_spam_raises (pb : ProgressBar) (options : gmap string Q)
  (self : Simulation) :
  basis_name self = Some bn_XY -> _size self <> 0 ->
  has_noise "SPAM" (config E self) = true ->
  (0 < eta (config E self))%Q ->
  is_ok (solver_options E options self).1 = true ->
  run E pb options self = (Raise KeyError, self).
Proof.
  intros Hbn Hsize Hspam Heta%Qltb_lt Hok. unfold run.
  destruct (solver_options_cases options self) as [[solv_ops Hso]|[e Hso]];
    rewrite Hso in Hok; [|done].
  rewrite (sim_bind_eq _ _ _ _ _ Hso). unfold spam_guard at 1.
  unfold sim_bind at 1. unfold sim_bind at 1. unfold sim_get at 1.
  rewrite Hspam, Heta.
  unfold sim_bind at 1. unfold sim_bind at 1. unfold sim_lift at 1.
  assert (all_in_state self "g" = Raise KeyError) as ->; [|done].
  unfold all_in_state. destruct (_size self) as [|n]; [done|].
  simpl. unfold basis_get. rewrite Hbn. done.
Qed.

(** A configuration with a noise that the interaction mode does not support
    is refused with [NotImplementedError], and the object is left as it
    was. *)
Theorem set_config_unsupported (cfg : SimConfig) (self : Simulation)
  (x : string) :
  x ∈ noise cfg -> x ∉ SUPPORTED_NOISE (_interaction self) ->
  set_config E cfg self = (Raise NotImplementedError, self).
Proof.
  intros Hx Hnot. unfold set_config.
  change recursion_limit with (S (pred recursion_limit)).
  cbn [set_config_at]. unfold sim_bind, sim_get.
  by rewrite (issubset_without x).
Qed.


(* ================================================================= *)
(** ** [build_operator] as a tensor product *)

(** The operator that a list of placements leaves on the qubit [q]: that of
    the last pair that names [q], and [current] when no pair does. *)
Fixpoint operator_on (bn : BasisName) (operations : list (Operator * Target))
  (q : QubitId) (current : Qobj) : Qobj :=
  match operations with
  | [] => current
  | (operator, TQubits qubits) :: rest =>
      operator_on bn rest q
        (if decide (q ∈ qubits) then default current (resolve bn operator)
         else current)
  | (_, TGlobal) :: _ => current
  end.

Lemma index_of_Some_lookup (q : QubitId) (l : list QubitId) (k : nat) :
  index_of q l = Some k -> l !! k = Some q.
Proof.
  revert k. induction l as [|q' l IH]; intros k; simpl; [done|].
  destruct (decide (q = q')) as [->|Hne]; [by intros [= <-]|].
  destruct (index_of q l) as [k'|]; simpl; [|done].
  intros [= <-]. simpl. by apply IH.
Qed.

Lemma insert_fmap_NoDup (f : QubitId -> Qobj) (l : list QubitId) (k : nat)
  (q : QubitId) (op : Qobj) :
  NoDup l -> l !! k = Some q ->
  <[k := op]> (f <$> l) = (fun q' => if decide (q' = q) then op else f q') <$> l.
Proof.
  intros Hnd Hk. apply list_eq. intros i.
  destruct (decide (i = k)) as [->|Hne].
  - rewrite list_lookup_insert_eq
      by (rewrite length_fmap; by eapply lookup_lt_Some).
    rewrite list_lookup_fmap, Hk. simpl. by rewrite decide_True.
  - rewrite list_lookup_insert_ne by done. rewrite !list_lookup_fmap.
    destruct (l !! i) as [q'|] eqn:Hi; simpl; [|done].
    rewrite decide_False; [done|]. intros ->. apply Hne.
    by eapply NoDup_lookup.
Qed.

Lemma place_operator_fmap (self : Simulation) (op : Qobj)
  (qubits : list QubitId) : forall f : QubitId -> Qobj,
  NoDup (qids self) -> (forall q, q ∈ qubits -> q ∈ qids self) ->
  place_operator self op qubits (f <$> qids self)
  = Ok ((fun q => if decide (q ∈ qubits) then op else f q) <$> qids self).
Proof.
  induction qubits as [|q qs IH]; intros f Hnd Hin; cbn [place_operator].
  - by f_equal.
  - destruct (index_of_Some q (qids self)) as (k & Hk & _); [apply Hin; by left|].
    unfold _qid_index. rewrite Hk. simpl.
    rewrite (insert_fmap_NoDup f _ k q) by (done || by apply index_of_Some_lookup).
    rewrite IH by (done || intros q' Hq'; apply Hin; by right).
    f_equal. apply list_fmap_ext. intros i q' _.
    destruct (decide (q' = q)) as [->|Hne].
    + rewrite (decide_True (P := q ∈ q :: qs)) by (by left).
      by destruct (decide (q ∈ qs)).
    + destruct (decide (q' ∈ qs)) as [Hq|Hq].
      * by rewrite decide_True by (by right).
      * rewrite decide_False; [done|]. by intros [?|?]%elem_of_cons.
Qed.

Lemma build_operator_loop_fmap self bn call operations :
  basis_name self = Some bn -> NoDup (qids self) ->
  Forall (pair_ok self bn) operations ->
  forall f : QubitId -> Qobj,
    build_operator_loop self call operations (f <$> qids self)
    = Ok (tensor ((fun q => operator_on bn operations q (f q)) <$> qids self)).
Proof.
  intros Hbn Hnd Hall.
  induction Hall as [|[operator [|qubits]] rest Hp Hrest IH]; intros f.
  - done.
  - done.
  - destruct Hp as (Hndq & Hin & Hop). simpl.
    rewrite bool_decide_eq_true_2 by done.
    rewrite (proj2 (forallb_in_qids self qubits)) by done.
    unfold op_matrix. rewrite Hbn.
    assert (exists op, resolve bn operator = Some op
              /\ (match operator with
                  | OpName name =>
                      m ← Ok (op_matrix_of bn);
                      match m !! name with
                      | Some op => Ok op | None => Raise ValueError end
                  | OpQobj q => Ok q end) = Ok op) as (op & Hres & ->).
    { destruct operator as [name|q]; [|eauto]. destruct Hop as [op Hop].
      exists op. simpl. by rewrite Hop. }
    simpl. rewrite place_operator_fmap by done. simpl.
    rewrite IH. do 2 f_equal. apply list_fmap_ext. intros i q _.
    rewrite Hres. simpl. done.
Qed.

(** On placements whose qubits are known and not repeated within a pair and
    whose operators are registered, [build_operator] returns the tensor
    product, over the qubits in the order of the register, of the operator
    of the last pair that names the qubit, or of the identity when no pair
    does: a later pair overwrites an earlier one on the qubits they share. *)
Theorem build_operator_tensor (self : Simulation) (bn : BasisName)
  (operations : list (Operator * Target)) :
  basis_name self = Some bn -> NoDup (qids self) ->
  Forall (pair_ok self bn) operations ->
  build_operator self operations
  = Ok (tensor ((fun q => operator_on bn operations q (qeye (dim_of bn)))
                <$> qids self)).
Proof.
  intros Hbn Hnd Hall. rewrite (build_operator_unfold self bn) by done.
  assert (replicate (_size self) (qeye (dim_of bn))
          = (fun _ => qeye (dim_of bn)) <$> qids self) as ->.
  { unfold _size, qids. symmetry.
    rewrite (fmap_const_replicate _ (qeye (dim_of bn))) by done.
    by rewrite length_fmap. }
  by apply build_operator_loop_fmap.
Qed.


(* ================================================================= *)
(** ** The initial state *)

Lemma shape_kron (A B : Qobj) :
  shape (kron A B) = ((shape A).1 * (shape B).1, (shape A).2 * (shape B).2).
Proof. unfold kron. by destruct (shape B). Qed.

Lemma shape_fold_kron (B : Qobj) (n : nat) (A : Qobj) :
  shape (fold_left kron (replicate n B) A)
  = ((shape A).1 * (shape B).1 ^ n, (shape A).2 * (shape B).2 ^ n).
Proof.
  revert A. induction n as [|n IH]; intros A; simpl.
  - by rewrite !Nat.mul_1_r, <- surjective_pairing.
  - rewrite IH, shape_kron. simpl. f_equal; lia.
Qed.

Lemma shape_tensor_replicate (B : Qobj) (n : nat) :
  n <> 0 ->
  shape (tensor (replicate n B)) = ((shape B).1 ^ n, (shape B).2 ^ n).
Proof.
  destruct n as [|n]; [done|]. intros _. simpl.
  by rewrite shape_fold_kron.
Qed.

Lemma mapM_ok_const {A B} (o : Outcome B) (b : B) (l : list A) :
  o = Ok b -> mapM_ok (fun _ => o) l = Ok (replicate (length l) b).
Proof. intros ->. induction l as [|a l IH]; simpl; [done|]. by rewrite IH. Qed.

Lemma basis_of_shape (bn : BasisName) (b : string) (ket : Qobj) :
  b = "d" \/ b = "g" -> basis_of bn !! b = Some ket ->
  shape ket = (dim_of bn, 1).
Proof.
  intros [-> | ->] H; destruct bn; vm_compute in H;
    first [discriminate H|by injection H as <-].
Qed.

(** Setting the initial state to ["all-ground"], on a register that is not
    empty and once the basis is chosen: the state stored is the tensor
    product of one ground ket per atom (["d"] in the XY mode, ["g"]
    otherwise), a column of [dim ^ N] entries, and nothing else changes;
    given back to the setter as an array, that state is accepted and the
    object stays as it is. *)
Theorem initial_state_all_ground (self self' : Simulation) (bn : BasisName) :
  basis_name self = Some bn -> _size self <> 0 ->
  initial_state_setter E AllGround self = (Ok tt, self') ->
  exists ket,
    basis_of bn !! (if decide (_interaction self = XY_mode) then "d" else "g")
    = Some ket
    /\ self' = set_initial_state (tensor (replicate (_size self) ket)) self
    /\ shape (_initial_state self') = (dim_of bn ^ _size self, 1)
    /\ initial_state_setter E (StateArray (_initial_state self')) self'
       = (Ok tt, self').
Proof.
  intros Hbn Hsize H. unfold initial_state_setter in H.
  apply sim_bind_ok_inv in H as (s & s0 & [= <- <-] & H).
  apply sim_bind_ok_inv in H as (st & s0 & [= Hst <-] & [= <-]).
  unfold all_in_state, basis_get in Hst. rewrite Hbn in Hst.
  set (b := if decide (_interaction self = XY_mode) then "d" else "g") in *.
  destruct (basis_of bn !! b) as [ket|] eqn:Hket.
  - rewrite (mapM_ok_const _ ket) in Hst by done. simpl in Hst.
    injection Hst as <-. rewrite length_seq.
    assert (shape ket = (dim_of bn, 1)) as Hshape.
    { apply (basis_of_shape bn b); [|done]. unfold b.
      destruct (decide _); auto. }
    exists ket. split; [done|]. split; [done|]. simpl.
    rewrite shape_tensor_replicate, Hshape by done. simpl.
    rewrite Nat.pow_1_l. split; [done|].
    unfold initial_state_setter, sim_bind, sim_get, sim_lift, dim. simpl.
    unfold Qobj_with_dims.
    rewrite Hbn. rewrite shape_tensor_replicate, Hshape by done. simpl.
    rewrite Nat.pow_1_l. rewrite !bool_decide_eq_true_2 by done. done.
  - destruct (_size self) as [|n]; [done|]. simpl in Hst. done.
Qed.

(* ================================================================= *)
(** ** The object that [__init__] leaves *)

Lemma construct_ok_built u s s' :
  _construct_hamiltonian E u s = (Ok tt, s') ->
  is_Some (basis_name s') /\ is_Some (_hamiltonian s').
Proof.
  unfold _construct_hamiltonian. intros H.
  apply sim_bind_ok_inv in H as ([] & s0 & _ & H).
  apply sim_bind_ok_inv in H as ([] & s1 & _ & H).
  apply sim_bind_ok_inv in H as ([] & s2 & H2 & H).
  assert (is_Some (basis_name s2)) as Hb2.
  { apply sim_bind_ok_inv in H2 as (sx & s3 & [= <- <-] & H2).
    destruct (basis_name s1) eqn:Hb1.
    - injection H2 as <-. by rewrite Hb1.
    - injection H2 as <-. simpl. eauto. }
  pose proof (assemble_hamiltonian_stable s2) as Hst. rewrite H in Hst.
  destruct Hst as (_&_&_&_&_&_&_&_&Hb). simpl in Hb.
  split; [destruct Hb2 as [bn Hbn]; rewrite (Hb bn Hbn); eauto|].
  unfold assemble_hamiltonian in H.
  do 6 (apply sim_bind_ok_inv in H as (? & ? & _ & H)).
  injection H as <-. simpl. eauto.
Qed.

Lemma init_sampling_static (s : Simulation) :
  _seq (init_sampling s).2 = _seq s
  /\ _sampling_rate (init_sampling s).2 = _sampling_rate s.
Proof.
  unfold init_sampling, sim_bind, sim_get, sim_raise, sim_lift, sim_modify.
  destruct (bool_decide _); [done|].
  destruct (all_ok _ _) as [[]|e]; [done| |done].
  destruct (negb _); [done|]. destruct (_ <? 4)%Z; [done|].
  by destruct (_adapt_to_sampling_rate _ _).
Qed.

(** What a [set_config] that returns has left alone, and what it has
    built. *)
Lemma set_config_ok_frame (cfg : SimConfig) (self self' : Simulation) :
  set_config E cfg self = (Ok tt, self') ->
  _seq self' = _seq self /\ _sampling_rate self' = _sampling_rate self
  /\ sampling_times self' = sampling_times self
  /\ _eval_times_array self' = _eval_times_array self
  /\ _initial_state self' = _initial_state self
  /\ _meas_basis self' = _meas_basis self
  /\ _config self' = Some cfg
  /\ is_Some (basis_name self') /\ is_Some (_hamiltonian self').
Proof.
  unfold set_config. change recursion_limit with (S (pred recursion_limit)).
  cbn [set_config_at]. intros H.
  apply sim_bind_ok_inv in H as (s & s0 & [= <- <-] & H).
  destruct (issubset (noise cfg) _); [|done]. cbn [negb] in H.
  apply sim_bind_ok_inv in H as ([] & s0 & H0 & H).
  assert (_seq s0 = _seq self /\ _sampling_rate s0 = _sampling_rate self
          /\ sampling_times s0 = sampling_times self
          /\ _eval_times_array s0 = _eval_times_array self
          /\ _initial_state s0 = _initial_state self
          /\ _meas_basis s0 = _meas_basis self
          /\ _config s0 = Some cfg) as (F1 & F2 & F3 & F4 & F5 & F6 & F7).
  { unfold install_config, sim_bind, sim_get, sim_modify, sim_ret in H0.
    simpl in H0.
    destruct (negb (_ && _)), (negb (has_noise "doppler" cfg));
      simpl in H0; by injection H0 as <-. }
  apply sim_bind_ok_inv in H as ([] & s1 & H1 & H).
  pose proof (_construct_hamiltonian_stable true s0) as Hst.
  rewrite H1 in Hst. destruct Hst as (G1 & G2 & G3 & G4 & G5 & G6 & G7 & _).
  simpl in G1, G2, G3, G4, G5, G6, G7.
  destruct (construct_ok_built _ _ _ H1) as [Hb Hh].
  assert (self' = s1 \/ exists ops, self' = set_collapse_ops ops s1) as Hs'.
  { destruct (has_noise "dephasing" cfg); [|left; by injection H as <-].
    apply sim_bind_ok_inv in H as (s & s2 & [= <- <-] & H).
    destruct (_ || _).
    { apply sim_bind_ok_inv in H as (? & ? & _ & H). done. }
    apply sim_bind_ok_inv in H as (ops & s2 & [= _ <-] & [= <-]). eauto. }
  destruct Hs' as [->|[ops ->]]; simpl; repeat split; congruence.
Qed.

(** When [__init__] returns, the object holds the sequence and the rate it
    was given and the configuration it was given, or the default one; the
    evaluation times are what the setter makes of the specification; the
    basis is chosen and the Hamiltonian built; the measurement basis is that
    of the measurement of the sequence if it has one, else digital for the
    digital and the all bases and the basis itself otherwise; the initial
    state is one ground ket per atom. *)
Theorem init_postconditions (sequence : Sequence) (sampling_rate : Q)
  (cfg : option SimConfig) (evaluation_times : EvalTimesSpec) (rng0 : nat)
  (self : Simulation) :
  __init__ E sequence sampling_rate cfg evaluation_times rng0 = (Ok tt, self) ->
  _seq self = sequence /\ _sampling_rate self = sampling_rate
  /\ _config self = Some (default (SimConfig_default E) cfg)
  /\ evaluation_times_setter self evaluation_times = Ok (_eval_times_array self)
  /\ is_Some (_hamiltonian self)
  /\ exists bn,
       basis_name self = Some bn
       /\ _meas_basis self
          = match _measurement sequence with
            | Some m => m
            | None => match bn with
                      | bn_digital | bn_all => bn_digital
                      | _ => bn
                      end
            end
       /\ all_in_state self (if _in_xy sequence then "d" else "g")
          = Ok (_initial_state self).
Proof.
  unfold __init__. intros H.
  apply sim_bind_ok_inv in H as ([] & s1 & H1 & H).
  pose proof (init_sampling_static (blank sequence sampling_rate rng0)) as Hst1.
  rewrite H1 in Hst1. destruct Hst1 as (A1 & A2). simpl in A1, A2.
  apply sim_bind_ok_inv in H as (s & s2 & [= <- <-] & H).
  apply sim_bind_ok_inv in H as (times & s2 & [= Htimes <-] & H).
  apply sim_bind_ok_inv in H as ([] & s2 & [= <-] & H).
  apply sim_bind_ok_inv in H as ([] & s3 & H3 & H).
  apply set_config_ok_frame in H3
    as (B1 & B2 & B3 & B4 & B5 & B6 & B7 & [bn Hbn] & Hham).
  simpl in B1, B2, B3, B4, B5, B6.
  apply sim_bind_ok_inv in H as (s & s4 & [= <- <-] & H).
  apply sim_bind_ok_inv in H as ([] & s4 & [= <-] & H).
  unfold initial_state_setter in H.
  apply sim_bind_ok_inv in H as (s & s5 & [= <- <-] & H).
  apply sim_bind_ok_inv in H as (st & s5 & [= Hst <-] & [= <-]).
  simpl. rewrite B1, A1, B2, A2. split; [done|]. split; [done|].
  split; [done|]. split; [|split; [done|]].
  - rewrite B4. rewrite <- Htimes.
    unfold evaluation_times_setter, t_final, _tot_duration. simpl.
    by rewrite B3, B1.
  - exists bn. split; [done|]. rewrite Hbn. split; [by destruct bn|].
    rewrite <- Hst. unfold all_in_state, basis_get, _size, _qdict, _interaction.
    simpl. rewrite ?B1, ?A1. by destruct (_in_xy sequence).
Qed.


(* ================================================================= *)
(** ** The noise that [_update_noise] draws *)

Lemma foldl_insert_not_in {V} (l : list (QubitId * V)) (q : QubitId) :
  q ∉ l.*1 -> forall m0 : gmap QubitId V,
  foldl (fun m (kv : QubitId * V) => <[kv.1 := kv.2]> m) m0 l !! q = m0 !! q.
Proof.
  induction l as [|[k v] l IH]; intros Hq m0; csimpl in *; [done|].
  apply not_elem_of_cons in Hq as [Hne Hq].
  rewrite IH by done. by rewrite lookup_insert_ne.
Qed.

Lemma foldl_insert_in {V} (l : list (QubitId * V)) (q : QubitId) (v : V) :
  NoDup l.*1 -> (q, v) ∈ l -> forall m0 : gmap QubitId V,
  foldl (fun m (kv : QubitId * V) => <[kv.1 := kv.2]> m) m0 l !! q = Some v.
Proof.
  induction l as [|[k v'] l IH]; intros Hnd Hin m0; csimpl in *.
  - by apply elem_of_nil in Hin.
  - apply list.NoDup_cons in Hnd as [Hk Hnd].
    apply elem_of_cons in Hin as [[= <- <-]|Hin].
    + rewrite foldl_insert_not_in by done. by rewrite lookup_insert_eq.
    + by apply IH.
Qed.

(** [dict(zip(keys, values))[keys[k]]] is [values[k]] when the keys are
    distinct. *)
Lemma dict_zip_lookup {V} (keys : list QubitId) (values : list V)
  (k : nat) (q : QubitId) :
  NoDup keys -> length values = length keys -> keys !! k = Some q ->
  dict_zip keys values !! q = values !! k.
Proof.
  intros Hnd Hlen Hk. unfold dict_zip.
  destruct (values !! k) as [v|] eqn:Hv.
  - apply foldl_insert_in.
    + by rewrite fst_zip by lia.
    + apply (list_elem_of_lookup_2 _ k). rewrite lookup_zip_with, Hk. simpl.
      by rewrite Hv.
  - apply lookup_ge_None in Hv. apply lookup_lt_Some in Hk. lia.
Qed.

(** [_update_noise] always returns.  With SPAM noise and [eta > 0] it takes
    one uniform draw per atom and marks as badly prepared the atoms whose
    draw is below [eta]; otherwise it leaves the bad atoms as they are.
    With Doppler noise it then takes one normal draw per atom, of mean 0 and
    deviation [doppler_sigma], as the detuning of the atom; otherwise it
    leaves the detunings as they are. *)
Theorem _update_noise_draws (s : Simulation) :
  NoDup (qids s) ->
  (_update_noise E s).1 = Ok tt
  /\ (if has_noise "SPAM" (config E s) && Qltb 0 (eta (config E s))
      then forall k q, qids s !! k = Some q ->
             _bad_atoms (_update_noise E s).2 !! q
             = Some (Qltb (uniform E (rng_pos s + k)) (eta (config E s)))
      else _bad_atoms (_update_noise E s).2 = _bad_atoms s)
  /\ (if has_noise "doppler" (config E s)
      then forall k q, qids s !! k = Some q ->
             _doppler_detune (_update_noise E s).2 !! q
             = Some (0 + doppler_sigma (config E s)
                         * std_normal E
                             (rng_pos s
                              + (if has_noise "SPAM" (config E s)
                                    && Qltb 0 (eta (config E s))
                                 then length (qids s) else 0)
                              + k))%R
      else _doppler_detune (_update_noise E s).2 = _doppler_detune s).
Proof.
  intros Hnd. unfold _update_noise, sim_bind, sim_get.
  destruct (has_noise "SPAM" (config E s) && Qltb 0 (eta (config E s)));
    unfold random_uniform, sim_modify, sim_ret; simpl;
    unfold config; simpl; fold (config E s);
    destruct (has_noise "doppler" (config E s));
    unfold random_normal, sim_modify; simpl;
    (split; [done|]); split; try done.
  all: intros k q Hk.
  all: rewrite (dict_zip_lookup _ _ k) by
         (done || by rewrite !length_fmap, length_seq).
  all: rewrite ?list_lookup_fmap, lookup_seq_lt by (by eapply lookup_lt_Some).
  all: simpl; try done.
  all: by rewrite Nat.add_0_r.
Qed.


(* ================================================================= *)
(** ** Noisy extraction is per atom *)

(** The samples of the global channels are as they were. *)
Definition global_kept (s s' : Simulation) : Prop :=
  smp_global (samples s') = smp_global (samples s).

#[local] Instance global_kept_preorder : PreOrder global_kept.
Proof.
  split; unfold global_kept; [done|]. intros s1 s2 s3. congruence.
Qed.

Section GlobalKept.
Hint Extern 1 (global_kept _ _) =>
  unfold global_kept; simpl; reflexivity : writes.

Lemma write_samples_global_kept slot p d g q :
  sim_preserves global_kept (write_samples E slot p d g q).
Proof. apply write_samples_writes; [apply _|]. by intros v s. Qed.
Lemma get_local_global_kept b : sim_preserves global_kept (get_local b).
Proof. unfold get_local. preserves. Qed.
Lemma put_local_global_kept b d : sim_preserves global_kept (put_local b d).
Proof. unfold put_local. preserves. Qed.
Hint Resolve write_samples_global_kept get_local_global_kept
  put_local_global_kept : preserves.

Lemma write_local_qubit_global_kept slot p b g k q :
  sim_preserves global_kept (write_local_qubit E slot p b g k q).
Proof. unfold write_local_qubit. preserves. Qed.
Hint Resolve write_local_qubit_global_kept : preserves.

Lemma extract_noisy_global_kept b g slots :
  sim_preserves global_kept (extract_noisy E b g slots).
Proof. unfold extract_noisy. preserves. Qed.
Lemma apply_slm_mask_global_kept b :
  sim_preserves global_kept (apply_slm_mask b).
Proof. unfold apply_slm_mask. preserves. Qed.
End GlobalKept.

(** With any noise other than dephasing in the configuration, the
    extraction writes every pulse, of a global channel too, to the samples
    of the atoms it targets: when it returns, the samples of the global
    channels are empty in every basis. *)
Theorem noisy_extraction_is_local (s s' : Simulation) :
  issubset (noise (config E s)) ["dephasing"] = false ->
  _extract_samples E s = (Ok tt, s') ->
  forall b, smp_global (samples s') b = None.
Proof.
  intros Hnoise H. unfold _extract_samples in H.
  apply sim_bind_ok_inv in H as (self & s1 & [= <- <-] & H).
  apply sim_bind_ok_inv in H as ([] & s1 & [= <-] & H).
  apply sim_bind_ok_inv in H as ([] & s2 & H2 & H).
  assert (smp_global (samples s2) = fun _ => None) as Hs2.
  { destruct (operators s); by injection H2 as <-. }
  assert (smp_global (samples s') = fun _ => None) as ->; [|done].
  eapply (hoare_for (fun s0 => smp_global (samples s0) = fun _ => None));
    [|exact Hs2|exact H].
  intros channel _ s0 [] s0' Hs0 Hbody.
  rewrite Hnoise, andb_false_r in Hbody.
  assert (sim_preserves global_kept
            (slots <- sim_lift (getitem (_schedule (_seq s) !! channel.1)) ;;
             extract_noisy E (basis channel.2)
               (bool_decide (addressing channel.2 = Global)) slots ;;
             apply_slm_mask (basis channel.2))) as Hk.
  { apply preserves_bind; [apply _|apply preserves_lift; apply _|intros slots].
    apply preserves_bind; [apply _|apply extract_noisy_global_kept|intros _].
    apply apply_slm_mask_global_kept. }
  specialize (Hk s0). rewrite Hbody in Hk. unfold global_kept in Hk.
  simpl in Hk. by rewrite Hk.
Qed.


(* ================================================================= *)
(** ** What [run] leaves alone *)

Lemma spam_guard_stable : sim_preserves stable (spam_guard E).
Proof. unfold spam_guard. preserves. Qed.
Hint Resolve spam_guard_stable : preserves.

Lemma run_iteration_stable meas tc item :
  sim_preserves stable (run_iteration E meas tc item).
Proof. unfold run_iteration. preserves. Qed.
Hint Resolve run_iteration_stable : preserves.

Lemma run_loop_stable meas items tc :
  sim_preserves stable (run_loop E meas items tc).
Proof.
  revert tc. induction items as [|item items IH]; intros tc; simpl.
  - preserves.
  - preserves.
Qed.
Hint Resolve run_loop_stable : preserves.

Lemma solver_options_stable options :
  sim_preserves stable (solver_options E options).
Proof.
  unfold solver_options.
  apply preserves_bind; [apply _|case_bool_decide; preserves|intros so].
  destruct (Options_error E so); preserves.
Qed.
Hint Resolve solver_options_stable : preserves.

(** [run], whatever its arguments, in every regime and whether it returns
    or raises, leaves the sequence, the sampling rate and times, the
    evaluation times, the configuration, the initial state, the measurement
    basis, the collapse operators and the basis as they were. *)
Theorem run_keeps_setup (pb : ProgressBar) (options : gmap string Q)
  (self : Simulation) :
  stable self (run E pb options self).2.
Proof.
  assert (sim_preserves stable (run E pb options)) as H; [|apply H].
  unfold run. preserves.
Qed.


(* ================================================================= *)
(** ** The SLM mask on the samples *)

(** The array is zero before the time [t1]. *)
Definition zeros_before (t1 : nat) (a : list R) : Prop :=
  forall t x, t < t1 -> a !! t = Some x -> x = 0%R.

Definition masked_arrays (t1 : nat) (arr : SampleArrays) : Prop :=
  zeros_before t1 (amp arr) /\ zeros_before t1 (det arr)
  /\ zeros_before t1 (phase_arr arr).

(** The atom [q] has samples in the basis [b], zero before [t1]. *)
Definition masked_entry (b : Basis) (t1 : nat) (q : QubitId)
  (s : Simulation) : Prop :=
  exists arr, dict_get (smp_local (samples s) b) q = Some arr
              /\ masked_arrays t1 arr.

Lemma slice_zero_zeros_before (t1 : nat) (a : list R) :
  zeros_before t1 (slice_zero t1 a).
Proof.
  intros t x Ht. unfold slice_zero. rewrite list_lookup_imap.
  destruct (a !! t); simpl; [|done].
  rewrite bool_decide_eq_true_2 by done. by intros [= <-].
Qed.

Lemma dict_get_set {V} (d : list (QubitId * V)) (k k' : QubitId) (v : V) :
  dict_get (dict_set d k v) k'
  = if decide (k' = k) then Some v else dict_get d k'.
Proof.
  induction d as [|[k0 v0] d IH]; simpl.
  - destruct (decide (k' = k)); done.
  - destruct (decide (k = k0)) as [->|Hne]; simpl.
    + destruct (decide (k' = k0)); done.
    + destruct (decide (k' = k0)) as [->|Hne'].
      * by rewrite decide_False by done.
      * exact IH.
Qed.

(** The samples of the atoms in the bases other than [b0] are as they
    were. *)
Definition local_kept_but (b0 : Basis) (s s' : Simulation) : Prop :=
  forall b, b <> b0 -> smp_local (samples s') b = smp_local (samples s) b.

#[local] Instance local_kept_but_preorder b0 : PreOrder (local_kept_but b0).
Proof.
  split; [by intros s b _|].
  intros s1 s2 s3 H1 H2 b Hb. by rewrite H2, H1.
Qed.

Section LocalKept.
Context (b0 : Basis).
Hint Extern 1 (local_kept_but _ _ _) =>
  intros ? ?; simpl; reflexivity : writes.

Lemma write_samples_local_kept slot p d g q :
  sim_preserves (local_kept_but b0) (write_samples E slot p d g q).
Proof. apply write_samples_writes; [apply _|]. by intros v s b Hb. Qed.
Lemma get_local_local_kept b : sim_preserves (local_kept_but b0) (get_local b).
Proof. unfold get_local. preserves. Qed.
Lemma put_local_local_kept d :
  sim_preserves (local_kept_but b0) (put_local b0 d).
Proof.
  intros s b Hb. simpl. by rewrite fn_lookup_insert_ne.
Qed.
Lemma get_global_local_kept b :
  sim_preserves (local_kept_but b0) (get_global b).
Proof. unfold get_global. preserves. Qed.
Lemma put_global_local_kept b d :
  sim_preserves (local_kept_but b0) (put_global b d).
Proof. unfold put_global. preserves. Qed.
Hint Resolve write_samples_local_kept get_local_local_kept
  put_local_local_kept get_global_local_kept put_global_local_kept : preserves.

Lemma write_local_qubit_local_kept slot p g k q :
  sim_preserves (local_kept_but b0) (write_local_qubit E slot p b0 g k q).
Proof. unfold write_local_qubit. preserves. Qed.
Hint Resolve write_local_qubit_local_kept : preserves.

Lemma extract_coherent_global_local_kept slots slm_on :
  sim_preserves (local_kept_but b0) (extract_coherent_global E b0 slots slm_on).
Proof.
  revert slm_on. induction slots as [|slot rest IH]; intros slm_on; simpl.
  - preserves.
  - preserves.
Qed.
Lemma extract_noisy_local_kept g slots :
  sim_preserves (local_kept_but b0) (extract_noisy E b0 g slots).
Proof. unfold extract_noisy. preserves. Qed.
Lemma apply_slm_mask_local_kept :
  sim_preserves (local_kept_but b0) (apply_slm_mask b0).
Proof. unfold apply_slm_mask. preserves. Qed.
End LocalKept.

(** The loop of the mask over the masked atoms: the atoms it goes through
    end with samples that are zero before [t1], and so do those that had
    such samples. *)
Lemma mask_loop_spec (b : Basis) (t1 : nat) (l : list QubitId) :
  forall s s',
    sim_for l (fun qubit =>
      samples_dict <- get_local b ;;
      arr <- sim_lift (getitem (dict_get samples_dict qubit)) ;;
      put_local b (dict_set samples_dict qubit
        (mkSampleArrays (slice_zero t1 (amp arr)) (slice_zero t1 (det arr))
                        (slice_zero t1 (phase_arr arr))))) s = (Ok tt, s') ->
    (forall q, q ∈ l -> masked_entry b t1 q s')
    /\ (forall q, masked_entry b t1 q s -> masked_entry b t1 q s').
Proof.
  induction l as [|q0 l IH]; intros s s' H; simpl in H.
  - injection H as <-. split; [by intros q ?%elem_of_nil|done].
  - apply sim_bind_ok_inv in H as ([] & s1 & H1 & H).
    apply sim_bind_ok_inv in H1 as (d & s0 & Hd & H1).
    apply get_local_inv in Hd as [-> ->].
    apply sim_bind_ok_inv in H1 as (arr & s0 & [= Harr <-] & [= <-]).
    destruct (IH _ _ H) as [IH1 IH2].
    assert (forall q, q = q0 \/ masked_entry b t1 q s ->
                      masked_entry b t1 q
                        (put_local b (dict_set (smp_local (samples s) b) q0
                           (mkSampleArrays (slice_zero t1 (amp arr))
                              (slice_zero t1 (det arr))
                              (slice_zero t1 (phase_arr arr)))) s).2) as Hs1.
    { intros q Hq. unfold masked_entry. simpl.
      rewrite fn_lookup_insert, dict_get_set.
      destruct (decide (q = q0)) as [->|Hne].
      - eexists. split; [done|]. repeat split; apply slice_zero_zeros_before.
      - by destruct Hq as [?|Hq]. }
    split.
    + intros q [->|Hq]%elem_of_cons; [|by apply IH1].
      apply IH2, Hs1. by left.
    + intros q Hq. apply IH2, Hs1. by right.
Qed.

(** One turn of the loop of [_extract_samples] over the channels, with a
    mask: the masked atoms end with samples in the basis of the channel
    that are zero before [t1]; in any basis where they all had such
    samples, they still do. *)
Lemma channel_masked (self : Simulation) (t1 : nat) (channel : string * Channel)
  (s s' : Simulation) :
  _slm_mask_targets (_seq self) <> [] ->
  _slm_mask_time (_seq self) !! 1 = Some t1 ->
  (slots <- sim_lift (getitem (_schedule (_seq self) !! channel.1)) ;;
   (if bool_decide (addressing channel.2 = Global)
       && issubset (noise (config E self)) ["dephasing"] then
      extract_coherent_global E (basis channel.2) slots
        (bool_decide (_slm_mask_targets (_seq self) <> []))
    else
      extract_noisy E (basis channel.2)
        (bool_decide (addressing channel.2 = Global)) slots) ;;
   apply_slm_mask (basis channel.2)) s = (Ok tt, s') ->
  _seq s = _seq self ->
  _seq s' = _seq self
  /\ (forall q, q ∈ _slm_mask_targets (_seq self) ->
        masked_entry (basis channel.2) t1 q s')
  /\ (forall b, (forall q, q ∈ _slm_mask_targets (_seq self) ->
                   masked_entry b t1 q s) ->
                forall q, q ∈ _slm_mask_targets (_seq self) ->
                  masked_entry b t1 q s').
Proof.
  intros Htargets Htime H Hseq.
  assert (Htime' : _slm_mask_time (_seq self) <> []).
  { intros Hnil. by rewrite Hnil in Htime. }
  apply sim_bind_ok_inv in H as (slots & s0 & [= _ <-] & H).
  apply sim_bind_ok_inv in H as ([] & s1 & H1 & H).
  set (extraction := if _ && _ then _ else _) in H1.
  assert (sim_preserves (local_kept_but (basis channel.2)) extraction
          /\ sim_preserves stable extraction) as [Hk Hst].
  { unfold extraction. destruct (_ && _).
    - split; [apply extract_coherent_global_local_kept
             |apply extract_coherent_global_stable].
    - split; [apply extract_noisy_local_kept|apply extract_noisy_stable]. }
  specialize (Hk s). specialize (Hst s). rewrite H1 in Hk, Hst.
  simpl in Hk, Hst. destruct Hst as (Hseq1 & _).
  pose proof (apply_slm_mask_local_kept (basis channel.2) s1) as Hk2.
  pose proof (apply_slm_mask_stable (basis channel.2) s1) as Hst2.
  rewrite H in Hk2, Hst2. simpl in Hk2, Hst2. destruct Hst2 as (Hseq2 & _).
  unfold apply_slm_mask in H.
  apply sim_bind_ok_inv in H as (s1' & s2 & [= <- <-] & H).
  rewrite Hseq1, Hseq in H.
  rewrite !bool_decide_eq_true_2 in H by done. simpl in H.
  apply sim_bind_ok_inv in H as (t1' & s2 & [= Ht1 <-] & H).
  unfold slm_mask_end in Ht1. rewrite Hseq1, Hseq, Htime in Ht1.
  injection Ht1 as <-.
  apply mask_loop_spec in H as [Hm1 Hm2].
  split; [by rewrite Hseq2, Hseq1|]. split; [exact Hm1|].
  intros b Hb q Hq. destruct (decide (b = basis channel.2)) as [->|Hne].
  - by apply Hm1.
  - destruct (Hb q Hq) as (arr & Harr & Hz). exists arr. split; [|done].
    by rewrite (Hk2 b Hne), (Hk b Hne).
Qed.

(** The loop of [_extract_samples] over the channels, with a mask. *)
Lemma channels_masked (self : Simulation) (t1 : nat)
  (channels : list (string * Channel)) :
  _slm_mask_targets (_seq self) <> [] ->
  _slm_mask_time (_seq self) !! 1 = Some t1 ->
  forall s s',
    sim_for channels (fun channel : string * Channel =>
      slots <- sim_lift (getitem (_schedule (_seq self) !! channel.1)) ;;
      (if bool_decide (addressing channel.2 = Global)
          && issubset (noise (config E self)) ["dephasing"] then
         extract_coherent_global E (basis channel.2) slots
           (bool_decide (_slm_mask_targets (_seq self) <> []))
       else
         extract_noisy E (basis channel.2)
           (bool_decide (addressing channel.2 = Global)) slots) ;;
      apply_slm_mask (basis channel.2)) s = (Ok tt, s') ->
    _seq s = _seq self ->
    (forall channel q, channel ∈ channels ->
       q ∈ _slm_mask_targets (_seq self) ->
       masked_entry (basis channel.2) t1 q s')
    /\ (forall b, (forall q, q ∈ _slm_mask_targets (_seq self) ->
                     masked_entry b t1 q s) ->
                  forall q, q ∈ _slm_mask_targets (_seq self) ->
                    masked_entry b t1 q s').
Proof.
  intros Htargets Htime.
  induction channels as [|c channels IH]; intros s s' H Hseq; simpl in H.
  - injection H as <-. split; [|done]. by intros c q ?%elem_of_nil.
  - apply sim_bind_ok_inv in H as ([] & s1 & Hbody & H).
    destruct (channel_masked self t1 c s s1 Htargets Htime Hbody Hseq)
      as (Hseq1 & Hm & Hkeep).
    destruct (IH _ _ H Hseq1) as [IH1 IH2]. split.
    + intros channel q [->|Hc]%elem_of_cons Hq.
      * by apply IH2.
      * by apply IH1.
    + intros b Hb q Hq. apply IH2; [|done]. by apply Hkeep.
Qed.

(** With an SLM mask, when the extraction of the samples returns, every
    masked atom has samples in the basis of every declared channel, and
    they are zero before the end of the mask. *)
Theorem slm_mask_zeroes (s s' : Simulation) (t1 : nat) :
  _slm_mask_targets (_seq s) <> [] ->
  _slm_mask_time (_seq s) !! 1 = Some t1 ->
  _extract_samples E s = (Ok tt, s') ->
  forall channel q,
    channel ∈ declared_channels (_seq s) ->
    q ∈ _slm_mask_targets (_seq s) ->
    masked_entry (basis channel.2) t1 q s'.
Proof.
  intros Htargets Htime H. unfold _extract_samples in H.
  apply sim_bind_ok_inv in H as (self & s1 & [= <- <-] & H).
  apply sim_bind_ok_inv in H as ([] & s1 & [= <-] & H).
  apply sim_bind_ok_inv in H as ([] & s2 & H2 & H).
  assert (_seq s2 = _seq s) as Hseq.
  { destruct (operators s); by injection H2 as <-. }
  intros channel q Hc Hq.
  destruct (channels_masked s t1 _ Htargets Htime _ _ H Hseq) as [Hm _].
  by apply Hm.
Qed.


(* ================================================================= *)
(** ** A masked atom without samples *)

(** The atom [q] has no samples in the basis [b]. *)
Definition absent (b : Basis) (q : QubitId) (s : Simulation) : Prop :=
  dict_get (smp_local (samples s) b) q = None.

(** The samples of the atoms are as they were. *)
Definition locals_kept (s s' : Simulation) : Prop :=
  smp_local (samples s') = smp_local (samples s).

#[local] Instance locals_kept_preorder : PreOrder locals_kept.
Proof.
  split; [by intros s|]. intros s1 s2 s3 H1 H2. unfold locals_kept in *.
  by rewrite H2.
Qed.

Lemma write_samples_locals_kept slot p d g q :
  sim_preserves locals_kept (write_samples E slot p d g q).
Proof. apply write_samples_writes; [apply _|]. by intros v s. Qed.

Lemma put_local_absent (b b0 : Basis) (q q0 : QubitId) d v s :
  q0 <> q -> (b0 = b -> dict_get d q = None) -> absent b q s ->
  absent b q (put_local b0 (dict_set d q0 v) s).2.
Proof.
  intros Hne Hd Hs. unfold absent. simpl.
  destruct (decide (b0 = b)) as [->|Hb].
  - rewrite fn_lookup_insert, dict_get_set, decide_False by done. by apply Hd.
  - by rewrite fn_lookup_insert_ne.
Qed.

(** Writing the pulse of a slot for another atom gives [q] no samples. *)
Lemma write_local_qubit_absent slot p b g k (q0 q : QubitId) :
  q0 <> q ->
  hoare (absent b q) (write_local_qubit E slot p b g k q0)
        (fun _ => absent b q).
Proof.
  intros Hne s a s' Hs H. unfold write_local_qubit in H.
  apply sim_bind_ok_inv in H as (d & s1 & Hd & H).
  apply get_local_inv in Hd as [-> ->].
  apply sim_bind_ok_inv in H as (self & s1 & [= <- <-] & H).
  apply sim_bind_ok_inv in H as ([] & s2 & H2 & H).
  assert (absent b q s2) as Hs2.
  { destruct (dict_has _ q0).
    - by injection H2 as <-.
    - injection H2 as <-. by apply put_local_absent. }
  apply sim_bind_ok_inv in H as (bad & s3 & Hbad & H).
  assert (s3 = s2) as ->.
  { destruct k; [|by injection Hbad as _ <-].
    unfold sim_lift in Hbad. by destruct (getitem _); injection Hbad as _ <-. }
  destruct bad; [by injection H as _ <-|].
  apply sim_bind_ok_inv in H as (d & s3 & Hd & H).
  apply get_local_inv in Hd as [-> ->].
  apply sim_bind_ok_inv in H as (arr & s3 & [= _ <-] & H).
  apply sim_bind_ok_inv in H as (arr' & s3 & Hw & H).
  pose proof (write_samples_locals_kept slot p arr g [q0] s2) as Hk.
  rewrite Hw in Hk. unfold locals_kept in Hk. simpl in Hk.
  injection H as _ <-. apply put_local_absent; [done| |].
  - intros _. exact Hs2.
  - unfold absent. by rewrite Hk.
Qed.

(** The slots of a channel none of whose pulses targets [q]. *)
Definition untargeted (q : QubitId) (slots : list TimeSlot) : Prop :=
  forall slot p, slot ∈ slots -> type_ slot = IsPulse p -> q ∉ targets slot.

Lemma write_targets_absent slot p b g k q :
  q ∉ targets slot ->
  hoare (absent b q) (sim_for (targets slot) (write_local_qubit E slot p b g k))
        (fun _ => absent b q).
Proof.
  intros Hq. apply hoare_for. intros q0 Hq0.
  apply write_local_qubit_absent. by intros ->.
Qed.

Lemma extract_noisy_absent b g slots q :
  untargeted q slots ->
  hoare (absent b q) (extract_noisy E b g slots) (fun _ => absent b q).
Proof.
  intros Hu. unfold extract_noisy.
  eapply hoare_bind with (Q1 := fun _ => absent b q).
  - intros s d s' Hs Hd. by apply get_local_inv in Hd as [-> _].
  - intros _. apply hoare_for. intros slot Hslot.
    destruct (type_ slot) as [p|] eqn:Ht.
    + apply write_targets_absent. by eapply Hu.
    + intros s [] s' Hs [=]. by subst.
Qed.

Lemma extract_coherent_global_absent b slots slm_on q :
  untargeted q slots ->
  hoare (absent b q) (extract_coherent_global E b slots slm_on)
        (fun _ => absent b q).
Proof.
  revert slm_on. induction slots as [|slot rest IH]; intros slm_on Hu; simpl.
  - intros s [] s' Hs [=]. by subst.
  - assert (untargeted q rest) as Hrest.
    { intros slot' p Hin. apply Hu. by right. }
    destruct (type_ slot) as [p|] eqn:Ht; [|by apply IH].
    intros s [] s' Hs H.
    apply sim_bind_ok_inv in H as (self & s1 & [= <- <-] & H).
    apply sim_bind_ok_inv in H as (in_mask & s1 & Hm & H).
    assert (s1 = s) as ->.
    { destruct slm_on; [|by injection Hm as _ <-].
      apply sim_bind_ok_inv in Hm as (t1 & s2 & Ht1 & Hm).
      unfold sim_lift in Ht1. destruct (slm_mask_end s); [|done].
      injection Ht1 as _ <-. by injection Hm as _ <-. }
    destruct in_mask.
    + apply sim_bind_ok_inv in H as ([] & s1 & Hw & H).
      eapply (IH _ Hrest); [|exact H].
      eapply write_targets_absent; [|exact Hs|exact Hw].
      eapply Hu; [by left|exact Ht].
    + apply sim_bind_ok_inv in H as (d & s1 & Hd & H).
      assert (s1 = s) as ->.
      { unfold get_global, sim_bind, sim_get in Hd.
        case_bool_decide; [|done]. by injection Hd as _ <-. }
      apply sim_bind_ok_inv in H as (arr & s1 & Hw & H).
      pose proof (write_samples_locals_kept slot p
                    (default (prepare_dict s) d) true [] s) as Hk.
      rewrite Hw in Hk. unfold locals_kept in Hk. simpl in Hk.
      apply sim_bind_ok_inv in H as ([] & s2 & [= <-] & H).
      eapply (IH _ Hrest); [|exact H].
      unfold absent. simpl. by rewrite Hk.
Qed.

(** The loop of the mask returns only if every masked atom has samples. *)
Lemma mask_loop_needs_samples (b : Basis) (t1 : nat) (l : list QubitId) :
  forall s s',
    sim_for l (fun qubit =>
      samples_dict <- get_local b ;;
      arr <- sim_lift (getitem (dict_get samples_dict qubit)) ;;
      put_local b (dict_set samples_dict qubit
        (mkSampleArrays (slice_zero t1 (amp arr)) (slice_zero t1 (det arr))
                        (slice_zero t1 (phase_arr arr))))) s = (Ok tt, s') ->
    forall q, q ∈ l -> ~ absent b q s.
Proof.
  induction l as [|q0 l IH]; intros s s' H q Hq; simpl in H.
  - by apply elem_of_nil in Hq.
  - apply sim_bind_ok_inv in H as ([] & s1 & H1 & H).
    apply sim_bind_ok_inv in H1 as (d & s0 & Hd & H1).
    apply get_local_inv in Hd as [-> ->].
    apply sim_bind_ok_inv in H1 as (arr & s0 & [= Harr <-] & [= <-]).
    destruct (dict_get (smp_local (samples s) b) q0) as [arr0|] eqn:Hq0;
      [|done].
    intros Habs. apply elem_of_cons in Hq as [->|Hq].
    + unfold absent in Habs. by rewrite Habs in Hq0.
    + apply (IH _ _ H q Hq). unfold absent. simpl.
      rewrite fn_lookup_insert, dict_get_set.
      destruct (decide (q = q0)) as [->|_]; [|exact Habs].
      unfold absent in Habs. by rewrite Habs in Hq0.
Qed.

(** The loop of [_extract_samples] over the channels returns only if no
    channel is in a basis where the masked atom [q] gets no samples. *)
Lemma channels_need_samples (self : Simulation) (b : Basis) (q : QubitId)
  (channels : list (string * Channel)) :
  q ∈ _slm_mask_targets (_seq self) ->
  _slm_mask_time (_seq self) <> [] ->
  (forall c slots, c ∈ channels -> basis c.2 = b ->
     _schedule (_seq self) !! c.1 = Some slots -> untargeted q slots) ->
  forall s s',
    sim_for channels (fun channel : string * Channel =>
      slots <- sim_lift (getitem (_schedule (_seq self) !! channel.1)) ;;
      (if bool_decide (addressing channel.2 = Global)
          && issubset (noise (config E self)) ["dephasing"] then
         extract_coherent_global E (basis channel.2) slots
           (bool_decide (_slm_mask_targets (_seq self) <> []))
       else
         extract_noisy E (basis channel.2)
           (bool_decide (addressing channel.2 = Global)) slots) ;;
      apply_slm_mask (basis channel.2)) s = (Ok tt, s') ->
    _seq s = _seq self -> absent b q s ->
    forall c, c ∈ channels -> basis c.2 <> b.
Proof.
  intros Hq Htime.
  induction channels as [|c0 channels IH]; intros Hu s s' H Hseq Hs c Hc;
    simpl in H.
  - by apply elem_of_nil in Hc.
  - apply sim_bind_ok_inv in H as ([] & s1 & Hbody & H).
    apply sim_bind_ok_inv in Hbody as (slots & s0 & Hslots & Hbody).
    unfold sim_lift in Hslots.
    destruct (_schedule (_seq self) !! c0.1) as [slots0|] eqn:Hsched; [|done].
    injection Hslots as <- <-.
    apply sim_bind_ok_inv in Hbody as ([] & s2 & Hext & Hmask).
    set (extraction := if _ && _ then _ else _) in Hext.
    assert (sim_preserves stable extraction) as Hst.
    { unfold extraction. destruct (_ && _);
        [apply extract_coherent_global_stable|apply extract_noisy_stable]. }
    specialize (Hst s). rewrite Hext in Hst. destruct Hst as (Hseq2 & _).
    simpl in Hseq2.
    pose proof (apply_slm_mask_stable (basis c0.2) s2) as Hst1.
    rewrite Hmask in Hst1. destruct Hst1 as (Hseq1 & _). simpl in Hseq1.
    destruct (decide (basis c0.2 = b)) as [Hb|Hb].
    + (* the mask meets [q] without samples *)
      exfalso.
      assert (absent b q s2) as Hs2.
      { assert (untargeted q slots0) as Hu0
          by (eapply Hu; [by left|exact Hb|exact Hsched]).
        rewrite <- Hb. rewrite <- Hb in Hs. unfold extraction in Hext.
        destruct (_ && _).
        - eapply extract_coherent_global_absent; [exact Hu0|exact Hs|exact Hext].
        - eapply extract_noisy_absent; [exact Hu0|exact Hs|exact Hext]. }
      unfold apply_slm_mask in Hmask.
      apply sim_bind_ok_inv in Hmask as (s2' & s3 & [= <- <-] & Hmask).
      rewrite Hseq2, Hseq in Hmask.
      assert (_slm_mask_targets (_seq self) <> []) as Htargets.
      { intros Hnil. rewrite Hnil in Hq. by apply elem_of_nil in Hq. }
      rewrite !bool_decide_eq_true_2 in Hmask by done. simpl in Hmask.
      apply sim_bind_ok_inv in Hmask as (t1 & s3 & [= _ <-] & Hmask).
      rewrite Hb in Hmask.
      by apply (mask_loop_needs_samples b t1 _ _ _ Hmask q Hq).
    + assert (absent b q s1) as Hs1.
      { assert (sim_preserves (local_kept_but (basis c0.2)) extraction) as Hk.
        { unfold extraction. destruct (_ && _);
            [apply extract_coherent_global_local_kept
            |apply extract_noisy_local_kept]. }
        specialize (Hk s). rewrite Hext in Hk. simpl in Hk.
        pose proof (apply_slm_mask_local_kept (basis c0.2) s2) as Hk1.
        rewrite Hmask in Hk1. simpl in Hk1.
        unfold absent. rewrite Hk1, Hk by done. exact Hs. }
      apply elem_of_cons in Hc as [->|Hc]; [exact Hb|].
      eapply IH; [|exact H|by rewrite Hseq1, Hseq2|exact Hs1|exact Hc].
      intros c' slots' Hc'. apply Hu. by right.
Qed.

(** With an SLM mask, the extraction of the samples raises when a masked
    atom is targeted by no pulse of the channels of the basis of some
    declared channel: the mask then looks for samples that were never
    created. *)
Theorem slm_mask_unaddressed_raises (s : Simulation) (q : QubitId)
  (channel : string * Channel) :
  q ∈ _slm_mask_targets (_seq s) ->
  _slm_mask_time (_seq s) <> [] ->
  channel ∈ declared_channels (_seq s) ->
  (forall c slots, c ∈ declared_channels (_seq s) ->
     basis c.2 = basis channel.2 ->
     _schedule (_seq s) !! c.1 = Some slots -> untargeted q slots) ->
  exists e, (_extract_samples E s).1 = Raise e.
Proof.
  intros Hq Htime Hc Hu.
  destruct (_extract_samples E s) as [[[]|e] s'] eqn:H; [|by exists e].
  exfalso. unfold _extract_samples in H.
  apply sim_bind_ok_inv in H as (self & s1 & [= <- <-] & H).
  apply sim_bind_ok_inv in H as ([] & s1 & [= <-] & H).
  apply sim_bind_ok_inv in H as ([] & s2 & H2 & H).
  assert (_seq s2 = _seq s /\ absent (basis channel.2) q s2) as [Hseq Hs2].
  { destruct (operators s); by injection H2 as <-. }
  by apply (channels_need_samples s (basis channel.2) q _ Hq Htime Hu
              _ _ H Hseq Hs2 channel Hc).
Qed.


(* ================================================================= *)
(** ** When the extraction returns *)

(** From a state of [P], [m] returns, in a state of [Q]. *)
Definition returns {A} (P : Simulation -> Prop) (m : Sim A)
  (Q : A -> Simulation -> Prop) : Prop :=
  forall s, P s -> exists a s', m s = (Ok a, s') /\ Q a s'.

Lemma returns_bind {A B} (P : Simulation -> Prop) (m : Sim A)
  (f : A -> Sim B) (Q1 : A -> Simulation -> Prop)
  (Q : B -> Simulation -> Prop) :
  returns P m Q1 -> (forall a, returns (Q1 a) (f a) Q) ->
  returns P (sim_bind m f) Q.
Proof.
  intros Hm Hf s Hs. destruct (Hm s Hs) as (a & s1 & H1 & Ha).
  destruct (Hf a s1 Ha) as (b & s2 & H2 & Hb). exists b, s2.
  split; [|done]. unfold sim_bind. by rewrite H1.
Qed.

Lemma returns_for {A} (I : Simulation -> Prop) (l : list A)
  (body : A -> Sim unit) :
  (forall a, a ∈ l -> returns I (body a) (fun _ => I)) ->
  returns I (sim_for l body) (fun _ => I).
Proof.
  induction l as [|a l IH]; intros H; simpl.
  - intros s Hs. by exists tt, s.
  - eapply returns_bind; [apply H; by left|]. intros ?.
    apply IH. intros a' Ha'. apply H. by right.
Qed.

(** What the extraction reads and never writes: the sequence, the
    configuration, the noise of the atoms; and the bases of the samples. *)
Definition reads_kept (s s' : Simulation) : Prop :=
  _seq s' = _seq s /\ _config s' = _config s
  /\ _bad_atoms s' = _bad_atoms s
  /\ _doppler_detune s' = _doppler_detune s
  /\ smp_keys (samples s') = smp_keys (samples s).

#[local] Instance reads_kept_preorder : PreOrder reads_kept.
Proof.
  split; [by intros s|].
  intros s1 s2 s3 (A1 & A2 & A3 & A4 & A5) (B1 & B2 & B3 & B4 & B5).
  repeat split; congruence.
Qed.

Section ReadsKept.
Hint Extern 1 (reads_kept _ _) => by repeat split : writes.

Lemma write_samples_reads_kept slot p d g q :
  sim_preserves reads_kept (write_samples E slot p d g q).
Proof. apply write_samples_writes; [apply _|]. by intros v s. Qed.
Lemma get_local_reads_kept b : sim_preserves reads_kept (get_local b).
Proof. unfold get_local. preserves. Qed.
Lemma put_local_reads_kept b d : sim_preserves reads_kept (put_local b d).
Proof. by intros s. Qed.
Lemma get_global_reads_kept b : sim_preserves reads_kept (get_global b).
Proof. unfold get_global. preserves. Qed.
Lemma put_global_reads_kept b d : sim_preserves reads_kept (put_global b d).
Proof. by intros s. Qed.
Hint Resolve write_samples_reads_kept get_local_reads_kept
  put_local_reads_kept get_global_reads_kept put_global_reads_kept : preserves.

Lemma write_local_qubit_reads_kept slot p b g k q :
  sim_preserves reads_kept (write_local_qubit E slot p b g k q).
Proof. unfold write_local_qubit. preserves. Qed.
End ReadsKept.

(** The atom is one that the noise and the register know. *)
Definition known (s : Simulation) (q : QubitId) : Prop :=
  is_Some (_bad_atoms s !! q) /\ is_Some (_doppler_detune s !! q)
  /\ is_Some (dict_get (_qdict s) q).

Lemma reads_kept_known s0 s q : reads_kept s0 s -> known s0 q -> known s q.
Proof.
  intros (H1 & _ & H3 & H4 & _) (K1 & K2 & K3). unfold known, _qdict.
  by rewrite H1, H3, H4.
Qed.

Lemma reads_kept_config s0 s : reads_kept s0 s -> config E s = config E s0.
Proof. intros (_ & H & _). unfold config. by rewrite H. Qed.

(** [write_samples] returns when the noise it adds can be looked up. *)
Lemma write_samples_returns (s0 : Simulation) slot p d g (qid : list QubitId) :
  (has_noise "doppler" (config E s0) = true
   \/ has_noise "amplitude" (config E s0) = true ->
   exists q rest, qid = q :: rest /\ known s0 q) ->
  returns (reads_kept s0) (write_samples E slot p d g qid)
          (fun _ => reads_kept s0).
Proof.
  intros Hq s Hs.
  assert (exists a s', write_samples E slot p d g qid s = (Ok a, s'))
    as (a & s' & H).
  { unfold write_samples.
    rewrite (sim_bind_eq sim_get _ s s s eq_refl).
    rewrite (reads_kept_config s0 s Hs).
    destruct (has_noise "doppler" (config E s0)) eqn:Hd;
      destruct (has_noise "amplitude" (config E s0)) eqn:Ha.
    all: try (destruct Hq as (q & rest & -> & Hk); [by auto|];
              apply (reads_kept_known s0 s q Hs) in Hk;
              destruct Hk as (_ & [dd Hdd] & [pos Hpos])).
    all: unfold sim_bind, sim_lift, sim_ret, random_normal1; simpl;
      rewrite ?Hdd, ?Hpos; simpl; try destruct g; simpl; eauto. }
  exists a, s'. split; [done|].
  pose proof (write_samples_reads_kept slot p d g qid s) as Hk.
  rewrite H in Hk. by etrans.
Qed.

Lemma dict_has_get {V} (d : list (QubitId * V)) (q : QubitId) :
  dict_has d q = true -> is_Some (dict_get d q).
Proof.
  unfold dict_has. rewrite bool_decide_eq_true.
  induction d as [|[k v] d IH]; simpl; [by intros ?%elem_of_nil|].
  intros [->|Hin]%elem_of_cons.
  - by rewrite decide_True.
  - destruct (decide (q = k)); [done|by apply IH].
Qed.

Lemma get_local_ok (b : Basis) s :
  b ∈ smp_keys (samples s) ->
  get_local b s = (Ok (smp_local (samples s) b), s).
Proof.
  intros Hb. unfold get_local, sim_bind, sim_get.
  by rewrite bool_decide_eq_true_2.
Qed.

(** The body of the loop over the targets of a slot returns for an atom
    that is known. *)
Lemma write_local_qubit_returns (s0 : Simulation) slot p b g k q :
  b ∈ smp_keys (samples s0) -> known s0 q ->
  returns (reads_kept s0) (write_local_qubit E slot p b g k q)
          (fun _ => reads_kept s0).
Proof.
  intros Hb Hq s Hs.
  assert (exists a s', write_local_qubit E slot p b g k q s = (Ok a, s'))
    as (a & s' & H).
  { assert (forall s1, reads_kept s0 s1 -> b ∈ smp_keys (samples s1)) as Hkeys.
    { intros s1 (_ & _ & _ & _ & Hk). by rewrite Hk. }
    unfold write_local_qubit.
    rewrite (sim_bind_eq _ _ _ _ _ (get_local_ok b s (Hkeys s Hs))).
    rewrite (sim_bind_eq sim_get _ s s s eq_refl).
    set (create := if dict_has _ q then _ else _).
    assert (exists s2, create s = (Ok tt, s2) /\ reads_kept s0 s2
              /\ is_Some (dict_get (smp_local (samples s2) b) q))
      as (s2 & H2 & Hs2 & Hq2).
    { unfold create. destruct (dict_has _ q) eqn:Hhas.
      - exists s. repeat split; [apply Hs..|]. by apply dict_has_get.
      - eexists. split; [reflexivity|]. split.
        + etrans; [exact Hs|]. apply put_local_reads_kept.
        + simpl. rewrite fn_lookup_insert, dict_get_set.
          by rewrite decide_True. }
    rewrite (sim_bind_eq _ _ _ _ _ H2).
    set (lookup := if k then _ else _).
    assert (exists bad, lookup s2 = (Ok bad, s2)) as (bad & Hbad).
    { unfold lookup. destruct k; [|by eexists].
      destruct (reads_kept_known s0 s q Hs Hq) as ([bad Hbad] & _).
      exists bad. unfold sim_lift. by rewrite Hbad. }
    rewrite (sim_bind_eq _ _ _ _ _ Hbad).
    destruct bad; [by eexists _, _|].
    rewrite (sim_bind_eq _ _ _ _ _ (get_local_ok b s2 (Hkeys s2 Hs2))).
    destruct Hq2 as [arr Harr].
    rewrite (sim_bind_eq _ _ s2 arr s2) by (unfold sim_lift; by rewrite Harr).
    destruct (write_samples_returns s0 slot p arr g [q]
                ltac:(intros _; by exists q, []) s2 Hs2)
      as (arr' & s3 & Hw & _).
    rewrite (sim_bind_eq _ _ _ _ _ Hw). by eexists _, _. }
  exists a, s'. split; [done|].
  pose proof (write_local_qubit_reads_kept slot p b g k q s) as Hk.
  rewrite H in Hk. by etrans.
Qed.


(** The pulses of the slots only target known atoms. *)
Definition known_targets (s : Simulation) (slots : list TimeSlot) : Prop :=
  forall slot p q,
    slot ∈ slots -> type_ slot = IsPulse p -> q ∈ targets slot -> known s q.

Lemma extract_noisy_returns (s0 : Simulation) b g slots :
  b ∈ smp_keys (samples s0) -> known_targets s0 slots ->
  returns (reads_kept s0) (extract_noisy E b g slots) (fun _ => reads_kept s0).
Proof.
  intros Hb Hk. unfold extract_noisy.
  eapply returns_bind with (Q1 := fun _ => reads_kept s0).
  - intros s Hs. exists (smp_local (samples s) b), s. split; [|done].
    apply get_local_ok. destruct Hs as (_ & _ & _ & _ & ->). exact Hb.
  - intros ?. apply returns_for. intros slot Hslot.
    destruct (type_ slot) as [p|] eqn:Ht.
    + apply returns_for. intros q Hq.
      apply write_local_qubit_returns; [exact Hb|]. by eapply Hk.
    + intros s Hs. by exists tt, s.
Qed.

Lemma issubset_dephasing_coherent (cfg : SimConfig) :
  issubset (noise cfg) ["dephasing"] = true ->
  ~ (has_noise "doppler" cfg = true \/ has_noise "amplitude" cfg = true).
Proof.
  unfold has_noise.
  intros Hsub [Hin|Hin]; apply bool_decide_eq_true in Hin;
    (rewrite (issubset_without _ _ _ Hin) in Hsub;
      [done|by intros ?%list_elem_of_singleton]).
Qed.

(** Without a mask, the slots of a global channel in a coherent
    simulation go to the samples of the channel. *)
Lemma extract_coherent_global_returns (s0 : Simulation) b slots :
  b ∈ smp_keys (samples s0) ->
  issubset (noise (config E s0)) ["dephasing"] = true ->
  returns (reads_kept s0) (extract_coherent_global E b slots false)
          (fun _ => reads_kept s0).
Proof.
  intros Hb Hsub. induction slots as [|slot rest IH]; simpl.
  - intros s Hs. by exists tt, s.
  - destruct (type_ slot) as [p|]; [|exact IH].
    intros s Hs. rewrite (sim_bind_eq sim_get _ s s s eq_refl).
    rewrite (sim_bind_eq (sim_ret false) _ s false s eq_refl).
    assert (get_global b s = (Ok (smp_global (samples s) b), s)) as Hg.
    { unfold get_global, sim_bind, sim_get.
      rewrite bool_decide_eq_true_2; [done|].
      destruct Hs as (_ & _ & _ & _ & ->). exact Hb. }
    rewrite (sim_bind_eq _ _ _ _ _ Hg).
    destruct (write_samples_returns s0 slot p
                (default (prepare_dict s) (smp_global (samples s) b)) true []
                ltac:(intros H; by apply issubset_dephasing_coherent in H)
                s Hs) as (arr & s1 & Hw & Hs1).
    rewrite (sim_bind_eq _ _ _ _ _ Hw).
    rewrite (sim_bind_eq (put_global b (Some arr)) _ s1 tt _ eq_refl).
    apply IH. etrans; [exact Hs1|]. apply put_global_reads_kept.
Qed.

(** A declared channel that the extraction can go through: its basis is
    one of the interaction, it has a schedule, and its pulses target known
    atoms. *)
Definition well_scheduled (s : Simulation) (channel : string * Channel)
  : Prop :=
  basis channel.2 ∈ smp_keys (empty_samples (_interaction s))
  /\ exists slots, _schedule (_seq s) !! channel.1 = Some slots
                   /\ known_targets s slots.

(** Without an SLM mask, the extraction of the samples returns when every
    declared channel has a schedule, is in a basis of the interaction mode,
    and has pulses that only target atoms of the register whose noise has
    been set. *)
Theorem extraction_returns (s : Simulation) :
  _slm_mask_targets (_seq s) = [] ->
  (forall channel, channel ∈ declared_channels (_seq s) ->
     well_scheduled s channel) ->
  exists s', _extract_samples E s = (Ok tt, s').
Proof.
  intros Hmask Hch. unfold _extract_samples.
  rewrite (sim_bind_eq sim_get _ s s s eq_refl).
  rewrite (sim_bind_eq (sim_modify _) _ s tt _ eq_refl).
  set (s1 := set_samples (empty_samples (_interaction s)) s).
  set (cache := if operators s is None then _ else _).
  assert (exists s2, cache s1 = (Ok tt, s2) /\ reads_kept s1 s2)
    as (s2 & H2 & Hs2).
  { unfold cache. destruct (operators s); by eexists. }
  rewrite (sim_bind_eq _ _ _ _ _ H2).
  assert (forall q, known s q -> known s1 q) as Hknown by done.
  assert (config E s1 = config E s) as Hcfg by done.
  destruct (returns_for (reads_kept s1) (declared_channels (_seq s))
    (fun channel : string * Channel =>
       slots <- sim_lift (getitem (_schedule (_seq s) !! channel.1)) ;;
       (if bool_decide (addressing channel.2 = Global)
           && issubset (noise (config E s)) ["dephasing"] then
          extract_coherent_global E (basis channel.2) slots
            (bool_decide (_slm_mask_targets (_seq s) <> []))
        else
          extract_noisy E (basis channel.2)
            (bool_decide (addressing channel.2 = Global)) slots) ;;
       apply_slm_mask (basis channel.2))) with (s := s2)
    as ([] & s' & H & _); [|exact Hs2|by exists s'].
  intros channel Hc. destruct (Hch channel Hc) as (Hb & slots & Hsched & Hk).
  rewrite Hsched. simpl.
  eapply returns_bind with (Q1 := fun a s3 => a = slots /\ reads_kept s1 s3);
    [by intros s3 Hs3; exists slots, s3|intros a].
  intros s3 [-> Hs3]. revert s3 Hs3.
  apply (returns_bind (reads_kept s1) _ _ (fun _ => reads_kept s1)
           (fun _ => reads_kept s1)).
  - rewrite Hmask. rewrite (bool_decide_eq_false_2 ([] <> [])) by auto.
    destruct (_ && _) eqn:Hcase.
    + apply andb_prop in Hcase as [_ Hsub].
      apply extract_coherent_global_returns; [exact Hb|by rewrite Hcfg].
    + apply extract_noisy_returns; [exact Hb|].
      intros slot p q Hslot Hp Hq. apply Hknown. by eapply Hk.
  - intros ? s3 Hs3. exists tt, s3. split; [|done].
    unfold apply_slm_mask. rewrite (sim_bind_eq sim_get _ s3 s3 s3 eq_refl).
    destruct Hs3 as (-> & _). simpl. rewrite Hmask.
    by rewrite (bool_decide_eq_false_2 ([] <> [])) by auto.
Qed.

End Proofs.

(* ================================================================= *)
(** * Instances of the theorems on the examples *)

Ltac by_computation := refine (bool_decide_unpack _ _); vm_compute; exact I.

(** C7 fails as stated: after a ["global"] pair, an unknown qubit goes
    unnoticed. *)
Lemma build_operator_unknown_after_global :
  ~ ("q7" ∉ qids example_simulation ->
     exists e,
       build_operator example_simulation
         [(OpName "I", TGlobal); (OpName "sigma_rr", TQubits ["q7"])]
       = Raise e).
Proof.
  intros H. destruct H as [e He]; [by_computation|].
  assert (is_ok (build_operator example_simulation
            [(OpName "I", TGlobal); (OpName "sigma_rr", TQubits ["q7"])])
          = true) as Hok by (vm_compute; reflexivity).
  rewrite He in Hok. discriminate.
Qed.

Lemma build_operator_checks_witness :
  (exists X,
     build_operator example_simulation [(OpName "I", TQubits ["q0"; "q1"])] = Ok X
     /\ Qobj_eq X (qeye (dim_of bn_ground_rydberg ^ _size example_simulation)))
  /\ build_operator example_simulation
       ([(OpName "sigma_rr", TQubits ["q0"; "q0"])]
        ++ [(OpName "I", TGlobal)]) = Raise ValueError
  /\ exists X,
       build_operator example_simulation
         [(OpName "sigma_rr", TQubits ["q0"]); (OpName "sigma_gg", TQubits ["q0"])]
       = Ok X.
Proof.
  split; [|split].
  - pose proof (build_operator_checks example_simulation bn_ground_rydberg
                  [(OpName "I", TQubits ["q0"; "q1"])] []) as H.
    destruct H as (H & _ & _).
    + vm_compute. reflexivity.
    + by_computation.
    + apply H. apply Forall_cons; [|apply Forall_nil].
      eexists. split; [reflexivity|by_computation].
  - pose proof (build_operator_checks example_simulation bn_ground_rydberg
                  [(OpName "sigma_rr", TQubits ["q0"; "q0"])]
                  [(OpName "I", TGlobal)]) as H.
    destruct H as (_ & H & _).
    + vm_compute. reflexivity.
    + by_computation.
    + apply H. eexists. split; [by left|by_computation].
  - pose proof (build_operator_checks example_simulation bn_ground_rydberg
                  [(OpName "sigma_rr", TQubits ["q0"]);
                   (OpName "sigma_gg", TQubits ["q0"])] []) as H.
    destruct H as (_ & _ & H).
    + vm_compute. reflexivity.
    + by_computation.
    + apply H. by_computation.
Defined.

(** C10 fails as stated: an unfit pair before the ["global"] pair makes the
    call raise. *)
Lemma build_operator_global_after_unfit :
  (OpName "I", TGlobal)
    ∈ [(OpName "nope", TQubits ["q0"]); (OpName "I", TGlobal)]
  /\ build_operator example_simulation
       [(OpName "nope", TQubits ["q0"]); (OpName "I", TGlobal)]
     = Raise ValueError.
Proof. split; [by right; left|]. vm_compute. reflexivity. Qed.

Lemma build_operator_global_witness :
  exists Op,
    resolve bn_ground_rydberg (OpName "sigma_gr") = Some Op
    /\ build_operator example_simulation
         ([(OpName "sigma_rr", TQubits ["q0"])]
          ++ (OpName "sigma_gr", TGlobal)
             :: [(OpName "nope", TQubits ["q7"; "q7"])])
       = Ok (global_sum example_simulation bn_ground_rydberg Op).
Proof.
  pose proof (build_operator_global example_simulation bn_ground_rydberg
                [(OpName "sigma_rr", TQubits ["q0"])]
                [(OpName "nope", TQubits ["q7"; "q7"])]
                (OpName "sigma_gr")) as H.
  destruct (resolve bn_ground_rydberg (OpName "sigma_gr")) as [Op|] eqn:HOp.
  - exists Op. split; [reflexivity|]. apply H.
    + vm_compute. reflexivity.
    + by_computation.
    + by_computation.
  - vm_compute in HOp. discriminate HOp.
Defined.

Lemma pair_of_fst {A B} (p : A * B) (a : A) : p.1 = a -> p = (a, p.2).
Proof. destruct p. simpl. by intros ->. Qed.

Lemma Qobj_differ_at (a b : Qobj) (i j : nat) :
  i < (shape a).1 -> j < (shape a).2 -> data a i j <> data b i j ->
  Qobj_differ a b = true.
Proof.
  intros Hi Hj Hne. unfold Qobj_differ. apply orb_true_iff. right.
  apply existsb_exists. exists i. split; [apply in_seq; lia|].
  apply existsb_exists. exists j. split; [apply in_seq; lia|].
  by destruct (Ceq_dec _ _).
Qed.

Lemma run_spam_guard_witness :
  exists e, run example_exact_external PbFalse example_options
              example_spam_simulation
            = (Raise e, example_spam_simulation)
            /\ (is_ok (solver_options example_exact_external
                         example_options example_spam_simulation).1 = true ->
                is_ok (all_in_state example_spam_simulation "g") = true ->
                e = NotImplementedError).
Proof.
  apply (run_spam_guard example_exact_external PbFalse example_options
           example_spam_simulation).
  - vm_compute. reflexivity.
  - vm_compute. reflexivity.
  - intros ground Hg.
    assert (match all_in_state example_spam_simulation "g" with
            | Ok g => data g 0 0 | Raise _ => C1 end = Cmul C0 C0) as Hd
      by (vm_compute; reflexivity).
    rewrite Hg in Hd.
    assert (_initial_state example_spam_simulation = example_rydberg_state)
      as Hi by (vm_compute; reflexivity).
    simpl. rewrite Hi. apply (Qobj_differ_at _ _ 0 0); simpl; [lia..|].
    rewrite Hd. unfold C1, C0, Cmul. simpl. intros [= H _]. lra.
Defined.

Lemma hamiltonian_hermitian_witness :
  exists ham,
    _hamiltonian (_construct_hamiltonian example_external true
                    example_simulation).2 = Some (compress ham)
    /\ forall k, Qobj_eq (evo_at (compress ham) k)
                         (dag (evo_at (compress ham) k)).
Proof.
  pose proof (hamiltonian_hermitian example_external true example_simulation
                (_construct_hamiltonian example_external true
                   example_simulation).2) as H.
  destruct H as (qobj_list & ham & _ & Hham & Hherm).
  - apply pair_of_fst. vm_compute. reflexivity.
  - exists ham. split; [exact Hham|exact Hherm].
Defined.

(** C9 fails on the code: on the example (1000 ns, every sample kept) the
    fraction 0.001 gives a single evaluation time, the initial one; the final
    time is lost.  The fraction 0.0005 gives no evaluation time at all. *)
Lemma evaluation_times_fraction_loses_final :
  (exists times,
     evaluation_times_setter example_simulation (EvalFloat (1 # 1000)) = Ok times
     /\ length times = 1
     /\ ~ exists t, t ∈ times /\ (t == t_final example_simulation)%Q)
  /\ evaluation_times_setter example_simulation (EvalFloat (5 # 10000)) = Ok [].
Proof.
  split.
  - eexists. split; [vm_compute; reflexivity|]. split; [reflexivity|].
    intros (t & Ht & Heq). apply list_elem_of_singleton in Ht. subst t.
    vm_compute in Heq. discriminate Heq.
  - vm_compute. reflexivity.
Qed.

Lemma spam_all_bad_zero_hamiltonian_witness :
  zero_samples
    (samples (_construct_hamiltonian example_external true
                example_bad_simulation).2)
  /\ zero_hamiltonian
       (_construct_hamiltonian example_external true example_bad_simulation).2.
Proof.
  pose proof (spam_all_bad_zero_hamiltonian example_external true
                example_bad_simulation
                (_construct_hamiltonian example_external true
                   example_bad_simulation).2) as H.
  destruct H as (_ & Hz & _ & _ & Hzero).
  - by_computation.
  - split; [vm_compute; reflexivity|].
    split; [vm_compute; reflexivity|]. intros k. vm_compute. reflexivity.
  - apply pair_of_fst. vm_compute. reflexivity.
  - split; [exact Hz|exact Hzero].
Defined.

Lemma set_config_dephasing_rollback_witness :
  exists self',
    set_config example_external example_dephasing_config
      example_digital_simulation = (Raise NotImplementedError, self')
    /\ _config self' = Some example_config.
Proof.
  pose proof (set_config_dephasing_rollback example_external
                example_dephasing_config example_config
                example_digital_simulation
                (_construct_hamiltonian example_external true
                   (install_config example_dephasing_config
                      example_digital_simulation).2).2) as H.
  destruct H as (e & self' & Hrun & Hcfg & _ & He).
  - vm_compute. reflexivity.
  - vm_compute. reflexivity.
  - vm_compute. reflexivity.
  - vm_compute. reflexivity.
  - vm_compute. reflexivity.
  - apply pair_of_fst. vm_compute. reflexivity.
  - left. vm_compute. reflexivity.
  - exists self'. rewrite <- He; [split; [exact Hrun|exact Hcfg]|].
    vm_compute. reflexivity.
Defined.

Lemma ok_pair {A B} (p : Outcome A * B) :
  is_ok p.1 = true -> exists a, p = (Ok a, p.2).
Proof. destruct p as [[a|e] b]; simpl; [eauto|done]. Qed.

Lemma example_sampler_size (r : CoherentResults) (t : Q) (k pos : nat) :
  size (sample_state example_external r t k pos) = k.
Proof.
  simpl. rewrite list_to_set_disj_replicate, gmultiset_size_scalar_mul.
  rewrite gmultiset_size_singleton. lia.
Qed.

Lemma run_regimes_witness :
  exists calls,
    trace (run example_external PbFalse example_options example_noisy_simulation).2
    = trace example_noisy_simulation
      ++ concat (zip_with (fun (_ : Bitstring * nat) c =>
                             [EvConstruct false; EvSolve c])
                   (most_common (counter_of
                      (run_draws example_external example_noisy_simulation)))
                   calls).
Proof.
  destruct (ok_pair (run example_external PbFalse example_options example_noisy_simulation))
    as [res Hres]; [vm_compute; reflexivity|].
  destruct (run_regimes example_external PbFalse example_options example_noisy_simulation
              (run example_external PbFalse example_options example_noisy_simulation).2 res)
    as (events & Htr & _ & _ & HB & _); [vm_compute; discriminate|exact Hres|].
  destruct HB as (calls & r & -> & _).
  { split; [vm_compute; reflexivity|]. split; vm_compute; reflexivity. }
  exists calls. exact Htr.
Defined.

Lemma run_configurations_histogram_witness :
  exists r,
    (run example_external PbFalse example_options example_noisy_simulation).1 = Ok (Noisy r)
    /\ length (nr_run_prob r) = 2
    /\ Forall (fun dist => (Qsum_list dist.*2 == 1)%Q) (nr_run_prob r).
Proof.
  destruct (ok_pair (run example_external PbFalse example_options example_noisy_simulation))
    as [res Hres]; [vm_compute; reflexivity|].
  destruct (run_configurations_histogram example_external PbFalse example_options
              example_noisy_simulation
              (run example_external PbFalse example_options example_noisy_simulation).2 res)
    as (calls & ress & countss & r & -> & _ & _ & _ & _ & _ & _ & _ & _ & _
        & Hlen & Hsum); [| | |apply example_sampler_size|exact Hres|].
  - split; [vm_compute; reflexivity|]. split; vm_compute; reflexivity.
  - vm_compute. discriminate.
  - vm_compute. discriminate.
  - exists r. rewrite Hres. split; [done|]. split; [|exact Hsum].
    rewrite Hlen. vm_compute. reflexivity.
Defined.

Lemma set_config_aftermath_witness :
  _bad_atoms (set_config example_external example_config
                example_bad_simulation).2 !! "q0"
  = Some false.
Proof.
  destruct (set_config_aftermath example_external example_config
              example_bad_simulation
              (set_config example_external example_config
                 example_bad_simulation).2) as (_ & _ & Hbad & _).
  - apply pair_of_fst. vm_compute. reflexivity.
  - rewrite Hbad by (vm_compute; reflexivity). vm_compute. reflexivity.
Defined.

Lemma run_single_solve_witness :
  exists c,
    (run example_external PbFalse example_options example_simulation).2
    = log_event (EvSolve c) example_simulation.
Proof.
  destruct (ok_pair (run example_external PbFalse example_options
                       example_simulation))
    as [res Hres]; [vm_compute; reflexivity|].
  destruct (run_single_solve example_external PbFalse example_options
              example_simulation
              (run example_external PbFalse example_options
                 example_simulation).2 res)
    as (ham & p_bar & solv_ops & _ & _ & _ & Hs & _); [|exact Hres|].
  - split; [vm_compute; reflexivity|]. left. vm_compute. reflexivity.
  - eexists. exact Hs.
Defined.

Lemma run_xy_spam_raises_witness :
  run example_external PbFalse example_options example_xy_simulation
  = (Raise KeyError, example_xy_simulation).
Proof.
  apply run_xy_spam_raises.
  - vm_compute. reflexivity.
  - vm_compute. discriminate.
  - vm_compute. reflexivity.
  - vm_compute. reflexivity.
  - vm_compute. reflexivity.
Defined.

Lemma set_config_unsupported_witness :
  set_config example_external example_dephasing_config example_xy_simulation
  = (Raise NotImplementedError, example_xy_simulation).
Proof.
  apply (set_config_unsupported example_external example_dephasing_config
           example_xy_simulation "dephasing").
  - by_computation.
  - by_computation.
Defined.

Lemma build_operator_tensor_witness :
  exists X,
    build_operator example_simulation
      [(OpName "sigma_rr", TQubits ["q0"; "q1"]);
       (OpName "sigma_gg", TQubits ["q1"])]
    = Ok X.
Proof.
  pose proof (build_operator_tensor example_simulation bn_ground_rydberg
                [(OpName "sigma_rr", TQubits ["q0"; "q1"]);
                 (OpName "sigma_gg", TQubits ["q1"])]) as H.
  eexists. apply H.
  - vm_compute. reflexivity.
  - by_computation.
  - by_computation.
Defined.

Lemma initial_state_all_ground_witness :
  shape (_initial_state
           (initial_state_setter example_external AllGround
              example_simulation).2)
  = (dim_of bn_ground_rydberg ^ _size example_simulation, 1).
Proof.
  destruct (initial_state_all_ground example_external example_simulation
              (initial_state_setter example_external AllGround
                 example_simulation).2
              bn_ground_rydberg) as (ket & _ & _ & Hshape & _).
  - vm_compute. reflexivity.
  - vm_compute. discriminate.
  - apply pair_of_fst. vm_compute. reflexivity.
  - exact Hshape.
Defined.

Lemma init_postconditions_witness :
  _config (__init__ example_external (example_sequence false) 1 None
             (EvalStr "Full") 0).2
  = Some (default (SimConfig_default example_external) None)
  /\ is_Some (_hamiltonian (__init__ example_external (example_sequence false)
                              1 None (EvalStr "Full") 0).2).
Proof.
  destruct (init_postconditions example_external (example_sequence false) 1
              None (EvalStr "Full") 0
              (__init__ example_external (example_sequence false) 1 None
                 (EvalStr "Full") 0).2)
    as (_ & _ & Hcfg & _ & Hham & _).
  - apply pair_of_fst. vm_compute. reflexivity.
  - split; [exact Hcfg|exact Hham].
Defined.

Lemma _update_noise_draws_witness :
  _bad_atoms (_update_noise example_external example_noisy_simulation).2
    !! "q1"
  = Some true.
Proof.
  destruct (_update_noise_draws example_external example_noisy_simulation)
    as (_ & Hbad & _); [by_computation|].
  assert (has_noise "SPAM" (config example_external example_noisy_simulation)
          && Qltb 0 (eta (config example_external example_noisy_simulation))
          = true) as Hc by (vm_compute; reflexivity).
  rewrite Hc in Hbad. cbv iota in Hbad.
  etrans; [apply (Hbad 1 "q1"); vm_compute; reflexivity|].
  vm_compute. reflexivity.
Defined.

Lemma noisy_extraction_is_local_witness :
  smp_global
    (samples (_extract_samples example_external example_noisy_simulation).2)
    ground_rydberg
  = None.
Proof.
  apply (noisy_extraction_is_local example_external example_noisy_simulation).
  - vm_compute. reflexivity.
  - apply pair_of_fst. vm_compute. reflexivity.
Defined.

Lemma slm_mask_zeroes_witness :
  masked_entry ground_rydberg 8 "q1"
    (_extract_samples example_external example_masked_simulation).2.
Proof.
  apply (slm_mask_zeroes example_external example_masked_simulation _ 8)
    with (channel := ("ch0", mkChannel Global ground_rydberg)).
  - vm_compute. discriminate.
  - vm_compute. reflexivity.
  - apply pair_of_fst. vm_compute. reflexivity.
  - vm_compute. apply list_elem_of_here.
  - vm_compute. apply list_elem_of_here.
Defined.

Lemma slm_mask_unaddressed_raises_witness :
  exists e,
    (_extract_samples example_external example_raman_simulation).1 = Raise e.
Proof.
  apply (slm_mask_unaddressed_raises example_external example_raman_simulation
           "q1" ("ch1", mkChannel Local digital)).
  - vm_compute. apply list_elem_of_here.
  - vm_compute. discriminate.
  - vm_compute. apply list_elem_of_further, list_elem_of_here.
  - intros c slots Hc Hb Hs slot p Hslot Hp.
    apply elem_of_cons in Hc as [->|Hc]; [discriminate Hb|].
    apply list_elem_of_singleton in Hc as ->.
    vm_compute in Hs. injection Hs as <-.
    apply elem_of_cons in Hslot as [->|Hslot]; [discriminate Hp|].
    apply list_elem_of_singleton in Hslot as ->.
    cbn [targets]. intros Hin. apply list_elem_of_singleton in Hin.
    discriminate Hin.
Defined.

Lemma extraction_returns_witness :
  exists s',
    _extract_samples example_external example_pulse_simulation = (Ok tt, s').
Proof.
  assert (forall q, q ∈ ["q0"; "q1"] ->
            known example_pulse_simulation q) as Hknown.
  { intros q Hq. apply elem_of_cons in Hq as [->|Hq];
      [|apply list_elem_of_singleton in Hq as ->];
      (repeat split; vm_compute; by eexists). }
  apply (extraction_returns example_external example_pulse_simulation).
  - vm_compute. reflexivity.
  - intros channel Hc.
    apply elem_of_cons in Hc as [->|Hc];
      [|apply list_elem_of_singleton in Hc as ->].
    + split; [vm_compute; apply list_elem_of_here|].
      eexists. split; [vm_compute; reflexivity|].
      intros slot p q Hslot Hp Hq. apply Hknown.
      apply elem_of_cons in Hslot as [->|Hslot];
        [|apply list_elem_of_singleton in Hslot as ->]; exact Hq.
    + split; [vm_compute; apply list_elem_of_further, list_elem_of_here|].
      eexists. split; [vm_compute; reflexivity|].
      intros slot p q Hslot Hp Hq. apply Hknown.
      apply elem_of_cons in Hslot as [->|Hslot]; [discriminate Hp|].
      apply list_elem_of_singleton in Hslot as ->.
      apply list_elem_of_singleton in Hq as ->. apply list_elem_of_here.
Defined.
